(** * simple-config: reconciling default and persisted JSON configuration

    A shallow embedding of [src/config.ts] (class [Config]) and of its
    synchronous sibling variant, followed by the properties of the path
    accessor ([getValueFromPath], [setValueFromPath]) and of the
    reconciler ([loadConfig], [init]).

    Modelling conventions.
    - A JavaScript value of the kind the class handles is a [value]: the
      JSON values plus [undefined].  Numbers are integers: the code looks
      at a number only through its truthiness.
    - An object is the list of its own enumerable properties in
      enumeration order; assigning an existing key keeps its place,
      assigning a new key appends it.  Members inherited from the built-in
      prototypes are not part of the model: keys are taken to differ from
      them (see [inherited]).  Engines enumerate integer-like keys first;
      the model keeps insertion order throughout (see [named_key]).
      Strings are taken to be made of ASCII characters, for which [length]
      and indices are the program's.
    - Writing into an array outside its existing elements has the
      outcome [Untracked]: no statement below rests on such a run.
    - The class body is strict-mode code, so writing a property of a
      primitive throws a [TypeError].
    - In-place mutation of a nested object is rendered by writing the
      updated child back into its parent.  Where object identity matters
      (who else sees the mutation), module [Heap] gives the same code over
      a store of cells and is related to the tree model by simulation. *)

From Stdlib Require Import List String Ascii ZArith Bool Arith Lia DecimalString.
Import ListNotations.
Local Open Scope string_scope.
Local Open Scope list_scope.

(* ================================================================== *)
(** ** Values *)

#[warnings="-register-all"]
Inductive value : Type :=
| VUndef
| VNull
| VBool (b : bool)
| VNum (n : Z)
| VStr (s : string)
| VArr (elems : list value)
| VObj (props : list (string * value)).

(** Structural induction through the nested lists. *)
Section ValueInd.
Variable P : value -> Prop.
Hypothesis Hundef : P VUndef.
Hypothesis Hnull : P VNull.
Hypothesis Hbool : forall b, P (VBool b).
Hypothesis Hnum : forall n, P (VNum n).
Hypothesis Hstr : forall s, P (VStr s).
Hypothesis Harr : forall l, Forall P l -> P (VArr l).
Hypothesis Hobj : forall o, Forall (fun kv => P (snd kv)) o -> P (VObj o).

Fixpoint value_nested_ind (v : value) : P v :=
  match v with
  | VUndef => Hundef
  | VNull => Hnull
  | VBool b => Hbool b
  | VNum n => Hnum n
  | VStr s => Hstr s
  | VArr l =>
      Harr l ((fix go (l : list value) : Forall P l :=
               match l with
               | [] => Forall_nil _
               | x :: r => Forall_cons x (value_nested_ind x) (go r)
               end) l)
  | VObj o =>
      Hobj o ((fix go (o : list (string * value)) : Forall (fun kv => P (snd kv)) o :=
               match o with
               | [] => Forall_nil _
               | kv :: r => Forall_cons kv (value_nested_ind (snd kv)) (go r)
               end) o)
  end.
End ValueInd.

(** [!thing] is [negb (truthy thing)]. *)
Definition truthy (v : value) : bool :=
  match v with
  | VUndef | VNull => false
  | VBool b => b
  | VNum n => negb (Z.eqb n 0)
  | VStr s => negb (String.eqb s "")
  | VArr _ | VObj _ => true
  end.

(** [Array.isArray(thing)] *)
Definition isArray (v : value) : bool :=
  match v with VArr _ => true | _ => false end.

(** [typeof thing === 'object']: objects, arrays and [null]. *)
Definition typeof_object (v : value) : bool :=
  match v with VNull | VArr _ | VObj _ => true | _ => false end.

(** [thing === undefined] *)
Definition is_undefined (v : value) : bool :=
  match v with VUndef => true | _ => false end.

(* ------------------------------------------------------------------ *)
(** *** Own properties *)

Fixpoint assoc (k : string) (o : list (string * value)) : option value :=
  match o with
  | [] => None
  | (k', v) :: r => if String.eqb k k' then Some v else assoc k r
  end.

(** [o[k] = v] on the property list of an object. *)
Fixpoint assoc_set (k : string) (v : value) (o : list (string * value))
  : list (string * value) :=
  match o with
  | [] => [(k, v)]
  | (k', v') :: r =>
      if String.eqb k k' then (k', v) :: r else (k', v') :: assoc_set k v r
  end.

(** A key that is a canonical array index ("0", "1", ..., no leading zero). *)
Definition index_of_key (k : string) : option nat :=
  match NilEmpty.uint_of_string k with
  | Some u =>
      let i := Nat.of_uint u in
      if String.eqb (NilEmpty.string_of_uint (Nat.to_uint i)) k then Some i else None
  | None => None
  end.

Fixpoint replace_nth (i : nat) (v : value) (l : list value) : list value :=
  match l, i with
  | [], _ => []
  | _ :: r, O => v :: r
  | x :: r, S i' => x :: replace_nth i' v r
  end.

Definition opt_value (o : option value) : value :=
  match o with Some v => v | None => VUndef end.

(** [thing[key]] read on a value: own properties of objects, elements and
    [length] of arrays and strings; [undefined] otherwise. *)
Definition read_prop (thing : value) (key : string) : value :=
  match thing with
  | VObj o => opt_value (assoc key o)
  | VArr l =>
      match index_of_key key with
      | Some i => opt_value (nth_error l i)
      | None => if String.eqb key "length" then VNum (Z.of_nat (List.length l)) else VUndef
      end
  | VStr s =>
      match index_of_key key with
      | Some i =>
          match String.get i s with
          | Some c => VStr (String c EmptyString)
          | None => VUndef
          end
      | None => if String.eqb key "length" then VNum (Z.of_nat (String.length s)) else VUndef
      end
  | _ => VUndef
  end.

(* ------------------------------------------------------------------ *)
(** *** Outcomes *)

Inductive exn : Type :=
| ArraysNotSupported   (* new Error('Arrays not supported in configuration') *)
| TypeError            (* property write on null, undefined or a primitive *)
| SyntaxError          (* JSON.parse on malformed text *)
| ENOENT.              (* fs.readFileSync on a missing file *)

(** The outcome of running a piece of the class: a result, a thrown
    exception, exhausted recursion fuel, or a step this model does not
    follow (a property added to an array object). *)
Inductive outcome (A : Type) : Type :=
| Ok (a : A)
| Throw (e : exn)
| OutOfFuel
| Untracked.

Arguments Ok {A} a.
Arguments Throw {A} e.
Arguments OutOfFuel {A}.
Arguments Untracked {A}.

Definition bind {A B} (m : outcome A) (f : A -> outcome B) : outcome B :=
  match m with
  | Ok a => f a
  | Throw e => Throw e
  | OutOfFuel => OutOfFuel
  | Untracked => Untracked
  end.

Notation "x <- m ;; k" := (bind m (fun x => k))
  (at level 61, m at next level, right associativity).

(** [thing[key] = v] in strict mode. *)
Definition write_prop (thing : value) (key : string) (v : value) : outcome value :=
  match thing with
  | VObj o => Ok (VObj (assoc_set key v o))
  | VArr l =>
      match index_of_key key with
      | Some i => if Nat.ltb i (List.length l) then Ok (VArr (replace_nth i v l)) else Untracked
      | None => Untracked
      end
  | _ => Throw TypeError
  end.

(* ================================================================== *)
(** ** The path accessor *)

(** [getValueFromPath(thing, path)]:
<<
    if (!path.length) return thing;
    if (!thing) return undefined;
    const next = path.shift();
    return this.getValueFromPath(thing[next!], path);
>> *)
Fixpoint getValueFromPath (thing : value) (path : list string) : value :=
  match path with
  | [] => thing
  | next :: path' =>
      if negb (truthy thing) then VUndef
      else getValueFromPath (read_prop thing next) path'
  end.

(** [setValueFromPath(thing, path, setThing)]:
<<
    if (!path.length) return;
    const next = path.shift();
    if (!path.length) { thing[next!] = setThing; return; }
    if (!thing[next!]) thing[next!] = {};
    return this.setValueFromPath(thing[next!], path, setThing);
>>
    The result is [thing] after the call. *)
Fixpoint setValueFromPath (thing : value) (path : list string) (setThing : value)
  : outcome value :=
  match path with
  | [] => Ok thing
  | next :: path' =>
      match path' with
      | [] => write_prop thing next setThing
      | _ :: _ =>
          thing1 <- (if negb (truthy (read_prop thing next))
                     then write_prop thing next (VObj [])
                     else Ok thing) ;;
          child <- setValueFromPath (read_prop thing1 next) path' setThing ;;
          write_prop thing1 next child
      end
  end.

(* ================================================================== *)
(** ** The reconciler *)

(** The keys a [for (let key in thing)] loop visits. *)
Definition keys (thing : value) : list string :=
  match thing with
  | VObj o => map fst o
  | _ => []
  end.

(** The [for ... in] loop: the body runs once per key on the current
    state, and an exception leaves the loop. *)
Fixpoint for_in {S : Type} (ks : list string) (body : string -> S -> outcome S) (st : S)
  : outcome S :=
  match ks with
  | [] => Ok st
  | key :: ks' => st' <- body key st ;; for_in ks' body st'
  end.

(** [loadConfig(propsValues, path)] on the state [(this.config, propsValues)]:
<<
    const thing = this.getValueFromPath(this.config, [...path]);
    if (Array.isArray(thing)) throw new Error('Arrays not supported in configuration');
    if (typeof thing === 'object') {
      for (let key in thing) {
        path.push(key);
        this.loadConfig(propsValues, [...path]);
        path.pop();
      }
    } else {
      let propValueThing = this.getValueFromPath(propsValues, [...path]);
      if (propValueThing === undefined) {
        this.setValueFromPath(propsValues, [...path], thing);
      } else {
        this.setValueFromPath(this.config, [...path], propValueThing);
      }
    }
>>
    Every call receives a fresh copy of the path, so paths are immutable
    lists here.  [fuel] bounds the depth of the recursion. *)
Fixpoint loadConfig (fuel : nat) (st : value * value) (path : list string)
  : outcome (value * value) :=
  match fuel with
  | O => OutOfFuel
  | S fuel' =>
      let (config, propsValues) := st in
      let thing := getValueFromPath config path in
      if isArray thing then Throw ArraysNotSupported
      else if typeof_object thing then
        for_in (keys thing) (fun key st' => loadConfig fuel' st' (path ++ [key])) st
      else
        let propValueThing := getValueFromPath propsValues path in
        if is_undefined propValueThing then
          props' <- setValueFromPath propsValues path thing ;;
          Ok (config, props')
        else
          config' <- setValueFromPath config path propValueThing ;;
          Ok (config', propsValues)
  end.

(** Nesting depth of the mappings of a value. *)
Fixpoint depth (v : value) : nat :=
  match v with
  | VObj o => S (fold_right (fun kv d => Nat.max (depth (snd kv)) d) 0 o)
  | _ => 0
  end.

(** One reconciliation of the default structure [D] against the persisted
    structure [P]: the merged configuration and the persisted structure
    after the walk. *)
Definition reconcile (D P : value) : outcome (value * value) :=
  loadConfig (S (depth D)) (D, P) [].


(* ================================================================== *)
(** ** Vocabulary of the specification *)

(** The value stored at a key path, descending through mappings only. *)
Fixpoint lookup (t : value) (p : list string) : option value :=
  match p with
  | [] => Some t
  | k :: p' =>
      match t with
      | VObj o =>
          match assoc k o with
          | Some c => lookup c p'
          | None => None
          end
      | _ => None
      end
  end.

(** Scalar leaves of the data model: string, number, boolean, null. *)
Definition scalar (v : value) : bool :=
  match v with
  | VNull | VBool _ | VNum _ | VStr _ => true
  | _ => false
  end.

(** [p] is a leaf path of [t] holding [v]. *)
Definition leaf_at (t : value) (p : list string) (v : value) : Prop :=
  lookup t p = Some v /\ scalar v = true.

(** [p] is a key path of [t]. *)
Definition has_path (t : value) (p : list string) : Prop :=
  lookup t p <> None.

Definition is_object (v : value) : bool :=
  match v with VObj _ => true | _ => false end.

(** No key occurs twice in a list of keys. *)
Fixpoint uniq (ks : list string) : bool :=
  match ks with
  | [] => true
  | k :: r => negb (existsb (String.eqb k) r) && uniq r
  end.

(** Every mapping of the value has pairwise distinct keys, as every
    JavaScript object has. *)
Fixpoint wf (v : value) : bool :=
  match v with
  | VObj o => uniq (map fst o) && forallb (fun kv => wf (snd kv)) o
  | _ => true
  end.

(** No array occurs in the value. *)
Fixpoint array_free (v : value) : bool :=
  match v with
  | VArr _ => false
  | VObj o => forallb (fun kv => array_free (snd kv)) o
  | _ => true
  end.

(** The two paths part ways at some key. *)
Fixpoint diverge (p q : list string) : bool :=
  match p, q with
  | k1 :: p', k2 :: q' => if String.eqb k1 k2 then diverge p' q' else true
  | _, _ => false
  end.

(** The nest of mappings [{k1: {k2: ... {kn: v}}}] that a write creates
    below a fresh intermediate mapping. *)
Fixpoint chain (p : list string) (v : value) : value :=
  match p with
  | [] => v
  | k :: p' => VObj [(k, chain p' v)]
  end.




(* ================================================================== *)
(** ** The reconciler, described structurally *)

(** Values the walk treats as leaves: everything whose [typeof] is not
    ['object'] (so [null] is not one of them). *)
Definition walk_leaf (v : value) : bool := negb (typeof_object v).

(** The merged configuration: the default structure [d] in which every
    leaf the walk visits is replaced by the persisted value [pv] found at
    the same place, when there is one. *)
Fixpoint overlay (d pv : value) : value :=
  match d with
  | VObj o =>
      VObj (map (fun kv => (fst kv, overlay (snd kv) (getValueFromPath pv [fst kv]))) o)
  | VNull | VArr _ => d
  | _ => if is_undefined pv then d else pv
  end.

(** Replacing the value stored at an existing key path. *)
Fixpoint update (t : value) (p : list string) (new : value) : value :=
  match p with
  | [] => new
  | k :: p' =>
      match t with
      | VObj o =>
          match assoc k o with
          | Some c => VObj (assoc_set k (update c p' new) o)
          | None => t
          end
      | _ => t
      end
  end.

(** What the walk over the default subtree [thing], found at [path], does
    to the persisted structure: every leaf that the persisted structure
    lacks is written into it. *)
Fixpoint backfill (thing : value) (path : list string) (propsValues : value)
  : outcome value :=
  match thing with
  | VArr _ => Throw ArraysNotSupported
  | VNull => Ok propsValues
  | VObj o =>
      (fix fields (o : list (string * value)) (pr : value) : outcome value :=
         match o with
         | [] => Ok pr
         | kv :: r => pr' <- backfill (snd kv) (path ++ [fst kv]) pr ;; fields r pr'
         end) o propsValues
  | _ =>
      if is_undefined (getValueFromPath propsValues path)
      then setValueFromPath propsValues path thing
      else Ok propsValues
  end.

(** [backfill] over the fields of a mapping, one after the other. *)
Fixpoint backfill_fields (o : list (string * value)) (path : list string) (pr : value)
  : outcome value :=
  match o with
  | [] => Ok pr
  | kv :: r =>
      pr' <- backfill (snd kv) (path ++ [fst kv]) pr ;; backfill_fields r path pr'
  end.

(** A persisted value through which a write can pass: a mapping, or a
    falsy value (which the write replaces by a fresh mapping). *)
Definition passable (v : value) : bool := is_object v || negb (truthy v).

(** The persisted structure [pr] is a mapping, and wherever the defaults
    [D] hold a nested mapping the accessor finds in [pr] a passable
    value. *)
Definition shape_ok (D pr : value) : Prop :=
  is_object pr = true /\
  forall q o, lookup D q = Some (VObj o) -> passable (getValueFromPath pr q) = true.

(** The same requirement, checked structurally: below a mapping of the
    defaults the persisted structure holds a mapping, a falsy value, or
    nothing. *)
Fixpoint compatible (d p : value) : bool :=
  match d with
  | VObj o =>
      match p with
      | VObj po =>
          forallb (fun kv => compatible (snd kv) (opt_value (assoc (fst kv) po))) o
      | _ => negb (truthy p)
      end
  | _ => true
  end.


(* ================================================================== *)
(** ** Storage and the class *)

(** [JSON.parse] and [JSON.stringify(-, null, 2)], the external codec.
    [JSON_parse] yields [None] where [JSON.parse] throws. *)
Record codec : Type := {
  JSON_parse : string -> option value;
  JSON_stringify : value -> string
}.


(** The file at [configPath] ([None] while it does not exist) and the
    payloads of the [fs.writeFileSync] calls made so far, oldest first. *)
Record world : Type := {
  disk : option string;
  written : list string
}.

Definition existsSync (w : world) : bool :=
  match disk w with Some _ => true | None => false end.

Definition writeFileSync (data : string) (w : world) : world :=
  {| disk := Some data; written := written w ++ [data] |}.

Definition readFileSync (w : world) : option string := disk w.

(** The two variants of the class: [src/config.ts] (asynchronous,
    keeps the caller's object) and the synchronous variant (copies the top
    level of its inputs into prototype-less objects). *)
Inductive variant : Type := Async | Sync.

Definition key_of_index (i : nat) : string := NilEmpty.string_of_uint (Nat.to_uint i).

Fixpoint indexed (i : nat) (l : list value) : list (string * value) :=
  match l with
  | [] => []
  | x :: r => (key_of_index i, x) :: indexed (S i) r
  end.

Fixpoint chars (s : string) : list value :=
  match s with
  | EmptyString => []
  | String c r => VStr (String c EmptyString) :: chars r
  end.

(** [Object.assign(Object.create(null), v)]: a fresh object with the own
    enumerable properties of [v]. *)
Definition shallow_copy (v : value) : value :=
  match v with
  | VObj o => VObj o
  | VArr l => VObj (indexed 0 l)
  | VStr s => VObj (indexed 0 (chars s))
  | _ => VObj []
  end.

Definition adopt (v : variant) (x : value) : value :=
  match v with Async => x | Sync => shallow_copy x end.

(** The fields of an instance ([configPath] is the one file of [world]). *)
Record Config : Type := {
  initialized : bool;
  config : value
}.

(** [new Config(defaultConfig, configFileName)] *)
Definition constructor (v : variant) (defaultConfig : value) : Config :=
  {| initialized := false; config := adopt v defaultConfig |}.

(** [init()]:
<<
    if (this.initialized) return;
    if (!fs.existsSync(this.configPath)) fs.writeFileSync(this.configPath, '');
    const confFileData = fs.readFileSync(this.configPath);
    let props = JSON.parse(confFileData.toString() || '{}');
    props = Object.assign(Object.create(null), props);   // synchronous variant only
    this.loadConfig(props);
    fs.writeFileSync(this.configPath, JSON.stringify(props, null, 2));
    this.initialized = true;
>>
    The result pairs the storage after the call with its outcome; what a
    throwing walk leaves in [this.config] is not kept. *)
Definition init (J : codec) (v : variant) (self : Config) (w : world)
  : world * outcome Config :=
  if initialized self then (w, Ok self)
  else
    let w1 := if negb (existsSync w) then writeFileSync "" w else w in
    match readFileSync w1 with
    | None => (w1, Throw ENOENT)
    | Some confFileData =>
        match JSON_parse J (if String.eqb confFileData "" then "{}" else confFileData) with
        | None => (w1, Throw SyntaxError)
        | Some parsed =>
            let props := adopt v parsed in
            match reconcile (config self) props with
            | Ok (config', props') =>
                (writeFileSync (JSON_stringify J props') w1,
                 Ok {| initialized := true; config := config' |})
            | Throw e => (w1, Throw e)
            | OutOfFuel => (w1, OutOfFuel)
            | Untracked => (w1, Untracked)
            end
        end
    end.

(** [getConfig()]: [init()], then a deep copy of [this.config]
    ([structuredClone], or a JSON round trip in the synchronous
    variant). *)
Definition getConfig (J : codec) (v : variant) (self : Config) (w : world)
  : world * outcome (Config * value) :=
  match init J v self w with
  | (w', Ok self') =>
      match v with
      | Async => (w', Ok (self', config self'))
      | Sync =>
          match JSON_parse J (JSON_stringify J (config self')) with
          | Some snapshot => (w', Ok (self', snapshot))
          | None => (w', Throw SyntaxError)
          end
      end
  | (w', Throw e) => (w', Throw e)
  | (w', OutOfFuel) => (w', OutOfFuel)
  | (w', Untracked) => (w', Untracked)
  end.

(* ------------------------------------------------------------------ *)
(** *** A codec for examples *)

Definition quote : string := String (ascii_of_nat 34) EmptyString.

(** Compact JSON text of a value (no escapes; properties holding
    [undefined] are left out). *)
Fixpoint print_json (v : value) : string :=
  match v with
  | VUndef | VNull => "null"
  | VBool true => "true"
  | VBool false => "false"
  | VNum n => NilZero.string_of_int (Z.to_int n)
  | VStr s => quote ++ s ++ quote
  | VArr l =>
      "[" ++ String.concat "," (map print_json l) ++ "]"
  | VObj o =>
      "{" ++ String.concat ","
               ((fix fields (o : list (string * value)) : list string :=
                   match o with
                   | [] => []
                   | kv :: r =>
                       if is_undefined (snd kv) then fields r
                       else (quote ++ fst kv ++ quote ++ ":" ++ print_json (snd kv))
                              :: fields r
                   end) o)
          ++ "}"
  end%string.

(** A codec that prints with [print_json] and parses the texts of a given
    list of documents. *)
Definition table_codec (docs : list value) : codec :=
  {| JSON_parse := fun s => find (fun d => String.eqb s (print_json d)) docs;
     JSON_stringify := print_json |}.

(* ------------------------------------------------------------------ *)
(** *** Vocabulary for the storage properties *)

(** The storage once [init] has made sure the file exists. *)
Definition ensure_file (w : world) : world :=
  if negb (existsSync w) then writeFileSync "" w else w.

(** The text [init] hands to [JSON.parse]: the content of the file, or
    ["{}"] for a missing or empty file. *)
Definition read_text (w : world) : string :=
  match disk w with
  | Some s => if String.eqb s "" then "{}" else s
  | None => "{}"
  end.


(* ================================================================== *)
(** ** The class on a heap of objects

    The same methods with objects held by reference, to follow which
    object a write lands in: a value is a scalar or the address of a cell,
    [thing[next] = {}] allocates a cell, and no write-back is needed. *)

Module Heap.

Definition loc := nat.

Inductive ref_value : Type :=
| RUndef
| RNull
| RBool (b : bool)
| RNum (n : Z)
| RStr (s : string)
| RRef (l : loc).

(** An object or an array with its own properties. *)
Record cell : Type := {
  is_array : bool;
  fields : list (string * ref_value)
}.

(** The heap: the cell at address [l] is the [l]-th of the list. *)
Definition heap := list cell.

Definition alloc (h : heap) (c : cell) : heap * loc := (h ++ [c], List.length h).

Fixpoint put (h : heap) (l : loc) (c : cell) : heap :=
  match h, l with
  | [], _ => []
  | _ :: r, O => c :: r
  | x :: r, S l' => x :: put r l' c
  end.

Fixpoint field (k : string) (fs : list (string * ref_value)) : option ref_value :=
  match fs with
  | [] => None
  | (k', v) :: r => if String.eqb k k' then Some v else field k r
  end.

Fixpoint field_set (k : string) (v : ref_value) (fs : list (string * ref_value))
  : list (string * ref_value) :=
  match fs with
  | [] => [(k, v)]
  | (k', v') :: r =>
      if String.eqb k k' then (k', v) :: r else (k', v') :: field_set k v r
  end.

Definition truthy (v : ref_value) : bool :=
  match v with
  | RUndef | RNull => false
  | RBool b => b
  | RNum n => negb (Z.eqb n 0)
  | RStr s => negb (String.eqb s "")
  | RRef _ => true
  end.

Definition isArray (h : heap) (v : ref_value) : bool :=
  match v with
  | RRef l => match nth_error h l with Some c => is_array c | None => false end
  | _ => false
  end.

Definition typeof_object (v : ref_value) : bool :=
  match v with RNull | RRef _ => true | _ => false end.

Definition is_undefined (v : ref_value) : bool :=
  match v with RUndef => true | _ => false end.

(** [thing[key]] *)
Definition read_prop (h : heap) (thing : ref_value) (key : string) : ref_value :=
  match thing with
  | RRef l =>
      match nth_error h l with
      | Some c =>
          match field key (fields c) with
          | Some v => v
          | None =>
              if is_array c && String.eqb key "length"
              then RNum (Z.of_nat (List.length (fields c)))
              else RUndef
          end
      | None => RUndef
      end
  | RStr s =>
      match index_of_key key with
      | Some i =>
          match String.get i s with
          | Some c => RStr (String c EmptyString)
          | None => RUndef
          end
      | None => if String.eqb key "length" then RNum (Z.of_nat (String.length s)) else RUndef
      end
  | _ => RUndef
  end.

(** [thing[key] = v] in strict mode; a property added to an array is not
    followed. *)
Definition write_prop (h : heap) (thing : ref_value) (key : string) (v : ref_value)
  : outcome heap :=
  match thing with
  | RRef l =>
      match nth_error h l with
      | Some c =>
          if is_array c
          then match field key (fields c) with
               | Some _ => Ok (put h l {| is_array := true; fields := field_set key v (fields c) |})
               | None => Untracked
               end
          else Ok (put h l {| is_array := false; fields := field_set key v (fields c) |})
      | None => Throw TypeError
      end
  | _ => Throw TypeError
  end.

Fixpoint getValueFromPath (h : heap) (thing : ref_value) (path : list string) : ref_value :=
  match path with
  | [] => thing
  | next :: path' =>
      if negb (truthy thing) then RUndef
      else getValueFromPath h (read_prop h thing next) path'
  end.

Fixpoint setValueFromPath (h : heap) (thing : ref_value) (path : list string)
         (setThing : ref_value) : outcome heap :=
  match path with
  | [] => Ok h
  | next :: path' =>
      match path' with
      | [] => write_prop h thing next setThing
      | _ :: _ =>
          h1 <- (if negb (truthy (read_prop h thing next))
                 then let (h0, l) := alloc h {| is_array := false; fields := [] |} in
                      write_prop h0 thing next (RRef l)
                 else Ok h) ;;
          setValueFromPath h1 (read_prop h1 thing next) path' setThing
      end
  end.

Definition keys (h : heap) (thing : ref_value) : list string :=
  match thing with
  | RRef l => match nth_error h l with Some c => map fst (fields c) | None => [] end
  | _ => []
  end.

(** [loadConfig], with [this.config] and [propsValues] as references into
    the heap the walk mutates. *)
Fixpoint loadConfig (fuel : nat) (config propsValues : ref_value)
         (h : heap) (path : list string) : outcome heap :=
  match fuel with
  | O => OutOfFuel
  | S fuel' =>
      let thing := getValueFromPath h config path in
      if isArray h thing then Throw ArraysNotSupported
      else if typeof_object thing then
        for_in (keys h thing)
               (fun key h' => loadConfig fuel' config propsValues h' (path ++ [key])) h
      else
        let propValueThing := getValueFromPath h propsValues path in
        if is_undefined propValueThing then
          setValueFromPath h propsValues path thing
        else
          setValueFromPath h config path propValueThing
  end.

(** [Object.assign(Object.create(null), v)] *)
Definition shallow_copy (h : heap) (v : ref_value) : heap * ref_value :=
  let fs :=
    match v with
    | RRef l => match nth_error h l with Some c => fields c | None => [] end
    | RStr s => map (fun kv => (fst kv, match snd kv with VStr c => RStr c | _ => RUndef end))
                    (indexed 0 (chars s))
    | _ => []
    end in
  let (h', l) := alloc h {| is_array := false; fields := fs |} in
  (h', RRef l).

(** The constructor: [this.config = defaultConfig] in [src/config.ts],
    a shallow copy of [defaultConfig] in the synchronous variant. *)
Definition constructor (v : variant) (h : heap) (defaultConfig : ref_value)
  : heap * ref_value :=
  match v with
  | Async => (h, defaultConfig)
  | Sync => shallow_copy h defaultConfig
  end.

(** The scalar a tree value is, as a heap value. *)
Definition embed (t : value) : ref_value :=
  match t with
  | VNull => RNull
  | VBool b => RBool b
  | VNum n => RNum n
  | VStr s => RStr s
  | _ => RUndef
  end.

(** [layout h r t]: the reference [r] holds the array-free tree [t] in
    [h]; the result lists the addresses of the cells that make it up, one
    per mapping of [t]. *)
Fixpoint layout (h : heap) (r : ref_value) (t : value) : option (list loc) :=
  match t with
  | VObj o =>
      match r with
      | RRef l =>
          match nth_error h l with
          | Some c =>
              if is_array c then None
              else
                match
                  (fix layout_fields (fs : list (string * ref_value))
                       (o : list (string * value)) {struct o} : option (list loc) :=
                     match o, fs with
                     | [], [] => Some []
                     | (k, t') :: o', (k', r') :: fs' =>
                         if String.eqb k k' then
                           match layout h r' t', layout_fields fs' o' with
                           | Some a, Some b => Some (a ++ b)
                           | _, _ => None
                           end
                         else None
                     | _, _ => None
                     end) (fields c) o
                with
                | Some F => Some (l :: F)
                | None => None
                end
          | None => None
          end
      | _ => None
      end
  | VArr _ => None
  | VUndef => match r with RUndef => Some [] | _ => None end
  | VNull => match r with RNull => Some [] | _ => None end
  | VBool b => match r with RBool b' => if Bool.eqb b b' then Some [] else None | _ => None end
  | VNum n => match r with RNum n' => if Z.eqb n n' then Some [] else None | _ => None end
  | VStr s => match r with RStr s' => if String.eqb s s' then Some [] else None | _ => None end
  end.

Fixpoint layout_fields (h : heap) (fs : list (string * ref_value))
         (o : list (string * value)) {struct o} : option (list loc) :=
  match o, fs with
  | [], [] => Some []
  | (k, t') :: o', (k', r') :: fs' =>
      if String.eqb k k' then
        match layout h r' t', layout_fields h fs' o' with
        | Some a, Some b => Some (a ++ b)
        | _, _ => None
        end
      else None
  | _, _ => None
  end.

(** The tree [t] sits at [r] in [h] without sharing: no cell serves two
    of its mappings. *)
Definition holds (h : heap) (r : ref_value) (t : value) (F : list loc) : Prop :=
  layout h r t = Some F /\ NoDup F /\ forall l, In l F -> l < List.length h.

(** Allocating a tree, children first, as an object literal or
    [JSON.parse] does (arrays as cells with index keys). *)
Fixpoint store (h : heap) (t : value) : heap * ref_value :=
  match t with
  | VObj o =>
      let '(h1, fs) :=
        (fix store_fields (h : heap) (o : list (string * value))
           : heap * list (string * ref_value) :=
           match o with
           | [] => (h, [])
           | kv :: o' =>
               let (h1, r) := store h (snd kv) in
               let (h2, fs) := store_fields h1 o' in
               (h2, (fst kv, r) :: fs)
           end) h o in
      let (h2, l) := alloc h1 {| is_array := false; fields := fs |} in
      (h2, RRef l)
  | VArr elems =>
      let '(h1, fs) :=
        (fix store_elems (h : heap) (i : nat) (elems : list value)
           : heap * list (string * ref_value) :=
           match elems with
           | [] => (h, [])
           | x :: elems' =>
               let (h1, r) := store h x in
               let (h2, fs) := store_elems h1 (S i) elems' in
               (h2, (key_of_index i, r) :: fs)
           end) h 0 elems in
      let (h2, l) := alloc h1 {| is_array := true; fields := fs |} in
      (h2, RRef l)
  | _ => (h, embed t)
  end.

End Heap.

(** What the caller's default object holds after the reconciliation, per
    variant: the whole merged configuration when the instance works on
    the caller's object itself; with a shallow copy, the caller's own top
    level as it was and every nested mapping merged. *)
Definition caller_view (v : variant) (D P : value) : value :=
  match v with
  | Async => overlay D P
  | Sync =>
      match D with
      | VObj o =>
          VObj (map (fun kv =>
                       (fst kv,
                        if is_object (snd kv)
                        then overlay (snd kv) (getValueFromPath P [fst kv])
                        else snd kv)) o)
      | _ => D
      end
  end.

(** Where the defaults hold a leaf the walk visits, the accessor finds
    no mapping in the persisted structure: only scalars move from the
    persisted structure into the configuration. *)
Definition scalar_overrides (D P : value) : Prop :=
  forall q dv, lookup D q = Some dv -> walk_leaf dv = true ->
               is_object (getValueFromPath P q) = false.

(** The two trees sit in the heap apart from each other. *)
Definition sim_state (h : Heap.heap) (d pr : Heap.ref_value) (c pt : value)
           (F : list Heap.loc) : Prop :=
  exists Fc Fp,
    F = Fc ++ Fp
    /\ Heap.layout h d c = Some Fc /\ Heap.layout h pr pt = Some Fp
    /\ NoDup F /\ forall l, In l F -> l < List.length h.

(** Every property that holds a reference in [h] holds the same reference
    in [h']. *)
Definition refs_kept (h h' : Heap.heap) : Prop :=
  forall l c k l',
    nth_error h l = Some c -> Heap.field k (Heap.fields c) = Some (Heap.RRef l') ->
    exists c', nth_error h' l = Some c' /\ Heap.field k (Heap.fields c') = Some (Heap.RRef l').

(** What a step of the walk guarantees about the heap it leaves. *)
Definition sim_step (h : Heap.heap) (F : list Heap.loc) (h' : Heap.heap)
           (F' : list Heap.loc) : Prop :=
  (forall l, In l F' -> In l F \/ List.length h <= l)
  /\ (forall l, l < List.length h -> ~ In l F -> nth_error h' l = nth_error h l)
  /\ List.length h <= List.length h'
  /\ refs_kept h h'.

(** [scalar_overrides], checked structurally. *)
Fixpoint overrides_are_scalar (d p : value) : bool :=
  match d with
  | VObj o =>
      forallb (fun kv => overrides_are_scalar (snd kv) (getValueFromPath p [fst kv])) o
  | VNull | VArr _ => true
  | _ => negb (is_object p)
  end.


(* ================================================================== *)
(** ** Keys for which the model of property access is exact

    [read_prop] gives the own property of a value, and [undefined] where
    there is none.  In the program [thing[next]] also finds the members
    that objects, numbers and booleans inherit from the built-in
    prototypes, and an assignment to [__proto__] does not create a
    property.  The statements that depend on it are made for keys that
    name no such member. *)

(** The string-keyed members of [Object.prototype], [Number.prototype]
    and [Boolean.prototype]. *)
Definition builtin_members : list string :=
  [ "constructor"; "hasOwnProperty"; "isPrototypeOf"; "propertyIsEnumerable";
    "toLocaleString"; "toString"; "valueOf"; "__proto__";
    "__defineGetter__"; "__defineSetter__"; "__lookupGetter__"; "__lookupSetter__";
    "toExponential"; "toFixed"; "toPrecision" ].

(** [k] names a member that an object, a number or a boolean inherits. *)
Definition inherited (k : string) : bool :=
  existsb (String.eqb k) builtin_members.

(** No key of the path names an inherited member. *)
Definition own_path (p : list string) : bool :=
  forallb (fun k => negb (inherited k)) p.

(** An ordinary key: it names no inherited member, it is not [length]
    nor an index (which strings and arrays answer), and so a property
    added under it is enumerated after those already there. *)
Definition ordinary_key (k : string) : bool :=
  negb (inherited k) && negb (String.eqb k "length")
  && match index_of_key k with Some _ => false | None => true end.


(** A key that is no index: a property added under it is enumerated
    after those already there. *)
Definition named_key (k : string) : bool :=
  match index_of_key k with Some _ => false | None => true end.

(** Every key of every mapping of the value is ordinary. *)
Fixpoint ordinary_keys (v : value) : bool :=
  match v with
  | VObj o => forallb (fun kv => ordinary_key (fst kv) && ordinary_keys (snd kv)) o
  | VArr l => forallb ordinary_keys l
  | _ => true
  end.

(* ================================================================== *)
(** ** Further vocabulary *)

(** A value that is neither a mapping nor an array: [undefined], [null],
    a boolean, a number or a string. *)
Definition primitive (v : value) : bool :=
  negb (is_object v) && negb (isArray v).

(** The walk over [v] reaches at least one leaf, that is a value whose
    [typeof] is not ['object']. *)
Fixpoint has_leaf (v : value) : bool :=
  match v with
  | VObj o => existsb (fun kv => has_leaf (snd kv)) o
  | VNull | VArr _ => false
  | _ => true
  end.

(** Defaults whose leaves are booleans, numbers and strings and whose
    nested mappings are not empty. *)
Fixpoint plain (v : value) : bool :=
  match v with
  | VObj o =>
      match o with [] => false | _ :: _ => forallb (fun kv => plain (snd kv)) o end
  | VBool _ | VNum _ | VStr _ => true
  | _ => false
  end.

Definition plain_fields (o : list (string * value)) : bool :=
  forallb (fun kv => plain (snd kv)) o.

(** [q] is a proper prefix of [p]. *)
Definition proper_prefix (q p : list string) : Prop :=
  exists k r, p = q ++ k :: r.

(** What keeps a write at [p] from changing what the accessor reads at
    [q], where it reads [x]: the paths part ways; or something is stored
    at [q] and it is a truthy primitive (a write through it fails), or [q]
    is no proper prefix of [p]. *)
Definition spared (x : value) (q p : list string) : Prop :=
  diverge p q = true
  \/ (x <> VUndef
      /\ ((primitive x = true /\ truthy x = true) \/ ~ proper_prefix q p)).

(** The defaults as the walk copies them into an empty document: [null]
    leaves are left out, and so is every mapping below which the walk
    reaches no leaf. *)
Fixpoint prune (v : value) : value :=
  match v with
  | VObj o =>
      VObj ((fix fields (o : list (string * value)) : list (string * value) :=
               match o with
               | [] => []
               | kv :: r =>
                   if has_leaf (snd kv) then (fst kv, prune (snd kv)) :: fields r
                   else fields r
               end) o)
  | _ => v
  end.

Fixpoint prune_fields (o : list (string * value)) : list (string * value) :=
  match o with
  | [] => []
  | kv :: r =>
      if has_leaf (snd kv) then (fst kv, prune (snd kv)) :: prune_fields r
      else prune_fields r
  end.

(** The walk over the default subtree [thing], at a path whose first key
    past [path] the persisted structure does not have yet, grows the
    mapping at [path] by one property holding the copy of [thing]. *)
Definition grows (thing : value) : Prop :=
  wf thing = true -> array_free thing = true ->
  forall root path po k rest,
    lookup root path = Some (VObj po) -> assoc k po = None ->
    backfill thing (path ++ k :: rest) root
    = if has_leaf thing
      then Ok (update root path (VObj (po ++ [(k, chain rest (prune thing))])))
      else Ok root.

(* ------------------------------------------------------------------ *)
(** *** The copy [getConfig] returns, on the heap *)

(** The tree of values reachable from [r], read off the heap as a
    serializer does; [fuel] bounds the nesting. *)
Fixpoint load_tree (fuel : nat) (h : Heap.heap) (r : Heap.ref_value) : option value :=
  match r with
  | Heap.RUndef => Some VUndef
  | Heap.RNull => Some VNull
  | Heap.RBool b => Some (VBool b)
  | Heap.RNum n => Some (VNum n)
  | Heap.RStr s => Some (VStr s)
  | Heap.RRef l =>
      match fuel with
      | O => None
      | S fuel' =>
          match nth_error h l with
          | None => None
          | Some c =>
              match
                (fix load_fields (fs : list (string * Heap.ref_value))
                   : option (list (string * value)) :=
                   match fs with
                   | [] => Some []
                   | kr :: fs' =>
                       match load_tree fuel' h (snd kr), load_fields fs' with
                       | Some t, Some o => Some ((fst kr, t) :: o)
                       | _, _ => None
                       end
                   end) (Heap.fields c)
              with
              | Some o => Some (if Heap.is_array c then VArr (map snd o) else VObj o)
              | None => None
              end
          end
      end
  end.

Fixpoint load_fields (fuel : nat) (h : Heap.heap) (fs : list (string * Heap.ref_value))
  : option (list (string * value)) :=
  match fs with
  | [] => Some []
  | kr :: fs' =>
      match load_tree fuel h (snd kr), load_fields fuel h fs' with
      | Some t, Some o => Some ((fst kr, t) :: o)
      | _, _ => None
      end
  end.

(** [structuredClone(this.config)]: the value is serialized and built
    anew from its serialized form. *)
Definition structuredClone (fuel : nat) (h : Heap.heap) (r : Heap.ref_value)
  : option (Heap.heap * Heap.ref_value) :=
  match load_tree fuel h r with
  | Some t => Some (Heap.store h t)
  | None => None
  end.

(** [JSON.parse(JSON.stringify(this.config))], the copy of the
    synchronous variant. *)
Definition json_clone (J : codec) (fuel : nat) (h : Heap.heap) (r : Heap.ref_value)
  : option (Heap.heap * Heap.ref_value) :=
  match load_tree fuel h r with
  | Some t =>
      match JSON_parse J (JSON_stringify J t) with
      | Some t' => Some (Heap.store h t')
      | None => None
      end
  | None => None
  end.

(** [Heap.store] over the fields of a mapping. *)
Fixpoint store_fields (h : Heap.heap) (o : list (string * value))
  : Heap.heap * list (string * Heap.ref_value) :=
  match o with
  | [] => (h, [])
  | kv :: o' =>
      let (h1, r) := Heap.store h (snd kv) in
      let (h2, fs) := store_fields h1 o' in
      (h2, (fst kv, r) :: fs)
  end.

(* ================================================================== *)
(** ** Own properties: reading after writing *)

Lemma assoc_set_same k v o : assoc k (assoc_set k v o) = Some v.
Proof.
  induction o as [|[k' v'] r IH]; simpl.
  - now rewrite String.eqb_refl.
  - destruct (String.eqb k k') eqn:E; simpl; rewrite E; auto.
Qed.

Lemma assoc_set_other k k' v o :
  k' <> k -> assoc k' (assoc_set k v o) = assoc k' o.
Proof.
  intros Hne. induction o as [|[k0 v0] r IH]; simpl.
  - destruct (String.eqb k' k) eqn:E; auto.
    apply String.eqb_eq in E. contradiction.
  - destruct (String.eqb k k0) eqn:E; simpl.
    + apply String.eqb_eq in E. subst k0.
      destruct (String.eqb k' k) eqn:E'; auto.
      apply String.eqb_eq in E'. contradiction.
    + now rewrite IH.
Qed.

Lemma assoc_set_twice k v w o :
  assoc_set k w (assoc_set k v o) = assoc_set k w o.
Proof.
  induction o as [|[k' v'] r IH]; simpl.
  - now rewrite String.eqb_refl.
  - destruct (String.eqb k k') eqn:E; simpl; rewrite E; auto.
    now rewrite IH.
Qed.

Lemma assoc_set_keys k v o c :
  assoc k o = Some c -> map fst (assoc_set k v o) = map fst o.
Proof.
  induction o as [|[k' v'] r IH]; simpl; [discriminate|].
  destruct (String.eqb k k') eqn:E; simpl; auto.
  intros H. now rewrite IH.
Qed.

Lemma index_of_key_inj k k' i :
  index_of_key k = Some i -> index_of_key k' = Some i -> k = k'.
Proof.
  unfold index_of_key. intros H H'.
  destruct (NilEmpty.uint_of_string k) as [u|]; [|discriminate].
  destruct (NilEmpty.uint_of_string k') as [u'|]; [|discriminate].
  destruct (String.eqb _ k) eqn:E; [|discriminate].
  destruct (String.eqb _ k') eqn:E'; [|discriminate].
  apply String.eqb_eq in E, E'.
  injection H as H. injection H' as H'. subst i. rewrite H' in E'. congruence.
Qed.

Lemma index_not_length k i : index_of_key k = Some i -> String.eqb k "length" = false.
Proof.
  intros H. destruct (String.eqb k "length") eqn:E; auto.
  apply String.eqb_eq in E. subst k. vm_compute in H. discriminate.
Qed.

Lemma replace_nth_length i v l : List.length (replace_nth i v l) = List.length l.
Proof.
  revert i. induction l as [|x r IH]; intros [|i]; simpl; auto.
Qed.

Lemma replace_nth_same i v l :
  i < List.length l -> nth_error (replace_nth i v l) i = Some v.
Proof.
  revert i. induction l as [|x r IH]; intros [|i]; simpl; intros H; try lia; auto.
  apply IH. lia.
Qed.

Lemma replace_nth_other i j v l :
  i <> j -> nth_error (replace_nth i v l) j = nth_error l j.
Proof.
  revert i j. induction l as [|x r IH]; intros [|i] [|j]; simpl; intros H;
    try congruence; auto.
Qed.

(** A successful write is a write on an object or an array: both are
    truthy, before and after. *)
Lemma write_prop_truthy thing k v thing' :
  write_prop thing k v = Ok thing' -> truthy thing = true /\ truthy thing' = true.
Proof.
  destruct thing; simpl; try discriminate.
  - destruct (index_of_key k); [|discriminate].
    destruct (Nat.ltb _ _); [|discriminate]. intros [= <-]. auto.
  - intros [= <-]. auto.
Qed.

Lemma write_read_same thing k v thing' :
  write_prop thing k v = Ok thing' -> read_prop thing' k = v.
Proof.
  destruct thing; simpl; try discriminate.
  - destruct (index_of_key k) as [i|] eqn:Ei; [|discriminate].
    destruct (Nat.ltb _ _) eqn:El; [|discriminate]. intros [= <-].
    simpl. rewrite Ei. apply Nat.ltb_lt in El.
    now rewrite replace_nth_same.
  - intros [= <-]. simpl. now rewrite assoc_set_same.
Qed.

Lemma write_read_other thing k k' v thing' :
  write_prop thing k v = Ok thing' -> k' <> k ->
  read_prop thing' k' = read_prop thing k'.
Proof.
  destruct thing; simpl; try discriminate.
  - destruct (index_of_key k) as [i|] eqn:Ei; [|discriminate].
    destruct (Nat.ltb _ _) eqn:El; [|discriminate]. intros [= <-] Hne.
    simpl. rewrite replace_nth_length.
    destruct (index_of_key k') as [j|] eqn:Ej; auto.
    rewrite replace_nth_other; auto.
    intros ->. apply Hne. eapply index_of_key_inj; eauto.
  - intros [= <-] Hne. simpl. now rewrite assoc_set_other.
Qed.


(* ================================================================== *)
(** ** The accessor: general facts *)

Lemma get_undef p : getValueFromPath VUndef p = VUndef.
Proof. destruct p; reflexivity. Qed.

Lemma get_falsy thing k p :
  truthy thing = false -> getValueFromPath thing (k :: p) = VUndef.
Proof. intros H. simpl. now rewrite H. Qed.

Lemma get_cons thing k p :
  truthy thing = true ->
  getValueFromPath thing (k :: p) = getValueFromPath (read_prop thing k) p.
Proof. intros H. simpl. now rewrite H. Qed.

Lemma get_app thing p q :
  getValueFromPath thing (p ++ q) = getValueFromPath (getValueFromPath thing p) q.
Proof.
  revert thing. induction p as [|k p IH]; intros thing; simpl; auto.
  destruct (truthy thing); simpl; auto.
  now rewrite get_undef.
Qed.

Lemma lookup_app t p q :
  lookup t (p ++ q) = match lookup t p with Some c => lookup c q | None => None end.
Proof.
  revert t. induction p as [|k p IH]; intros t; simpl; auto.
  destruct t; auto. destruct (assoc k props); auto.
Qed.

(** Along mappings the accessor reads what is stored. *)
Lemma lookup_get t p v : lookup t p = Some v -> getValueFromPath t p = v.
Proof.
  revert t. induction p as [|k p IH]; intros t; simpl.
  - now intros [= ->].
  - destruct t; try discriminate.
    destruct (assoc k props) as [c|] eqn:E; [|discriminate].
    simpl. rewrite E. apply IH.
Qed.

Lemma set_one thing k v : setValueFromPath thing [k] v = write_prop thing k v.
Proof. reflexivity. Qed.

Lemma set_cons2 thing k k2 r v :
  setValueFromPath thing (k :: k2 :: r) v =
  (thing1 <- (if negb (truthy (read_prop thing k))
              then write_prop thing k (VObj [])
              else Ok thing) ;;
   child <- setValueFromPath (read_prop thing1 k) (k2 :: r) v ;;
   write_prop thing1 k child).
Proof. reflexivity. Qed.

(** Below a fresh mapping a write creates the whole nest and succeeds. *)
Lemma set_chain k p v : setValueFromPath (VObj []) (k :: p) v = Ok (chain (k :: p) v).
Proof.
  revert k. induction p as [|k2 r IH]; intros k.
  - reflexivity.
  - rewrite set_cons2. cbn [read_prop assoc opt_value truthy negb write_prop assoc_set bind].
    rewrite String.eqb_refl. cbn [opt_value]. rewrite IH.
    cbn [bind assoc_set]. rewrite ?String.eqb_refl. reflexivity.
Qed.

Lemma get_chain p v : getValueFromPath (chain p v) p = v.
Proof.
  induction p as [|k p IH]; auto.
  cbn [chain]. rewrite get_cons by reflexivity.
  cbn [read_prop assoc]. now rewrite String.eqb_refl.
Qed.

(** A write at a non-empty path succeeds only on a truthy structure and
    leaves a truthy structure. *)
Lemma set_truthy thing k p v thing' :
  setValueFromPath thing (k :: p) v = Ok thing' ->
  truthy thing = true /\ truthy thing' = true.
Proof.
  destruct p as [|k2 r].
  - rewrite set_one. apply write_prop_truthy.
  - rewrite set_cons2.
    destruct (negb (truthy (read_prop thing k))).
    + destruct (write_prop thing k (VObj [])) as [t1| | |] eqn:E1; try discriminate.
      cbn [bind].
      destruct (setValueFromPath (read_prop t1 k) (k2 :: r) v) as [c| | |];
        try discriminate.
      cbn [bind]. intros H.
      apply write_prop_truthy in E1, H. tauto.
    + cbn [bind].
      destruct (setValueFromPath (read_prop thing k) (k2 :: r) v) as [c| | |];
        try discriminate.
      cbn [bind]. apply write_prop_truthy.
Qed.

(** Reading back the path just written yields the written value. *)
Lemma set_get_same thing p v thing' :
  p <> [] -> setValueFromPath thing p v = Ok thing' ->
  getValueFromPath thing' p = v.
Proof.
  revert thing thing'. induction p as [|k p IH]; intros thing thing' Hne H;
    [congruence|].
  destruct (set_truthy _ _ _ _ _ H) as [_ Ht'].
  rewrite get_cons by assumption.
  destruct p as [|k2 r].
  - rewrite set_one in H. now rewrite (write_read_same _ _ _ _ H).
  - rewrite set_cons2 in H.
    destruct (if negb (truthy (read_prop thing k)) then _ else _) as [t1| | |];
      try discriminate.
    cbn [bind] in H.
    destruct (setValueFromPath (read_prop t1 k) (k2 :: r) v) as [c| | |] eqn:Ec;
      try discriminate.
    cbn [bind] in H. rewrite (write_read_same _ _ _ _ H).
    eapply IH; eauto. discriminate.
Qed.

Lemma diverge_cons_same k p q : diverge (k :: p) (k :: q) = diverge p q.
Proof. simpl. now rewrite String.eqb_refl. Qed.

Lemma diverge_cons_other k k' p q : k <> k' -> diverge (k :: p) (k' :: q) = true.
Proof.
  intros H. simpl. destruct (String.eqb k k') eqn:E; auto.
  apply String.eqb_eq in E. contradiction.
Qed.

Lemma diverge_sym p q : diverge p q = diverge q p.
Proof.
  revert q. induction p as [|k p IH]; intros [|k' q]; simpl; auto.
  rewrite (String.eqb_sym k' k). destruct (String.eqb k k'); auto.
Qed.

Lemma diverge_app_l p q r : diverge p q = true -> diverge (p ++ r) q = true.
Proof.
  revert q. induction p as [|k p IH]; intros [|k' q]; simpl; try discriminate.
  destruct (String.eqb k k'); auto.
Qed.

Lemma diverge_app_r p q r : diverge p q = true -> diverge p (q ++ r) = true.
Proof. rewrite !(diverge_sym p). apply diverge_app_l. Qed.

Lemma diverge_prefix c p q : diverge (c ++ p) (c ++ q) = diverge p q.
Proof. induction c; simpl; auto. now rewrite String.eqb_refl. Qed.

Lemma diverge_siblings c k k' q : k <> k' -> diverge (c ++ [k]) (c ++ k' :: q) = true.
Proof. intros H. rewrite diverge_prefix. now apply diverge_cons_other. Qed.

(** A write leaves every path that parts ways with the written one as it
    was. *)
Lemma set_get_diverge thing p v thing' q :
  setValueFromPath thing p v = Ok thing' -> diverge p q = true ->
  getValueFromPath thing' q = getValueFromPath thing q.
Proof.
  revert thing thing' q. induction p as [|k p IH]; intros thing thing' q H Hd;
    [discriminate|].
  destruct q as [|k' q]; [discriminate|].
  destruct (set_truthy _ _ _ _ _ H) as [Ht Ht'].
  rewrite !get_cons by assumption.
  destruct (String.eqb k k') eqn:Ek.
  - apply String.eqb_eq in Ek. subst k'. rewrite diverge_cons_same in Hd.
    destruct p as [|k2 r]; [destruct q; discriminate|].
    rewrite set_cons2 in H.
    destruct (negb (truthy (read_prop thing k))) eqn:Ef.
    + destruct (write_prop thing k (VObj [])) as [t1| | |] eqn:E1; try discriminate.
      cbn [bind] in H. rewrite (write_read_same _ _ _ _ E1) in H.
      destruct (setValueFromPath (VObj []) (k2 :: r) v) as [c| | |] eqn:Ec;
        try discriminate.
      cbn [bind] in H. rewrite (write_read_same _ _ _ _ H).
      rewrite (IH _ _ _ Ec Hd).
      destruct q as [|k3 q]; [discriminate|].
      apply negb_true_iff in Ef.
      rewrite (get_falsy _ _ q Ef).
      rewrite get_cons by reflexivity. cbn [read_prop assoc opt_value].
      apply get_undef.
    + cbn [bind] in H.
      destruct (setValueFromPath (read_prop thing k) (k2 :: r) v) as [c| | |] eqn:Ec;
        try discriminate.
      cbn [bind] in H. rewrite (write_read_same _ _ _ _ H).
      apply (IH _ _ _ Ec Hd).
  - assert (Hne : k' <> k).
    { intros ->. now rewrite String.eqb_refl in Ek. }
    f_equal.
    destruct p as [|k2 r].
    + rewrite set_one in H. now apply (write_read_other _ _ _ _ _ H).
    + rewrite set_cons2 in H.
      destruct (negb (truthy (read_prop thing k))).
      * destruct (write_prop thing k (VObj [])) as [t1| | |] eqn:E1; try discriminate.
        cbn [bind] in H.
        destruct (setValueFromPath (read_prop t1 k) (k2 :: r) v) as [c| | |];
          try discriminate.
        cbn [bind] in H.
        rewrite (write_read_other _ _ _ _ _ H Hne). now apply (write_read_other _ _ _ _ _ E1).
      * cbn [bind] in H.
        destruct (setValueFromPath (read_prop thing k) (k2 :: r) v) as [c| | |];
          try discriminate.
        cbn [bind] in H. now apply (write_read_other _ _ _ _ _ H).
Qed.

Lemma set_falsy_step o k k2 r v :
  truthy (read_prop (VObj o) k) = false ->
  setValueFromPath (VObj o) (k :: k2 :: r) v
  = Ok (VObj (assoc_set k (chain (k2 :: r) v) o)).
Proof.
  intros Hf. rewrite set_cons2, Hf.
  cbn [negb write_prop bind read_prop]. rewrite assoc_set_same.
  cbn [opt_value]. rewrite set_chain. cbn [bind].
  now rewrite assoc_set_twice.
Qed.

Lemma set_truthy_step o k k2 r v :
  truthy (read_prop (VObj o) k) = true ->
  setValueFromPath (VObj o) (k :: k2 :: r) v
  = (child <- setValueFromPath (read_prop (VObj o) k) (k2 :: r) v ;;
     Ok (VObj (assoc_set k child o))).
Proof. intros Ht. rewrite set_cons2, Ht. reflexivity. Qed.

(* ================================================================== *)
(** ** The accessor: contract of the get and set operations *)






(* ================================================================== *)
(** ** Replacing a stored value *)

Lemma assoc_set_id k v o : assoc k o = Some v -> assoc_set k v o = o.
Proof.
  induction o as [|[k' v'] r IH]; simpl; [discriminate|].
  destruct (String.eqb k k') eqn:E.
  - now intros [= ->].
  - intros H. now rewrite IH.
Qed.

Lemma assoc_app_notin k a b :
  ~ In k (map fst a) -> assoc k (a ++ b) = assoc k b.
Proof.
  induction a as [|[k' v'] r IH]; simpl; auto.
  intros H. destruct (String.eqb k k') eqn:E.
  - apply String.eqb_eq in E. subst. tauto.
  - apply IH. tauto.
Qed.

Lemma assoc_set_app_notin k v a b :
  ~ In k (map fst a) -> assoc_set k v (a ++ b) = a ++ assoc_set k v b.
Proof.
  induction a as [|[k' v'] r IH]; simpl; auto.
  intros H. destruct (String.eqb k k') eqn:E.
  - apply String.eqb_eq in E. subst. tauto.
  - rewrite IH; tauto.
Qed.

Lemma assoc_In k v o : assoc k o = Some v -> In (k, v) o.
Proof.
  induction o as [|[k' v'] r IH]; simpl; [discriminate|].
  destruct (String.eqb k k') eqn:E.
  - apply String.eqb_eq in E. subst. intros [= ->]. now left.
  - auto.
Qed.

Lemma assoc_None_notin k o : assoc k o = None <-> ~ In k (map fst o).
Proof.
  induction o as [|[k' v'] r IH]; simpl; [tauto|].
  destruct (String.eqb k k') eqn:E.
  - apply String.eqb_eq in E. subst. split; [discriminate|tauto].
  - rewrite IH. apply String.eqb_neq in E. split; [intros H [?|?]; congruence|tauto].
Qed.

Lemma update_same t p old : lookup t p = Some old -> update t p old = t.
Proof.
  revert t. induction p as [|k p IH]; intros t; simpl.
  - now intros [= ->].
  - destruct t; try discriminate.
    destruct (assoc k props) as [c|] eqn:E; [|discriminate].
    intros H. rewrite (IH _ H). now rewrite assoc_set_id.
Qed.

Lemma lookup_update t p old new q :
  lookup t p = Some old -> lookup (update t p new) (p ++ q) = lookup new q.
Proof.
  revert t. induction p as [|k p IH]; intros t; simpl; auto.
  destruct t; try discriminate.
  destruct (assoc k props) as [c|] eqn:E; [|discriminate].
  intros H. simpl. rewrite assoc_set_same. now apply IH.
Qed.

Lemma update_twice t p old x y :
  lookup t p = Some old -> update (update t p x) p y = update t p y.
Proof.
  revert t. induction p as [|k p IH]; intros t; simpl; auto.
  destruct t; try discriminate.
  destruct (assoc k props) as [c|] eqn:E; [|discriminate].
  intros H. simpl. rewrite assoc_set_same, assoc_set_twice. now rewrite (IH _ H).
Qed.

Lemma update_app t p sub q new :
  lookup t p = Some sub -> update t (p ++ q) new = update t p (update sub q new).
Proof.
  revert t. induction p as [|k p IH]; intros t; simpl.
  - now intros [= ->].
  - destruct t; try discriminate.
    destruct (assoc k props) as [c|] eqn:E; [|discriminate].
    intros H. now rewrite (IH _ H).
Qed.

(** On an existing path of mappings the set operation replaces the stored
    value and nothing else. *)
Lemma set_update t p old v :
  lookup t p = Some old -> p <> [] -> setValueFromPath t p v = Ok (update t p v).
Proof.
  revert t. induction p as [|k p IH]; intros t H Hne; [congruence|].
  simpl in H. destruct t; try discriminate.
  destruct (assoc k props) as [c|] eqn:E; [|discriminate].
  destruct p as [|k2 r].
  - rewrite set_one. simpl. now rewrite E.
  - rewrite set_cons2. cbn [read_prop]. rewrite E. cbn [opt_value].
    assert (Hc : truthy c = true).
    { simpl in H. destruct c; try discriminate. reflexivity. }
    rewrite Hc. cbn [negb bind read_prop]. rewrite E. cbn [opt_value].
    rewrite (IH c H) by discriminate. cbn [bind write_prop].
    cbn [update]. now rewrite E.
Qed.

(* ================================================================== *)
(** ** The walk over the persisted structure *)

Lemma backfill_obj o path pr : backfill (VObj o) path pr = backfill_fields o path pr.
Proof.
  cbn [backfill]. revert pr. induction o as [|kv r IH]; intros pr; simpl; auto.
  destruct (backfill (snd kv) (path ++ [fst kv]) pr); simpl; auto.
Qed.

Lemma bind_Ok_inv {A B} (m : outcome A) (f : A -> outcome B) b :
  bind m f = Ok b -> exists a, m = Ok a /\ f a = Ok b.
Proof. destruct m; simpl; try discriminate. eauto. Qed.

(** The walk below [path] leaves alone every path of the persisted
    structure that parts ways with [path]. *)
Lemma backfill_frame thing :
  forall path pr pr' q,
    backfill thing path pr = Ok pr' -> diverge path q = true ->
    getValueFromPath pr' q = getValueFromPath pr q.
Proof.
  assert (Hleaf : forall thing path pr pr' q,
             (if is_undefined (getValueFromPath pr path)
              then setValueFromPath pr path thing else Ok pr) = Ok pr' ->
             diverge path q = true ->
             getValueFromPath pr' q = getValueFromPath pr q).
  { intros t path pr pr' q H Hd.
    destruct (is_undefined (getValueFromPath pr path)).
    - eapply set_get_diverge; eassumption.
    - injection H as <-. reflexivity. }
  induction thing as [| | b | n | s | l _ | o IH] using value_nested_ind;
    intros path pr pr' q H Hd.
  - eapply Hleaf; eassumption.
  - injection H as <-. reflexivity.
  - eapply Hleaf; eassumption.
  - eapply Hleaf; eassumption.
  - eapply Hleaf; eassumption.
  - discriminate.
  - rewrite backfill_obj in H. revert pr H.
    induction IH as [|kv r Hkv _ IHr]; intros pr H; simpl in H.
    + injection H as <-. reflexivity.
    + apply bind_Ok_inv in H. destruct H as (pr1 & H1 & H2).
      rewrite (IHr _ H2). eapply Hkv; eauto. now apply diverge_app_l.
Qed.

Lemma backfill_fields_frame o path pr pr' q :
  backfill_fields o path pr = Ok pr' -> diverge path q = true ->
  getValueFromPath pr' q = getValueFromPath pr q.
Proof. rewrite <- backfill_obj. apply backfill_frame. Qed.

Lemma uniq_NoDup ks : uniq ks = true -> NoDup ks.
Proof.
  induction ks as [|k r IH]; simpl; intros H; constructor.
  - apply andb_true_iff in H. destruct H as [H _].
    apply negb_true_iff in H. intros Hin.
    assert (existsb (String.eqb k) r = true); [|congruence].
    apply existsb_exists. exists k. split; auto. apply String.eqb_refl.
  - apply IH. apply andb_true_iff in H. tauto.
Qed.

Lemma depth_child kv o : In kv o -> depth (snd kv) < depth (VObj o).
Proof.
  cbn [depth]. induction o as [|x r IH]; simpl; [tauto|].
  intros [->|H]; [lia|]. specialize (IH H). lia.
Qed.

Lemma wf_obj o :
  wf (VObj o) = true ->
  NoDup (map fst o) /\ forall kv, In kv o -> wf (snd kv) = true.
Proof.
  cbn [wf]. intros H. apply andb_true_iff in H. destruct H as [H1 H2].
  split; [now apply uniq_NoDup|].
  rewrite forallb_forall in H2. exact H2.
Qed.

Lemma lookup_update_root t p old new :
  lookup t p = Some old -> lookup (update t p new) p = Some new.
Proof.
  intros H. rewrite <- (app_nil_r p) at 2. now rewrite (lookup_update _ _ _ new [] H).
Qed.

Section Refinement.

Variable fuel : nat.

(** The walk below a key, with less fuel, is already known to agree with
    its structural description. *)
Hypothesis IHfuel :
  forall c pr path thing,
    lookup c path = Some thing -> wf thing = true -> depth thing < fuel ->
    (path = [] -> typeof_object thing = true) ->
    loadConfig fuel (c, pr) path
    = (pr' <- backfill thing path pr ;;
       Ok (update c path (overlay thing (getValueFromPath pr path)), pr')).

Variables (c pr : value) (path : list string) (old : value).
Hypothesis Hold : lookup c path = Some old.

Let F (kv : string * value) : string * value :=
  (fst kv, overlay (snd kv) (getValueFromPath (getValueFromPath pr path) [fst kv])).

(** The [for ... in] loop over the keys still to visit. *)
Lemma for_in_refines todo :
  forall done pr1,
    NoDup (map fst (done ++ todo)) ->
    (forall kv, In kv todo -> wf (snd kv) = true /\ depth (snd kv) < fuel) ->
    (forall kv, In kv todo ->
       getValueFromPath pr1 (path ++ [fst kv]) = getValueFromPath pr (path ++ [fst kv])) ->
    for_in (map fst todo) (fun key st' => loadConfig fuel st' (path ++ [key]))
           (update c path (VObj (map F done ++ todo)), pr1)
    = (pr' <- backfill_fields todo path pr1 ;;
       Ok (update c path (VObj (map F (done ++ todo))), pr')).
Proof.
  induction todo as [|[k child] rest IH]; intros done pr1 Hnd Hwf Hpr.
  - simpl. now rewrite !app_nil_r.
  - assert (Hk : ~ In k (map fst (map F done))).
    { rewrite map_map. cbn [F fst]. rewrite map_app in Hnd.
      apply NoDup_remove_2 in Hnd. intros Hin. apply Hnd.
      apply in_or_app. now left. }
    assert (Hchild : lookup (update c path (VObj (map F done ++ (k, child) :: rest)))
                            (path ++ [k]) = Some child).
    { rewrite (lookup_update _ _ _ _ _ Hold). cbn [lookup].
      rewrite (assoc_app_notin _ _ _ Hk). cbn [assoc].
      now rewrite String.eqb_refl. }
    destruct (Hwf (k, child) (or_introl eq_refl)) as [Hwfc Hdc]. cbn [snd] in *.
    cbn [map fst for_in backfill_fields snd].
    rewrite (IHfuel _ pr1 _ _ Hchild Hwfc Hdc)
      by (intros Habs; now apply app_eq_nil in Habs).
    destruct (backfill child (path ++ [k]) pr1) as [pr2| | |] eqn:Eb; cbn [bind]; auto.
    rewrite (update_app _ _ _ [k] _ (lookup_update_root _ _ _ _ Hold)).
    rewrite (update_twice _ _ _ _ _ Hold).
    cbn [update]. rewrite (assoc_app_notin _ _ _ Hk). cbn [assoc].
    rewrite String.eqb_refl. rewrite (assoc_set_app_notin _ _ _ _ Hk).
    cbn [assoc_set]. rewrite String.eqb_refl.
    pose proof (Hpr (k, child) (or_introl eq_refl)) as Hk1. cbn [fst] in Hk1.
    rewrite Hk1, (get_app pr path [k]).
    assert (Hst : map F done
                  ++ (k, overlay child (getValueFromPath (getValueFromPath pr path) [k]))
                  :: rest
                  = map F (done ++ [(k, child)]) ++ rest).
    { rewrite map_app, <- app_assoc. reflexivity. }
    assert (Hall : done ++ (k, child) :: rest = (done ++ [(k, child)]) ++ rest).
    { rewrite <- app_assoc. reflexivity. }
    rewrite Hst, Hall. apply IH.
    + now rewrite <- Hall.
    + intros kv Hin. apply Hwf. now right.
    + intros kv Hin.
      rewrite <- (Hpr kv (or_intror Hin)).
      eapply backfill_frame; eauto.
      rewrite diverge_prefix. apply diverge_cons_other.
      intros ->. rewrite map_app in Hnd. cbn [map fst] in Hnd.
      apply NoDup_remove_2 in Hnd.
      apply Hnd. apply in_or_app. right. apply (in_map fst rest kv Hin).
Qed.

End Refinement.

(** The recursive walk of the class agrees with its structural
    description: with fuel beyond the depth of the default subtree found
    at [path], [loadConfig] leaves in [this.config] the overlay of that
    subtree with the persisted values, and in [propsValues] the backfilled
    persisted structure; it throws exactly when the backfill throws. *)
Lemma loadConfig_refines fuel :
  forall c pr path thing,
    lookup c path = Some thing -> wf thing = true -> depth thing < fuel ->
    (path = [] -> typeof_object thing = true) ->
    loadConfig fuel (c, pr) path
    = (pr' <- backfill thing path pr ;;
       Ok (update c path (overlay thing (getValueFromPath pr path)), pr')).
Proof.
  induction fuel as [|fuel IH]; intros c pr path thing Hl Hwf Hd Hroot; [lia|].
  assert (Hleaf :
            walk_leaf thing = true ->
            loadConfig (S fuel) (c, pr) path
            = (pr' <- (if is_undefined (getValueFromPath pr path)
                       then setValueFromPath pr path thing else Ok pr) ;;
               Ok (update c path
                     (if is_undefined (getValueFromPath pr path)
                      then thing else getValueFromPath pr path), pr'))).
  { intros Hw. cbn [loadConfig]. rewrite (lookup_get _ _ _ Hl).
    assert (Hne : path <> []).
    { intros ->. unfold walk_leaf in Hw. rewrite Hroot in Hw by reflexivity.
      discriminate. }
    unfold walk_leaf in Hw. apply negb_true_iff in Hw.
    assert (Ha : isArray thing = false) by (destruct thing; auto; discriminate).
    rewrite Ha, Hw.
    destruct (is_undefined (getValueFromPath pr path)).
    - rewrite (update_same _ _ _ Hl). reflexivity.
    - rewrite (set_update _ _ _ _ Hl Hne). reflexivity. }
  destruct thing as [| | b | n | s | l | o];
    try (rewrite Hleaf by reflexivity; reflexivity).
  - cbn [loadConfig]. rewrite (lookup_get _ _ _ Hl).
    cbn. now rewrite (update_same _ _ _ Hl).
  - cbn [loadConfig]. rewrite (lookup_get _ _ _ Hl). reflexivity.
  - cbn [loadConfig]. rewrite (lookup_get _ _ _ Hl).
    cbn [isArray typeof_object keys]. rewrite backfill_obj.
    destruct (wf_obj _ Hwf) as [Hnd Hwfc].
    pose proof (for_in_refines fuel IH c pr path (VObj o) Hl o [] pr) as Hloop.
    cbn [map app] in Hloop. rewrite (update_same _ _ _ Hl) in Hloop.
    rewrite Hloop; auto.
    intros kv Hin. split; [now apply Hwfc|].
    pose proof (depth_child kv o Hin). lia.
Qed.

(** One reconciliation, structurally: the merged configuration is the
    overlay of the defaults with the persisted values, and the persisted
    structure is backfilled. *)
Lemma reconcile_refines D P :
  wf D = true -> typeof_object D = true ->
  reconcile D P = (P' <- backfill D [] P ;; Ok (overlay D P, P')).
Proof.
  intros Hwf Hobj. unfold reconcile.
  now rewrite (loadConfig_refines (S (depth D)) D P [] D eq_refl Hwf (Nat.lt_succ_diag_r _)).
Qed.

Lemma reconcile_Ok_inv D P M P' :
  wf D = true -> typeof_object D = true ->
  reconcile D P = Ok (M, P') ->
  M = overlay D P /\ backfill D [] P = Ok P'.
Proof.
  intros Hwf Hobj H. rewrite (reconcile_refines _ _ Hwf Hobj) in H.
  destruct (backfill D [] P); try discriminate.
  cbn [bind] in H. injection H as <- <-. auto.
Qed.

(* ------------------------------------------------------------------ *)
(** *** The merged configuration *)

Lemma assoc_map_values (g : string -> value -> value) k o :
  assoc k (map (fun kv => (fst kv, g (fst kv) (snd kv))) o)
  = option_map (g k) (assoc k o).
Proof.
  induction o as [|[k' v'] r IH]; simpl; auto.
  destruct (String.eqb k k') eqn:E; auto.
  apply String.eqb_eq in E. now subst.
Qed.

(** Below every key path of the defaults the merged configuration is the
    overlay of what the defaults hold there with what the accessor reads
    there in the persisted structure. *)
Lemma overlay_lookup d : forall pv p dv,
  lookup d p = Some dv ->
  lookup (overlay d pv) p = Some (overlay dv (getValueFromPath pv p)).
Proof.
  intros pv p. revert d pv. induction p as [|k p IH]; intros d pv dv H.
  - simpl in H. injection H as <-. reflexivity.
  - simpl in H. destruct d; try discriminate.
    destruct (assoc k props) as [c|] eqn:E; [|discriminate].
    cbn [overlay lookup].
    rewrite (assoc_map_values (fun k v => overlay v (getValueFromPath pv [k]))).
    rewrite E. cbn [option_map]. rewrite (IH _ _ _ H).
    now rewrite <- (get_app pv [k] p).
Qed.

Lemma overlay_leaf d pv :
  walk_leaf d = true -> overlay d pv = if is_undefined pv then d else pv.
Proof. destruct d; try discriminate; reflexivity. Qed.

(* ------------------------------------------------------------------ *)
(** *** The backfilled persisted structure *)

Lemma backfill_fields_skip r path : forall pr pr' k q,
  backfill_fields r path pr = Ok pr' -> ~ In k (map fst r) ->
  getValueFromPath pr' (path ++ k :: q) = getValueFromPath pr (path ++ k :: q).
Proof.
  induction r as [|[k0 c0] r IH]; intros pr pr' k q H Hk; simpl in H.
  - now injection H as <-.
  - apply bind_Ok_inv in H. destruct H as (pr1 & H1 & H2).
    simpl in Hk. rewrite (IH _ _ _ _ H2) by tauto.
    apply (backfill_frame _ _ _ _ _ H1). apply diverge_siblings. tauto.
Qed.

Lemma lookup_leaf_nil t p v :
  is_object t = false -> lookup t p = Some v -> p = [] /\ v = t.
Proof.
  destruct p as [|k p]; simpl.
  - intros _ [= <-]. auto.
  - destruct t; try discriminate.
Qed.

(** After the walk, a visited leaf path holds the persisted value that was
    there, or else the default. *)
Lemma backfill_leaf thing : forall path pr pr' rest dv,
  wf thing = true ->
  backfill thing path pr = Ok pr' ->
  lookup thing rest = Some dv -> walk_leaf dv = true -> path ++ rest <> [] ->
  getValueFromPath pr' (path ++ rest)
  = if is_undefined (getValueFromPath pr (path ++ rest)) then dv
    else getValueFromPath pr (path ++ rest).
Proof.
  assert (Hleaf : forall t path pr pr' rest dv,
             is_object t = false -> walk_leaf t = true ->
             (if is_undefined (getValueFromPath pr path)
              then setValueFromPath pr path t else Ok pr) = Ok pr' ->
             lookup t rest = Some dv -> path ++ rest <> [] ->
             getValueFromPath pr' (path ++ rest)
             = if is_undefined (getValueFromPath pr (path ++ rest)) then dv
               else getValueFromPath pr (path ++ rest)).
  { intros t path pr pr' rest dv Ho Hw H Hl Hne.
    destruct (lookup_leaf_nil _ _ _ Ho Hl) as [-> ->].
    rewrite app_nil_r in *.
    destruct (is_undefined (getValueFromPath pr path)).
    - exact (set_get_same _ _ _ _ Hne H).
    - now injection H as <-. }
  induction thing as [| | b | n | s | l _ | o IH] using value_nested_ind;
    intros path pr pr' rest dv Hwf H Hl Hw Hne.
  - exact (Hleaf VUndef _ _ _ _ _ eq_refl eq_refl H Hl Hne).
  - destruct (lookup_leaf_nil VNull _ _ eq_refl Hl) as [_ ->]. discriminate.
  - exact (Hleaf (VBool b) _ _ _ _ _ eq_refl eq_refl H Hl Hne).
  - exact (Hleaf (VNum n) _ _ _ _ _ eq_refl eq_refl H Hl Hne).
  - exact (Hleaf (VStr s) _ _ _ _ _ eq_refl eq_refl H Hl Hne).
  - discriminate.
  - rewrite backfill_obj in H.
    destruct rest as [|k rest].
    { simpl in Hl. injection Hl as <-. discriminate. }
    cbn [lookup] in Hl.
    destruct (assoc k o) as [child|] eqn:Ek; [|discriminate].
    destruct (wf_obj _ Hwf) as [Hnd Hwfc]. clear Hwf Hne.
    revert pr H Ek. induction IH as [|[k0 c0] r Hc0 _ IHr]; intros pr H Ek.
    + discriminate.
    + simpl in H. apply bind_Ok_inv in H. destruct H as (pr1 & H1 & H2).
      cbn [map fst] in Hnd. inversion Hnd as [|? ? Hnotin Hnd']; subst.
      cbn [assoc] in Ek. cbn [snd] in Hc0.
      destruct (String.eqb k k0) eqn:E.
      * apply String.eqb_eq in E. subst k0. injection Ek as ->.
        rewrite (backfill_fields_skip _ _ _ _ _ _ H2 Hnotin).
        replace (path ++ k :: rest) with ((path ++ [k]) ++ rest)
          by (rewrite <- app_assoc; reflexivity).
        apply (Hc0 _ _ _ _ _ (Hwfc _ (or_introl eq_refl)) H1 Hl Hw).
        intros Habs. apply app_eq_nil in Habs. destruct Habs as [Habs _].
        now apply app_eq_nil in Habs.
      * apply String.eqb_neq in E.
        rewrite (IHr Hnd' (fun kv Hin => Hwfc kv (or_intror Hin)) pr1 H2 Ek).
        assert (Hfr : getValueFromPath pr1 (path ++ k :: rest)
                      = getValueFromPath pr (path ++ k :: rest)).
        { apply (backfill_frame _ _ _ _ _ H1). apply diverge_siblings. congruence. }
        now rewrite Hfr.
Qed.

(* ------------------------------------------------------------------ *)
(** *** Outcomes of the accessor and of the walk *)

Lemma write_prop_outcome thing k v :
  write_prop thing k v <> OutOfFuel /\ write_prop thing k v <> Throw ArraysNotSupported.
Proof.
  destruct thing; simpl; try (split; discriminate).
  destruct (index_of_key k); [destruct (Nat.ltb _ _)|]; split; discriminate.
Qed.

(** The set operation neither runs out of fuel nor reports an array. *)
Lemma set_outcome p : forall thing v,
  setValueFromPath thing p v <> OutOfFuel
  /\ setValueFromPath thing p v <> Throw ArraysNotSupported.
Proof.
  induction p as [|k p IH]; intros thing v; [split; discriminate|].
  destruct p as [|k2 r].
  - rewrite set_one. apply write_prop_outcome.
  - rewrite set_cons2.
    assert (H1 : forall t, (child <- setValueFromPath (read_prop t k) (k2 :: r) v ;;
                            write_prop t k child) <> OutOfFuel
                           /\ (child <- setValueFromPath (read_prop t k) (k2 :: r) v ;;
                               write_prop t k child) <> Throw ArraysNotSupported).
    { intros t. destruct (IH (read_prop t k) v) as [Ha Hb].
      destruct (setValueFromPath (read_prop t k) (k2 :: r) v) as [c|e| |];
        cbn [bind]; try (split; congruence).
      apply write_prop_outcome. }
    destruct (negb (truthy (read_prop thing k))); cbn [bind]; [|apply H1].
    destruct (write_prop_outcome thing k (VObj [])) as [Ha Hb].
    destruct (write_prop thing k (VObj [])) as [t1|e| |]; cbn [bind];
      try (split; congruence).
    apply H1.
Qed.

Lemma set_obj_obj p : forall o v t',
  setValueFromPath (VObj o) p v = Ok t' -> is_object t' = true.
Proof.
  destruct p as [|k [|k2 r]]; intros o v t' H.
  - now injection H as <-.
  - now injection H as <-.
  - rewrite set_cons2 in H.
    destruct (negb (truthy (read_prop (VObj o) k))); cbn [write_prop bind] in H.
    + destruct (setValueFromPath _ (k2 :: r) v); try discriminate.
      now injection H as <-.
    + destruct (setValueFromPath _ (k2 :: r) v); try discriminate.
      now injection H as <-.
Qed.

(** The walk, as [backfill] describes it, does not run out of fuel. *)
Lemma backfill_not_OutOfFuel thing : forall path pr,
  backfill thing path pr <> OutOfFuel.
Proof.
  assert (Hleaf : forall (t : value) path pr,
             (if is_undefined (getValueFromPath pr path)
              then setValueFromPath pr path t else Ok pr) <> OutOfFuel).
  { intros t path pr. destruct (is_undefined _); [apply set_outcome|discriminate]. }
  induction thing as [| | b | n | s | l _ | o IH] using value_nested_ind;
    intros path pr; try apply Hleaf; try discriminate.
  rewrite backfill_obj. revert pr.
  induction IH as [|kv r Hkv _ IHr]; intros pr; simpl; [discriminate|].
  specialize (Hkv (path ++ [fst kv]) pr).
  destruct (backfill (snd kv) (path ++ [fst kv]) pr); cbn [bind];
    solve [apply IHr | congruence].
Qed.

(** A successful walk met no array. *)
Lemma backfill_Ok_array_free thing : forall path pr pr',
  backfill thing path pr = Ok pr' -> array_free thing = true.
Proof.
  induction thing as [| | b | n | s | l _ | o IH] using value_nested_ind;
    intros path pr pr' H; try reflexivity; try discriminate.
  rewrite backfill_obj in H. cbn [array_free]. revert pr H.
  induction IH as [|kv r Hkv _ IHr]; intros pr H; simpl in *; auto.
  apply bind_Ok_inv in H. destruct H as (pr1 & H1 & H2).
  rewrite (Hkv _ _ _ H1). simpl. eauto.
Qed.

(** Without an array in the defaults the walk does not report one. *)
Lemma backfill_array_free thing : forall path pr,
  array_free thing = true -> backfill thing path pr <> Throw ArraysNotSupported.
Proof.
  assert (Hleaf : forall (t : value) path pr,
             (if is_undefined (getValueFromPath pr path)
              then setValueFromPath pr path t else Ok pr)
             <> Throw ArraysNotSupported).
  { intros t path pr. destruct (is_undefined _); [apply set_outcome|discriminate]. }
  induction thing as [| | b | n | s | l _ | o IH] using value_nested_ind;
    intros path pr Haf; try apply Hleaf; try discriminate.
  rewrite backfill_obj. cbn [array_free] in Haf. revert pr.
  induction IH as [|kv r Hkv _ IHr]; intros pr; simpl in *; [discriminate|].
  apply andb_true_iff in Haf. destruct Haf as [Ha Hr].
  specialize (Hkv (path ++ [fst kv]) pr Ha).
  destruct (backfill (snd kv) (path ++ [fst kv]) pr); cbn [bind];
    solve [now apply IHr | congruence].
Qed.

Lemma NoDup_assoc k c o : NoDup (map fst o) -> In (k, c) o -> assoc k o = Some c.
Proof.
  induction o as [|[k0 c0] r IH]; simpl; [tauto|].
  intros Hnd [Heq|Hin].
  - injection Heq as -> ->. now rewrite String.eqb_refl.
  - inversion Hnd as [|? ? Hnotin Hnd']; subst.
    destruct (String.eqb k k0) eqn:E.
    + apply String.eqb_eq in E. subst. exfalso. apply Hnotin.
      apply (in_map fst r (k0, c) Hin).
    + auto.
Qed.

(** When the persisted structure already has a value at every visited
    leaf path, the walk leaves it as it is. *)
Lemma backfill_settled thing : forall path pr,
  wf thing = true -> array_free thing = true ->
  (forall rest dv, lookup thing rest = Some dv -> walk_leaf dv = true ->
                   is_undefined (getValueFromPath pr (path ++ rest)) = false) ->
  backfill thing path pr = Ok pr.
Proof.
  assert (Hleaf : forall (t : value) path pr,
             walk_leaf t = true ->
             (forall rest dv, lookup t rest = Some dv -> walk_leaf dv = true ->
                   is_undefined (getValueFromPath pr (path ++ rest)) = false) ->
             (if is_undefined (getValueFromPath pr path)
              then setValueFromPath pr path t else Ok pr) = Ok pr).
  { intros t path pr Hw H. specialize (H [] t eq_refl Hw).
    rewrite app_nil_r in H. now rewrite H. }
  induction thing as [| | b | n | s | l _ | o IH] using value_nested_ind;
    intros path pr Hwf Haf Hall;
    try (apply Hleaf; [reflexivity|assumption]);
    try reflexivity; try discriminate.
  rewrite backfill_obj.
  destruct (wf_obj _ Hwf) as [Hnd Hwfc]. cbn [array_free] in Haf.
  assert (Hfields : forall k c, In (k, c) o -> forall rest dv,
             lookup c rest = Some dv -> walk_leaf dv = true ->
             is_undefined (getValueFromPath pr ((path ++ [k]) ++ rest)) = false).
  { intros k c Hin rest dv Hl Hw. rewrite <- app_assoc. apply (Hall (k :: rest) dv); auto.
    cbn [lookup]. now rewrite (NoDup_assoc _ _ _ Hnd Hin). }
  clear Hall Hwf Hnd.
  induction IH as [|[k0 c0] r Hc0 _ IHr]; simpl in *; auto.
  apply andb_true_iff in Haf. destruct Haf as [Ha Hr].
  rewrite Hc0.
  - cbn [bind]. apply IHr; auto. intros k c Hin. apply Hfields. now right.
  - apply (Hwfc (k0, c0)). now left.
  - exact Ha.
  - apply (Hfields k0 c0). now left.
Qed.

(* ------------------------------------------------------------------ *)
(** *** When the walk succeeds *)

Lemma path_trichotomy p : forall q,
  diverge p q = true \/ (exists r, q = p ++ r) \/ (exists k r, p = q ++ k :: r).
Proof.
  induction p as [|k p IH]; intros q.
  - right. left. now exists q.
  - destruct q as [|k' q].
    + right. right. now exists k, p.
    + simpl. destruct (String.eqb k k') eqn:E.
      * apply String.eqb_eq in E. subst k'.
        destruct (IH q) as [H|[[r ->]|(k1 & r & ->)]]; auto.
        -- right. left. now exists r.
        -- right. right. now exists k1, r.
      * now left.
Qed.

Lemma chain_prefix_object p v : forall q k r,
  p = q ++ k :: r -> is_object (getValueFromPath (chain p v) q) = true.
Proof.
  induction p as [|k0 p IH]; intros q k r H.
  - destruct q; discriminate.
  - destruct q as [|k1 q]; [reflexivity|].
    injection H as <- H. cbn [chain]. rewrite get_cons by reflexivity.
    cbn [read_prop assoc]. rewrite String.eqb_refl. cbn [opt_value].
    now apply (IH q k r).
Qed.

(** A write through passable values succeeds and leaves mappings all
    along the path. *)
Lemma set_passable p : forall thing v,
  p <> [] -> is_object thing = true ->
  (forall q k r, p = q ++ k :: r -> passable (getValueFromPath thing q) = true) ->
  exists t', setValueFromPath thing p v = Ok t'
             /\ forall q k r, p = q ++ k :: r ->
                              is_object (getValueFromPath t' q) = true.
Proof.
  induction p as [|k p IH]; intros thing v Hne Hobj Hpass; [congruence|].
  destruct thing as [| | | | | |o]; try discriminate. clear Hne Hobj.
  destruct p as [|k2 r].
  - exists (VObj (assoc_set k v o)). split; [reflexivity|].
    intros q k' r' H. destruct q as [|k1 q]; [reflexivity|].
    injection H as _ H. destruct q; discriminate.
  - pose proof (Hpass [k] k2 r eq_refl) as Hk.
    rewrite get_cons in Hk by reflexivity. cbn [getValueFromPath] in Hk.
    destruct (truthy (read_prop (VObj o) k)) eqn:Et.
    + unfold passable in Hk. rewrite Et in Hk. cbn [negb] in Hk.
      rewrite orb_false_r in Hk.
      destruct (IH (read_prop (VObj o) k) v) as (c' & Hc' & Hpre);
        [discriminate|assumption| |].
      { intros q k' r' H. specialize (Hpass (k :: q) k' r').
        rewrite get_cons in Hpass by reflexivity. apply Hpass. now rewrite H. }
      exists (VObj (assoc_set k c' o)). split.
      * rewrite set_truthy_step by assumption. now rewrite Hc'.
      * intros q k' r' H. destruct q as [|k1 q]; [reflexivity|].
        injection H as <- H. rewrite get_cons by reflexivity.
        cbn [read_prop]. rewrite assoc_set_same. cbn [opt_value].
        now apply (Hpre q k' r').
    + exists (VObj (assoc_set k (chain (k2 :: r) v) o)). split.
      * now apply set_falsy_step.
      * intros q k' r' H. destruct q as [|k1 q]; [reflexivity|].
        injection H as <- H. rewrite get_cons by reflexivity.
        cbn [read_prop]. rewrite assoc_set_same. cbn [opt_value].
        now apply (chain_prefix_object _ v q k' r').
Qed.

Lemma lookup_prefix t q k r v :
  lookup t (q ++ k :: r) = Some v -> exists o, lookup t q = Some (VObj o).
Proof.
  rewrite lookup_app. destruct (lookup t q) as [c|]; [|discriminate].
  simpl. destruct c; try discriminate. eauto.
Qed.

(** Writing a default leaf keeps the persisted structure in shape. *)
Lemma set_shape D pr p dv :
  shape_ok D pr -> lookup D p = Some dv -> is_object dv = false -> p <> [] ->
  exists pr', setValueFromPath pr p dv = Ok pr' /\ shape_ok D pr'.
Proof.
  intros [Hobj Hsh] Hl Hdv Hne.
  destruct (set_passable p pr dv Hne Hobj) as (pr' & Hset & Hpre).
  { intros q k r ->. destruct (lookup_prefix _ _ _ _ _ Hl) as [o Ho]. eauto. }
  exists pr'. split; [assumption|]. split.
  - destruct pr; try discriminate. eapply set_obj_obj; eauto.
  - intros q o Hq.
    destruct (path_trichotomy p q) as [Hd|[[r ->]|(k & r & ->)]].
    + rewrite (set_get_diverge _ _ _ _ _ Hset Hd). eauto.
    + rewrite lookup_app, Hl in Hq.
      destruct (lookup_leaf_nil _ _ _ Hdv Hq) as [_ <-]. discriminate.
    + unfold passable. now rewrite (Hpre q k r eq_refl).
Qed.

(** In a persisted structure of the right shape the walk either completes
    or stops at an array of the defaults. *)
Lemma backfill_total D thing : forall path pr,
  wf thing = true -> lookup D path = Some thing -> shape_ok D pr ->
  (path = [] -> typeof_object thing = true) ->
  match backfill thing path pr with
  | Ok pr' => array_free thing = true /\ shape_ok D pr'
  | Throw ArraysNotSupported => array_free thing = false
  | _ => False
  end.
Proof.
  assert (Hleaf : forall t path pr,
             is_object t = false -> walk_leaf t = true -> array_free t = true ->
             lookup D path = Some t -> shape_ok D pr ->
             (path = [] -> typeof_object t = true) ->
             match (if is_undefined (getValueFromPath pr path)
                    then setValueFromPath pr path t else Ok pr) with
             | Ok pr' => array_free t = true /\ shape_ok D pr'
             | Throw ArraysNotSupported => array_free t = false
             | _ => False
             end).
  { intros t path pr Ho Hw Ha Hl Hsh Hroot.
    destruct (is_undefined (getValueFromPath pr path)); [|auto].
    destruct (set_shape D pr path t Hsh Hl Ho) as (pr' & -> & Hsh'); auto.
    intros ->. unfold walk_leaf in Hw. rewrite Hroot in Hw by reflexivity.
    discriminate. }
  induction thing as [| | b | n | s | l _ | o IH] using value_nested_ind;
    intros path pr Hwf Hl Hsh Hroot;
    try (apply Hleaf; auto; reflexivity).
  - simpl. auto.
  - reflexivity.
  - rewrite backfill_obj. destruct (wf_obj _ Hwf) as [Hnd Hwfc].
    assert (Hfields : forall k c, In (k, c) o -> lookup D (path ++ [k]) = Some c).
    { intros k c Hin. rewrite lookup_app, Hl. cbn [lookup].
      now rewrite (NoDup_assoc _ _ _ Hnd Hin). }
    clear Hl Hwf Hnd Hroot. cbn [array_free]. revert pr Hsh.
    induction IH as [|[k0 c0] r Hc0 _ IHr]; intros pr Hsh; simpl; auto.
    specialize (Hc0 (path ++ [k0]) pr (Hwfc _ (or_introl eq_refl))
                    (Hfields _ _ (or_introl eq_refl)) Hsh).
    cbn [snd] in Hc0.
    destruct (backfill c0 (path ++ [k0]) pr) as [pr1|[| | |]| |]; cbn [bind];
      try (apply Hc0; intros Habs; now apply app_eq_nil in Habs).
    + destruct Hc0 as [Ha Hsh1].
      { intros Habs. now apply app_eq_nil in Habs. }
      rewrite Ha. cbn [andb]. apply IHr; auto.
      * intros kv Hin. apply Hwfc. now right.
      * intros k c Hin. apply Hfields. now right.
    + rewrite Hc0; auto. intros Habs. now apply app_eq_nil in Habs.
Qed.

Lemma compatible_shape D P :
  is_object P = true -> compatible D P = true -> shape_ok D P.
Proof.
  intros Hobj Hc. split; [assumption|]. clear Hobj.
  intros q. revert D P Hc. induction q as [|k q IH]; intros D P Hc o Hq.
  - simpl in Hq. injection Hq as ->. simpl in Hc. unfold passable.
    destruct P; simpl in *; auto.
  - simpl in Hq. destruct D as [| | | | | |od]; try discriminate.
    destruct (assoc k od) as [c|] eqn:Ek; [|discriminate].
    cbn [compatible] in Hc.
    destruct (truthy P) eqn:Et; [|now rewrite get_falsy].
    rewrite get_cons by assumption.
    destruct P as [| | | | | |po]; try (simpl in Hc, Et; congruence).
    rewrite forallb_forall in Hc. specialize (Hc (k, c) (assoc_In _ _ _ Ek)).
    cbn [fst snd] in Hc. cbn [read_prop]. eauto.
Qed.

(* ================================================================== *)
(** ** Reconciliation: merged values, backfilled values, key paths *)

Lemma is_object_typeof v : is_object v = true -> typeof_object v = true.
Proof. destruct v; auto. Qed.

Lemma leaf_path_nonempty D p dv :
  is_object D = true -> lookup D p = Some dv -> is_object dv = false -> p <> [].
Proof. intros Ho Hl Hd ->. simpl in Hl. injection Hl as <-. congruence. Qed.

(** At a leaf the walk visits, the merged configuration and the persisted
    structure both end up with the persisted value when the accessor finds
    one, and with the default otherwise. *)
Lemma reconcile_leaf D P M P' p dv :
  wf D = true -> is_object D = true ->
  reconcile D P = Ok (M, P') ->
  lookup D p = Some dv -> walk_leaf dv = true ->
  lookup M p = Some (if is_undefined (getValueFromPath P p) then dv
                     else getValueFromPath P p)
  /\ getValueFromPath P' p = (if is_undefined (getValueFromPath P p) then dv
                              else getValueFromPath P p).
Proof.
  intros Hwf Hobj H Hl Hw.
  destruct (reconcile_Ok_inv _ _ _ _ Hwf (is_object_typeof _ Hobj) H) as [-> Hb].
  split.
  - rewrite (overlay_lookup _ _ _ _ Hl). now rewrite overlay_leaf.
  - apply (backfill_leaf D [] P P' p dv Hwf Hb Hl Hw).
    apply (leaf_path_nonempty D p dv Hobj Hl).
    destruct dv; auto; discriminate.
Qed.

(** Reconciliation returns: it never runs out of fuel, and on a persisted
    structure compatible with array-free defaults it succeeds. *)
Lemma reconcile_total D P :
  wf D = true -> is_object D = true ->
  reconcile D P <> OutOfFuel
  /\ (array_free D = true -> is_object P = true -> compatible D P = true ->
      exists M P', reconcile D P = Ok (M, P')).
Proof.
  intros Hwf Hobj. rewrite (reconcile_refines _ _ Hwf (is_object_typeof _ Hobj)).
  split.
  - pose proof (backfill_not_OutOfFuel D [] P).
    destruct (backfill D [] P); cbn [bind]; congruence.
  - intros Haf HP Hc.
    pose proof (backfill_total D D [] P Hwf eq_refl (compatible_shape _ _ HP Hc)
                  (fun _ => is_object_typeof _ Hobj)) as Ht.
    destruct (backfill D [] P) as [P'|[| | |]| |]; try contradiction.
    + cbn [bind]. eauto.
    + congruence.
Qed.

(** C1, failing input. A default of [null] is never replaced: the walk
    takes [null] for a nested mapping ([typeof null] is ['object']) and
    finds no key in it, so the persisted [5] does not reach the merged
    configuration. *)
Theorem null_default_ignores_persisted :
  let D := VObj [("proxy", VNull)] in
  let P := VObj [("proxy", VNum 5)] in
  leaf_at D ["proxy"] VNull /\ leaf_at P ["proxy"] (VNum 5)
  /\ array_free D = true /\ array_free P = true
  /\ reconcile D P = Ok (VObj [("proxy", VNull)], P)
  /\ lookup (VObj [("proxy", VNull)]) ["proxy"] <> lookup P ["proxy"].
Proof. repeat split; discriminate. Qed.

(** For the leaves the walk does visit (every default that is not [null]
    and not a mapping) the persisted value wins, also when it is [false],
    [0], the empty string or [null]. *)
Lemma persisted_value_wins D P M P' p dv pv :
  wf D = true -> is_object D = true ->
  reconcile D P = Ok (M, P') ->
  leaf_at D p dv -> dv <> VNull ->
  lookup P p = Some pv -> pv <> VUndef ->
  lookup M p = Some pv.
Proof.
  intros Hwf Hobj H [Hl Hs] Hnn HP Hpv.
  assert (Hw : walk_leaf dv = true) by (destruct dv; try discriminate; try reflexivity; congruence).
  destruct (reconcile_leaf _ _ _ _ _ _ Hwf Hobj H Hl Hw) as [HM _].
  rewrite (lookup_get _ _ _ HP) in HM.
  destruct pv; try congruence; exact HM.
Qed.

(** C2, failing input. A default of [null] missing from the persisted
    structure is not written into it. *)
Theorem null_default_not_backfilled :
  let D := VObj [("proxy", VNull); ("port", VNum 1234)] in
  let P := VObj [] in
  leaf_at D ["proxy"] VNull /\ lookup P ["proxy"] = None
  /\ exists M P', reconcile D P = Ok (M, P')
                  /\ lookup P' ["port"] = Some (VNum 1234)
                  /\ lookup P' ["proxy"] = None.
Proof.
  repeat split. eexists. eexists. repeat split.
Qed.

(** For the leaves the walk does visit, a default the accessor does not
    find in the persisted structure is kept in the merged configuration
    and written into the persisted structure. *)
Lemma missing_default_backfilled D P M P' p dv :
  wf D = true -> is_object D = true ->
  reconcile D P = Ok (M, P') ->
  leaf_at D p dv -> dv <> VNull ->
  getValueFromPath P p = VUndef ->
  lookup M p = Some dv /\ getValueFromPath P' p = dv.
Proof.
  intros Hwf Hobj H [Hl Hs] Hnn HP.
  assert (Hw : walk_leaf dv = true) by (destruct dv; try discriminate; try reflexivity; congruence).
  destruct (reconcile_leaf _ _ _ _ _ _ Hwf Hobj H Hl Hw) as [HM HP'].
  rewrite HP in HM, HP'. auto.
Qed.

(* ------------------------------------------------------------------ *)
(** *** Arrays in the persisted structure *)

Lemma reconcile_array_free D P :
  wf D = true -> is_object D = true -> array_free D = true ->
  reconcile D P <> Throw ArraysNotSupported.
Proof.
  intros Hwf Hobj Haf. rewrite (reconcile_refines _ _ Hwf (is_object_typeof _ Hobj)).
  pose proof (backfill_array_free D [] P Haf).
  destruct (backfill D [] P); cbn [bind]; congruence.
Qed.

(** C4, as stated, fails: an array in the persisted structure is accepted
    and becomes the merged value. *)
Lemma persisted_array_accepted :
  let D := VObj [("tags", VStr "none")] in
  let P := VObj [("tags", VArr [VStr "a"; VStr "b"])] in
  array_free D = true /\ array_free P = false
  /\ reconcile D P = Ok (VObj [("tags", VArr [VStr "a"; VStr "b"])], P).
Proof. repeat split. Qed.

(** C4, amended. Only the default structure is checked for arrays: when it
    holds none, reconciliation never fails with the unsupported-shape
    error, whatever the persisted structure holds, and an array persisted
    at a leaf path of the defaults (a default other than [null]) is taken
    over as the merged value. *)
Theorem persisted_arrays_unchecked D P
  (Hwf : wf D = true) (Hobj : is_object D = true) (Haf : array_free D = true) :
  reconcile D P <> Throw ArraysNotSupported
  /\ forall M P' p dv l,
       reconcile D P = Ok (M, P') ->
       leaf_at D p dv -> dv <> VNull ->
       lookup P p = Some (VArr l) ->
       lookup M p = Some (VArr l).
Proof.
  split; [now apply reconcile_array_free|].
  intros M P' p dv l H Hleaf Hnn HP.
  apply (persisted_value_wins D P M P' p dv (VArr l)); auto. discriminate.
Qed.

Lemma persisted_arrays_unchecked_witness :
  let D := VObj [("tags", VStr "none"); ("port", VNum 1)] in
  let P := VObj [("tags", VArr [VStr "a"])] in
  reconcile D P <> Throw ArraysNotSupported
  /\ forall M P', reconcile D P = Ok (M, P') ->
                  lookup M ["tags"] = Some (VArr [VStr "a"]).
Proof.
  intros D P.
  destruct (persisted_arrays_unchecked D P eq_refl eq_refl eq_refl) as [H1 H2].
  split; [exact H1|].
  intros M P' H.
  apply (H2 M P' ["tags"] (VStr "none") [VStr "a"] H).
  - split; reflexivity.
  - discriminate.
  - reflexivity.
Defined.

(* ------------------------------------------------------------------ *)
(** *** Key paths of the merged configuration *)








(* ================================================================== *)
(** ** Running the reconciliation twice *)


(** The overlay depends on the persisted structure only through what the
    accessor finds at the visited leaves. *)
Lemma overlay_ext d : forall pv1 pv2,
  wf d = true ->
  (forall p dv, lookup d p = Some dv -> walk_leaf dv = true ->
                (if is_undefined (getValueFromPath pv1 p) then dv
                 else getValueFromPath pv1 p)
                = (if is_undefined (getValueFromPath pv2 p) then dv
                   else getValueFromPath pv2 p)) ->
  overlay d pv1 = overlay d pv2.
Proof.
  induction d as [| | b | n | s | l _ | o IH] using value_nested_ind;
    intros pv1 pv2 Hwf H;
    try exact (H [] _ eq_refl eq_refl); try reflexivity.
  cbn [overlay]. f_equal.
  destruct (wf_obj _ Hwf) as [Hnd Hwfc].
  assert (Hfields : forall k c, In (k, c) o -> forall p dv,
             lookup c p = Some dv -> walk_leaf dv = true ->
             (if is_undefined (getValueFromPath (getValueFromPath pv1 [k]) p) then dv
              else getValueFromPath (getValueFromPath pv1 [k]) p)
             = (if is_undefined (getValueFromPath (getValueFromPath pv2 [k]) p) then dv
                else getValueFromPath (getValueFromPath pv2 [k]) p)).
  { intros k c Hin p dv Hl Hw. rewrite <- !(get_app _ [k] p).
    apply (H (k :: p) dv); auto. cbn [lookup].
    now rewrite (NoDup_assoc _ _ _ Hnd Hin). }
  clear H Hwf Hnd.
  induction IH as [|[k0 c0] r Hc0 _ IHr]; simpl; auto.
  f_equal.
  - f_equal. apply Hc0.
    + apply (Hwfc (k0, c0)). now left.
    + apply (Hfields k0 c0). now left.
  - apply IHr.
    + intros kv Hin. apply Hwfc. now right.
    + intros k c Hin. apply Hfields. now right.
Qed.


Lemma set_keeps_object p thing v t' :
  is_object thing = true -> setValueFromPath thing p v = Ok t' ->
  is_object t' = true.
Proof.
  destruct thing; try discriminate. intros _. apply set_obj_obj.
Qed.


Lemma adopt_object v x : is_object x = true -> adopt v x = x.
Proof. destruct v; auto. destruct x; try discriminate. reflexivity. Qed.


(* ================================================================== *)
(** ** [init]: what reaches the storage *)

(** [init] on a fresh instance, step by step. *)
Lemma init_fresh J v D w :
  init J v (constructor v D) w
  = match JSON_parse J (read_text w) with
    | None => (ensure_file w, Throw SyntaxError)
    | Some parsed =>
        match reconcile (adopt v D) (adopt v parsed) with
        | Ok (config', props') =>
            (writeFileSync (JSON_stringify J props') (ensure_file w),
             Ok {| initialized := true; config := config' |})
        | Throw e => (ensure_file w, Throw e)
        | OutOfFuel => (ensure_file w, OutOfFuel)
        | Untracked => (ensure_file w, Untracked)
        end
    end.
Proof.
  unfold init, constructor, ensure_file, read_text, existsSync, readFileSync.
  cbn [initialized config].
  destruct w as [[s|] log]; cbn [disk negb writeFileSync]; reflexivity.
Qed.

Lemma ensure_file_spec w :
  (forall s, disk w = Some s -> ensure_file w = w)
  /\ (disk w = None ->
      disk (ensure_file w) = Some "" /\ written (ensure_file w) = written w ++ [""]).
Proof.
  unfold ensure_file, existsSync. destruct w as [[s|] log]; simpl;
    split; intros; try discriminate; auto.
Qed.









(** C9, failing input. The file already holds every default: the walk
    leaves the persisted structure as read, and [init] writes the file all
    the same. *)
Theorem init_rewrites_unchanged_file :
  let P := VObj [("port", VNum 9999)] in
  let D := VObj [("port", VNum 1234)] in
  let J := table_codec [P] in
  let w := {| disk := Some (print_json P); written := [] |} in
  reconcile D P = Ok (P, P)
  /\ init J Async (constructor Async D) w
     = ({| disk := Some (print_json P); written := [print_json P] |},
        Ok {| initialized := true; config := P |})
  /\ init J Sync (constructor Sync D) w
     = ({| disk := Some (print_json P); written := [print_json P] |},
        Ok {| initialized := true; config := P |}).
Proof. repeat split. Qed.

(* ================================================================== *)
(** ** The heap model: cells, layouts, frames *)

Lemma put_length h : forall l c, List.length (Heap.put h l c) = List.length h.
Proof. induction h as [|x r IH]; intros [|l] c; simpl; auto. Qed.

Lemma put_same h : forall l c,
  l < List.length h -> nth_error (Heap.put h l c) l = Some c.
Proof.
  induction h as [|x r IH]; intros [|l] c; simpl; intros H; try lia; auto.
  apply IH. lia.
Qed.

Lemma put_other h : forall l l' c,
  l' <> l -> nth_error (Heap.put h l c) l' = nth_error h l'.
Proof.
  induction h as [|x r IH]; intros [|l] [|l'] c H; simpl; auto; try congruence.
Qed.

Lemma alloc_old (h : Heap.heap) c l :
  l < List.length h -> nth_error (h ++ [c]) l = nth_error h l.
Proof. intros H. now apply nth_error_app1. Qed.

Lemma alloc_new (h : Heap.heap) c : nth_error (h ++ [c]) (List.length h) = Some c.
Proof. rewrite nth_error_app2 by lia. now rewrite Nat.sub_diag. Qed.

Lemma nth_error_lt (h : Heap.heap) l c : nth_error h l = Some c -> l < List.length h.
Proof. intros H. apply nth_error_Some. congruence. Qed.

Lemma field_set_same k v fs : Heap.field k (Heap.field_set k v fs) = Some v.
Proof.
  induction fs as [|[k' v'] r IH]; simpl.
  - now rewrite String.eqb_refl.
  - destruct (String.eqb k k') eqn:E; simpl; rewrite E; auto.
Qed.

Lemma field_set_other k k' v fs :
  k' <> k -> Heap.field k' (Heap.field_set k v fs) = Heap.field k' fs.
Proof.
  intros Hne. induction fs as [|[k0 v0] r IH]; simpl.
  - destruct (String.eqb k' k) eqn:E; auto.
    apply String.eqb_eq in E. contradiction.
  - destruct (String.eqb k k0) eqn:E; simpl.
    + apply String.eqb_eq in E. subst k0.
      destruct (String.eqb k' k) eqn:E'; auto.
      apply String.eqb_eq in E'. contradiction.
    + now rewrite IH.
Qed.

(** The layout of a mapping, cell by cell. *)
Lemma layout_obj h l o :
  Heap.layout h (Heap.RRef l) (VObj o)
  = match nth_error h l with
    | Some c =>
        if Heap.is_array c then None
        else match Heap.layout_fields h (Heap.fields c) o with
             | Some F => Some (l :: F)
             | None => None
             end
    | None => None
    end.
Proof.
  cbn [Heap.layout]. destruct (nth_error h l) as [c|]; auto.
  destruct (Heap.is_array c); auto.
  match goal with
  | |- match ?f _ _ with _ => _ end = _ =>
      assert (Heq : forall o fs, f fs o = Heap.layout_fields h fs o)
  end.
  { clear o. induction o as [|[k t] o IH]; intros [|[k' r'] fs]; cbn; auto.
    destruct (String.eqb k k'); auto.
    destruct (Heap.layout h r' t); auto. now rewrite IH. }
  now rewrite Heq.
Qed.

Lemma layout_obj_inv h r o F :
  Heap.layout h r (VObj o) = Some F ->
  exists l c Ff,
    r = Heap.RRef l /\ nth_error h l = Some c /\ Heap.is_array c = false
    /\ Heap.layout_fields h (Heap.fields c) o = Some Ff /\ F = l :: Ff.
Proof.
  destruct r as [| | | | |l]; try discriminate.
  rewrite layout_obj. destruct (nth_error h l) as [c|] eqn:Ec; [|discriminate].
  destruct (Heap.is_array c) eqn:Ea; [discriminate|].
  destruct (Heap.layout_fields h (Heap.fields c) o) as [Ff|] eqn:Ef; [|discriminate].
  intros [= <-]. exists l, c, Ff. repeat split; auto.
Qed.

(** A value that is not a mapping sits in the reference itself. *)
Lemma layout_scalar h r t F :
  is_object t = false -> Heap.layout h r t = Some F ->
  F = [] /\ r = Heap.embed t /\ isArray t = false.
Proof.
  destruct t; try discriminate; intros _; destruct r; try discriminate; cbn.
  - now intros [= <-].
  - now intros [= <-].
  - destruct (Bool.eqb b b0) eqn:E; [|discriminate].
    apply Bool.eqb_prop in E. subst. now intros [= <-].
  - destruct (Z.eqb n n0) eqn:E; [|discriminate].
    apply Z.eqb_eq in E. subst. now intros [= <-].
  - destruct (String.eqb s s0) eqn:E; [|discriminate].
    apply String.eqb_eq in E. subst. now intros [= <-].
Qed.

Lemma layout_embed h t :
  is_object t = false -> isArray t = false ->
  Heap.layout h (Heap.embed t) t = Some [].
Proof.
  destruct t; try discriminate; intros _ _; cbn; auto.
  - now rewrite Bool.eqb_reflx.
  - now rewrite Z.eqb_refl.
  - now rewrite String.eqb_refl.
Qed.

(** A layout only depends on the cells it lists. *)
Lemma layout_frame h h' t : forall r F,
  Heap.layout h r t = Some F ->
  (forall l, In l F -> nth_error h' l = nth_error h l) ->
  Heap.layout h' r t = Some F.
Proof.
  induction t as [| | b | n | s | l _ | o IH] using value_nested_ind;
    intros r F H Hfr; try exact H.
  destruct (layout_obj_inv _ _ _ _ H) as (l & c & Ff & -> & Hc & Ha & Hf & ->).
  rewrite layout_obj, (Hfr l (or_introl eq_refl)), Hc, Ha.
  assert (Hfr' : forall l', In l' Ff -> nth_error h' l' = nth_error h l').
  { intros l' Hin. apply Hfr. now right. }
  clear Hfr H Hc Ha.
  enough (Heap.layout_fields h' (Heap.fields c) o = Some Ff) as -> by reflexivity.
  revert Ff Hf Hfr'. generalize (Heap.fields c).
  induction IH as [|[k t] o Ht _ IHo]; intros [|[k' r'] fs] Ff Hf Hfr';
    cbn in *; try discriminate; auto.
  destruct (String.eqb k k'); [|discriminate].
  destruct (Heap.layout h r' t) as [a|] eqn:Ea; [|discriminate].
  destruct (Heap.layout_fields h fs o) as [b|] eqn:Eb; [|discriminate].
  injection Hf as <-.
  rewrite (Ht r' a Ea), (IHo fs b Eb); auto.
  - intros l' Hin. apply Hfr'. apply in_or_app. now right.
  - intros l' Hin. apply Hfr'. apply in_or_app. now left.
Qed.

Lemma NoDup_app_l {A} (a b : list A) : NoDup (a ++ b) -> NoDup a.
Proof.
  induction a as [|x a IH]; simpl; intros H; constructor; inversion H; subst.
  - intros Hin. apply H2. apply in_or_app. now left.
  - auto.
Qed.

Lemma NoDup_app_r {A} (a b : list A) : NoDup (a ++ b) -> NoDup b.
Proof. induction a as [|x a IH]; simpl; intros H; auto. inversion H; auto. Qed.

Lemma NoDup_app_disjoint {A} (a b : list A) x :
  NoDup (a ++ b) -> In x a -> In x b -> False.
Proof.
  induction a as [|y a IH]; simpl; intros H Ha Hb; [tauto|].
  inversion H; subst. destruct Ha as [->|Ha].
  - apply H2. apply in_or_app. now right.
  - eauto.
Qed.

(** The fields of a cell and the properties of the mapping it holds. *)
Lemma layout_fields_field h k : forall o fs Ff,
  Heap.layout_fields h fs o = Some Ff ->
  match assoc k o with
  | Some t => exists r F, Heap.field k fs = Some r /\ Heap.layout h r t = Some F
                          /\ incl F Ff /\ (NoDup Ff -> NoDup F)
  | None => Heap.field k fs = None
  end.
Proof.
  induction o as [|[k0 t0] o IH]; intros [|[k' r'] fs] Ff Hf;
    cbn in *; try discriminate; auto.
  destruct (String.eqb k0 k') eqn:E0; [|discriminate].
  apply String.eqb_eq in E0. subst k'.
  destruct (Heap.layout h r' t0) as [a|] eqn:Ea; [|discriminate].
  destruct (Heap.layout_fields h fs o) as [b|] eqn:Eb; [|discriminate].
  injection Hf as <-.
  destruct (String.eqb k k0).
  - exists r', a. repeat split; auto.
    + apply incl_appl, incl_refl.
    + apply NoDup_app_l.
  - specialize (IH fs b Eb). destruct (assoc k o) as [t|]; auto.
    destruct IH as (r & F & Hr & Hl & Hi & Hn).
    exists r, F. repeat split; auto.
    + now apply incl_appr.
    + intros H. apply Hn. eapply NoDup_app_r; eauto.
Qed.

Lemma layout_fields_keys h : forall o fs Ff,
  Heap.layout_fields h fs o = Some Ff -> map fst fs = map fst o.
Proof.
  induction o as [|[k0 t0] o IH]; intros [|[k' r'] fs] Ff Hf;
    cbn in *; try discriminate; auto.
  destruct (String.eqb k0 k') eqn:E0; [|discriminate].
  apply String.eqb_eq in E0. subst k'.
  destruct (Heap.layout h r' t0) as [a|]; [|discriminate].
  destruct (Heap.layout_fields h fs o) as [b|] eqn:Eb; [|discriminate].
  f_equal. eauto.
Qed.

(* ------------------------------------------------------------------ *)
(** *** Reading the heap agrees with reading the tree *)

Ltac scalar_layout H :=
  let Hs := fresh "Hs" in
  pose proof (fun E => layout_scalar _ _ _ _ E H) as Hs;
  specialize (Hs eq_refl); destruct Hs as (_ & -> & _).

Lemma truthy_sim h r t F :
  Heap.layout h r t = Some F -> Heap.truthy r = truthy t.
Proof.
  destruct t as [| | | | | |o].
  1-5: intros H; scalar_layout H; reflexivity.
  - discriminate.
  - intros H. destruct (layout_obj_inv _ _ _ _ H) as (l & c & Ff & -> & _). reflexivity.
Qed.

Lemma read_sim h r t F k :
  Heap.layout h r t = Some F ->
  exists F', Heap.layout h (Heap.read_prop h r k) (read_prop t k) = Some F'
             /\ incl F' F /\ (NoDup F -> NoDup F').
Proof.
  assert (Hnil : forall r' t', Heap.layout h r' t' = Some [] ->
             exists F', Heap.layout h r' t' = Some F' /\ incl F' F
                        /\ (NoDup F -> NoDup F')).
  { intros r' t' H. exists []. repeat split; auto.
    - intros x [].
    - intros _. constructor. }
  destruct t as [| | | | s | |o]; intros H.
  1-4: scalar_layout H; apply Hnil; reflexivity.
  - scalar_layout H.
    apply Hnil.
    replace (Heap.read_prop h (Heap.embed (VStr s)) k)
      with (Heap.embed (read_prop (VStr s) k)).
    + apply layout_embed; cbn;
        (destruct (index_of_key k);
         [destruct (String.get n s)|destruct (String.eqb k "length")]);
        reflexivity.
    + cbn.
      destruct (index_of_key k);
        [destruct (String.get n s)|destruct (String.eqb k "length")];
        reflexivity.
  - discriminate.
  - destruct (layout_obj_inv _ _ _ _ H) as (l & c & Ff & -> & Hc & Ha & Hf & ->).
    cbn [Heap.read_prop read_prop]. rewrite Hc.
    pose proof (layout_fields_field h k _ _ _ Hf) as Hk.
    destruct (assoc k o) as [t|].
    + destruct Hk as (r & F' & -> & Hl & Hi & Hn).
      exists F'. repeat split; auto.
      * now apply incl_tl.
      * intros Hnd. apply Hn. now inversion Hnd.
    + rewrite Hk, Ha. apply Hnil. reflexivity.
Qed.

Lemma get_sim h path : forall r t F,
  Heap.layout h r t = Some F ->
  exists F', Heap.layout h (Heap.getValueFromPath h r path) (getValueFromPath t path)
             = Some F'
             /\ incl F' F /\ (NoDup F -> NoDup F').
Proof.
  induction path as [|k path IH]; intros r t F H.
  - exists F. repeat split; auto. apply incl_refl.
  - cbn [Heap.getValueFromPath getValueFromPath].
    rewrite (truthy_sim _ _ _ _ H).
    destruct (truthy t); cbn [negb].
    + destruct (read_sim h r t F k H) as (F1 & H1 & Hi1 & Hn1).
      destruct (IH _ _ _ H1) as (F2 & H2 & Hi2 & Hn2).
      exists F2. repeat split; auto.
      eapply incl_tran; eauto.
    + exists []. repeat split; auto.
      * intros x [].
      * intros _. constructor.
Qed.

(* ------------------------------------------------------------------ *)
(** *** Writing a property of a cell *)

Lemma field_set_id k v fs : Heap.field k fs = Some v -> Heap.field_set k v fs = fs.
Proof.
  induction fs as [|[k' v'] r IH]; simpl; [discriminate|].
  destruct (String.eqb k k') eqn:E.
  - now intros [= ->].
  - intros H. now rewrite IH.
Qed.

Lemma layout_fields_frame h h' : forall o fs Ff,
  Heap.layout_fields h fs o = Some Ff ->
  (forall l, In l Ff -> nth_error h' l = nth_error h l) ->
  Heap.layout_fields h' fs o = Some Ff.
Proof.
  induction o as [|[k t] o IH]; intros [|[k' r'] fs] Ff Hf Hfr;
    cbn in *; try discriminate; auto.
  destruct (String.eqb k k'); [|discriminate].
  destruct (Heap.layout h r' t) as [a|] eqn:Ea; [|discriminate].
  destruct (Heap.layout_fields h fs o) as [b|] eqn:Eb; [|discriminate].
  injection Hf as <-.
  rewrite (layout_frame h h' t r' a Ea), (IH fs b Eb); auto.
  - intros l Hin. apply Hfr. apply in_or_app. now right.
  - intros l Hin. apply Hfr. apply in_or_app. now left.
Qed.

(** Replacing (or adding) the property [k] of a mapping: the layout of
    the other properties is kept, the layout [F'] of the new value takes
    the place of the layout [Fk] of the old one. *)
Lemma layout_fields_set h h' k r' t' F' Fk : forall o fs Ff,
  Heap.layout_fields h fs o = Some Ff -> NoDup Ff ->
  (forall rk tk, Heap.field k fs = Some rk -> assoc k o = Some tk ->
                 Heap.layout h rk tk = Some Fk) ->
  (assoc k o = None -> Fk = []) ->
  Heap.layout h' r' t' = Some F' -> NoDup F' ->
  (forall l, In l F' -> In l Fk \/ ~ In l Ff) ->
  (forall l, In l Ff -> ~ In l Fk -> nth_error h' l = nth_error h l) ->
  exists Ff',
    Heap.layout_fields h' (Heap.field_set k r' fs) (assoc_set k t' o) = Some Ff'
    /\ NoDup Ff'
    /\ (forall l, In l Ff' -> In l F' \/ In l Ff).
Proof.
  induction o as [|[k0 t0] o IH]; intros [|[k1 r1] fs] Ff Hf Hnd Hpin Habs Hl' Hnd' Hnew Hfr;
    cbn in Hf; try discriminate.
  - injection Hf as <-. exists (F' ++ []). cbn. rewrite String.eqb_refl, Hl'.
    split; [reflexivity|]. rewrite app_nil_r. split; auto.
  - destruct (String.eqb k0 k1) eqn:E0; [|discriminate].
    apply String.eqb_eq in E0. subst k1.
    destruct (Heap.layout h r1 t0) as [a|] eqn:Ea; [|discriminate].
    destruct (Heap.layout_fields h fs o) as [b|] eqn:Eb; [|discriminate].
    injection Hf as <-. cbn [Heap.field_set assoc_set Heap.field assoc] in *.
    destruct (String.eqb k k0) eqn:Ek.
    + (* the property is the first one *)
      pose proof (Hpin r1 t0 eq_refl eq_refl) as Hk. rewrite Ea in Hk.
      injection Hk as ->.
      assert (Hb : Heap.layout_fields h' fs o = Some b).
      { apply (layout_fields_frame h h' o fs b Eb).
        intros l Hin. apply Hfr.
        - apply in_or_app. now right.
        - intros Hk. eapply NoDup_app_disjoint; eauto. }
      cbn [Heap.layout_fields]. rewrite String.eqb_refl, Hl', Hb.
      exists (F' ++ b). split; [reflexivity|]. split.
      * clear - Hnd Hnd' Hnew.
        induction F' as [|y F' IHF]; simpl.
        -- now apply NoDup_app_r in Hnd.
        -- inversion Hnd'; subst. constructor.
           ++ intros Hin. apply in_app_or in Hin. destruct Hin as [Hin|Hin]; [tauto|].
              destruct (Hnew y (or_introl eq_refl)) as [Hy|Hy].
              ** eapply NoDup_app_disjoint; eauto.
              ** apply Hy. apply in_or_app. now right.
           ++ apply IHF; auto. intros l Hl. apply Hnew. now right.
      * intros l Hin. apply in_app_or in Hin. destruct Hin; [now left|right].
        apply in_or_app. now right.
    + (* the property comes later, or is new *)
      assert (Hsub : forall l, In l Fk -> In l b).
      { pose proof (layout_fields_field h k _ _ _ Eb) as Hk.
        destruct (assoc k o) as [tk|] eqn:Eko.
        - destruct Hk as (rk & F & Hrk & Hlk & Hi & _).
          rewrite (Hpin rk tk Hrk eq_refl) in Hlk. injection Hlk as <-.
          exact Hi.
        - rewrite (Habs eq_refl). intros l []. }
      destruct (IH fs b Eb) as (b' & Hb' & Hndb' & Hinb'); auto.
      * now apply NoDup_app_r in Hnd.
      * intros l Hin. destruct (Hnew l Hin) as [Hl|Hl]; [now left|right].
        intros Hb. apply Hl. apply in_or_app. now right.
      * intros l Hin Hn. apply Hfr; auto. apply in_or_app. now right.
      * assert (Ha' : Heap.layout h' r1 t0 = Some a).
        { apply (layout_frame h h' t0 r1 a Ea).
          intros l Hin. apply Hfr.
          - apply in_or_app. now left.
          - intros Hk. eapply NoDup_app_disjoint; eauto. }
        cbn [Heap.layout_fields]. rewrite String.eqb_refl, Ha', Hb'.
        exists (a ++ b'). split; [reflexivity|]. split.
        -- clear - Hnd Hndb' Hinb' Hnew Hsub.
           induction a as [|y a IHa]; simpl in *; auto.
           inversion Hnd; subst. constructor.
           ++ intros Hin. apply in_app_or in Hin. destruct Hin as [Hin|Hin].
              ** apply H1. apply in_or_app. now left.
              ** destruct (Hinb' y Hin) as [Hy|Hy].
                 --- destruct (Hnew y Hy) as [Hk|Hk].
                     +++ apply H1. apply in_or_app. right. now apply Hsub.
                     +++ apply Hk. now left.
                 --- apply H1. apply in_or_app. now right.
           ++ apply IHa; auto. intros l Hl.
              destruct (Hnew l Hl) as [Hk|Hk]; [now left|right].
              intros Hin. apply Hk. now right.
        -- intros l Hin. apply in_app_or in Hin. destruct Hin as [Hin|Hin].
           ++ right. apply in_or_app. now left.
           ++ destruct (Hinb' l Hin); [now left|right]. apply in_or_app. now right.
Qed.

(** Writing the property [k] of the cell that holds a mapping. *)
Lemma layout_cell_set h h' l c o Ff k r' t' F' Fk :
  nth_error h l = Some c -> Heap.is_array c = false ->
  Heap.layout_fields h (Heap.fields c) o = Some Ff -> NoDup (l :: Ff) ->
  (forall rk tk, Heap.field k (Heap.fields c) = Some rk -> assoc k o = Some tk ->
                 Heap.layout h rk tk = Some Fk) ->
  (assoc k o = None -> Fk = []) ->
  nth_error h' l
  = Some {| Heap.is_array := false; Heap.fields := Heap.field_set k r' (Heap.fields c) |} ->
  Heap.layout h' r' t' = Some F' -> NoDup F' ->
  (forall x, In x F' -> In x Fk \/ ~ In x (l :: Ff)) ->
  (forall x, In x Ff -> ~ In x Fk -> nth_error h' x = nth_error h x) ->
  exists Ff',
    Heap.layout h' (Heap.RRef l) (VObj (assoc_set k t' o)) = Some (l :: Ff')
    /\ NoDup (l :: Ff')
    /\ (forall x, In x Ff' -> In x F' \/ In x Ff).
Proof.
  intros Hc Ha Hf Hnd Hpin Habs Hc' Hl' Hnd' Hnew Hfr.
  inversion Hnd as [|? ? Hl Hnd0]; subst.
  assert (HFk : forall x, In x Fk -> In x Ff).
  { pose proof (layout_fields_field h k _ _ _ Hf) as Hk.
    destruct (assoc k o) as [tk|] eqn:Eko.
    - destruct Hk as (rk & F & Hrk & Hlk & Hi & _).
      rewrite (Hpin rk tk Hrk eq_refl) in Hlk. injection Hlk as <-. exact Hi.
    - rewrite (Habs eq_refl). intros x []. }
  destruct (layout_fields_set h h' k r' t' F' Fk o (Heap.fields c) Ff)
    as (Ff' & Hf' & Hndf' & Hin'); auto.
  { intros x Hx. destruct (Hnew x Hx) as [Hk|Hk]; [now left|right].
    intros Hin. apply Hk. now right. }
  exists Ff'. split; [|split; auto].
  - rewrite layout_obj, Hc'. cbn [Heap.is_array Heap.fields]. now rewrite Hf'.
  - constructor; auto. intros Hin. destruct (Hin' l Hin) as [Hx|Hx]; [|tauto].
    destruct (Hnew l Hx) as [Hk|Hk].
    + apply Hl. now apply HFk.
    + apply Hk. now left.
Qed.

(* ------------------------------------------------------------------ *)
(** *** No write of the walk replaces a reference *)

Lemma refs_kept_refl h : refs_kept h h.
Proof. intros l c k l' Hc Hf. eauto. Qed.

Lemma refs_kept_trans h1 h2 h3 : refs_kept h1 h2 -> refs_kept h2 h3 -> refs_kept h1 h3.
Proof.
  intros H12 H23 l c k l' Hc Hf.
  destruct (H12 l c k l' Hc Hf) as (c2 & Hc2 & Hf2). eauto.
Qed.

Lemma refs_kept_alloc (h : Heap.heap) c : refs_kept h (h ++ [c]).
Proof.
  intros l c0 k l' Hc Hf. exists c0. split; auto.
  rewrite alloc_old; auto. now apply nth_error_lt in Hc.
Qed.

Lemma write_keeps_refs h thing k v h' :
  Heap.write_prop h thing k v = Ok h' ->
  (forall l, Heap.read_prop h thing k <> Heap.RRef l) ->
  refs_kept h h'.
Proof.
  destruct thing as [| | | | |l0]; try discriminate. cbn [Heap.write_prop Heap.read_prop].
  destruct (nth_error h l0) as [c0|] eqn:Ec0; [|discriminate].
  intros Hw Hread l c k' l' Hc Hf.
  assert (Hput : forall b, h' = Heap.put h l0 {| Heap.is_array := b; Heap.fields :=
                               Heap.field_set k v (Heap.fields c0) |} ->
             exists c', nth_error h' l = Some c'
                        /\ Heap.field k' (Heap.fields c') = Some (Heap.RRef l')).
  { intros b ->. destruct (Nat.eq_dec l l0) as [->|Hne].
    - rewrite put_same by (now apply nth_error_lt in Ec0).
      eexists. split; [reflexivity|]. cbn [Heap.fields].
      assert (c = c0) by congruence. subst c.
      destruct (String.eqb k' k) eqn:Ek.
      + apply String.eqb_eq in Ek. subst k'. exfalso.
        apply (Hread l'). now rewrite Hf.
      + rewrite field_set_other; auto. intros ->. now rewrite String.eqb_refl in Ek.
    - rewrite put_other by assumption. eauto. }
  destruct (Heap.is_array c0).
  - destruct (Heap.field k (Heap.fields c0)); [|discriminate].
    injection Hw as <-. now apply (Hput true).
  - injection Hw as <-. now apply (Hput false).
Qed.

Lemma heap_get_undef h p : Heap.getValueFromPath h Heap.RUndef p = Heap.RUndef.
Proof. destruct p; reflexivity. Qed.

(* ------------------------------------------------------------------ *)
(** *** The set operation on the heap follows the set operation on the tree *)

Lemma heap_set_one h thing k v :
  Heap.setValueFromPath h thing [k] v = Heap.write_prop h thing k v.
Proof. reflexivity. Qed.

Lemma heap_set_cons2 h thing k k2 r v :
  Heap.setValueFromPath h thing (k :: k2 :: r) v =
  (h1 <- (if negb (Heap.truthy (Heap.read_prop h thing k))
          then let (h0, l) := Heap.alloc h {| Heap.is_array := false; Heap.fields := [] |} in
               Heap.write_prop h0 thing k (Heap.RRef l)
          else Ok h) ;;
   Heap.setValueFromPath h1 (Heap.read_prop h1 thing k) (k2 :: r) v).
Proof. reflexivity. Qed.

Lemma set_needs_object p k t x t' F h r :
  setValueFromPath t (k :: p) x = Ok t' -> Heap.layout h r t = Some F ->
  exists o, t = VObj o.
Proof.
  intros Hs Hl.
  assert (Hw : exists k' v' t1 t2, write_prop t1 k' v' = Ok t2
                                   /\ (t1 = t \/ exists t0, write_prop t k (VObj []) = Ok t0)).
  { destruct p as [|k2 rest].
    - rewrite set_one in Hs. exists k, x, t, t'. auto.
    - rewrite set_cons2 in Hs.
      destruct (negb (truthy (read_prop t k))).
      + destruct (write_prop t k (VObj [])) as [t0| | |] eqn:E; try discriminate.
        exists k, (VObj []), t, t0. split; auto.
      + cbn [bind] in Hs.
        destruct (setValueFromPath (read_prop t k) (k2 :: rest) x) as [c| | |];
          try discriminate.
        cbn [bind] in Hs. exists k, c, t, t'. auto. }
  destruct t as [| | | | | |o]; try (cbn in Hl; destruct r; discriminate).
  - exfalso. destruct Hw as (k' & v' & t1 & t2 & Hw & [->|[t0 Hw0]]); discriminate.
  - exfalso. destruct Hw as (k' & v' & t1 & t2 & Hw & [->|[t0 Hw0]]); discriminate.
  - exfalso. destruct Hw as (k' & v' & t1 & t2 & Hw & [->|[t0 Hw0]]); discriminate.
  - exfalso. destruct Hw as (k' & v' & t1 & t2 & Hw & [->|[t0 Hw0]]); discriminate.
  - exfalso. destruct Hw as (k' & v' & t1 & t2 & Hw & [->|[t0 Hw0]]); discriminate.
  - eauto.
Qed.

(** A write of a scalar, at a place that holds no mapping, that succeeds
    on the tree succeeds on the heap and leaves it holding the updated
    tree: it changes only cells of the tree, new cells come from fresh
    addresses, and no stored reference is replaced. *)
Lemma set_sim p : forall h r t F x t',
  Heap.layout h r t = Some F -> NoDup F -> (forall l, In l F -> l < List.length h) ->
  is_object x = false -> isArray x = false ->
  is_object (getValueFromPath t p) = false ->
  setValueFromPath t p x = Ok t' ->
  exists h' F',
    Heap.setValueFromPath h r p (Heap.embed x) = Ok h'
    /\ Heap.layout h' r t' = Some F' /\ NoDup F'
    /\ (forall l, In l F' -> In l F \/ List.length h <= l)
    /\ (forall l, In l F' -> l < List.length h')
    /\ (forall l, l < List.length h -> ~ In l F -> nth_error h' l = nth_error h l)
    /\ List.length h <= List.length h'
    /\ refs_kept h h'.
Proof.
  induction p as [|k p IH]; intros h r t F x t' Hl Hnd Hb Hx Hxa Hold0 Hs.
  - injection Hs as <-. exists h, F. repeat split; auto. apply refs_kept_refl.
  - destruct (set_needs_object _ _ _ _ _ _ _ _ Hs Hl) as [o ->].
    destruct (layout_obj_inv _ _ _ _ Hl) as (l & c & Ff & -> & Hc & Ha & Hf & ->).
    pose proof (nth_error_lt _ _ _ Hc) as Hlt.
    assert (Hlnot : ~ In l Ff) by (now inversion Hnd).
    destruct p as [|k2 rest].
    + (* the last key: assignment *)
      rewrite set_one in Hs. injection Hs as <-.
      rewrite heap_set_one. cbn [Heap.write_prop]. rewrite Hc, Ha.
      set (c' := {| Heap.is_array := false;
                    Heap.fields := Heap.field_set k (Heap.embed x) (Heap.fields c) |}).
      pose proof (layout_fields_field h k _ _ _ Hf) as Hk.
      assert (HFk : exists Fk,
                 (forall rk tk, Heap.field k (Heap.fields c) = Some rk ->
                                assoc k o = Some tk -> Heap.layout h rk tk = Some Fk)
                 /\ (assoc k o = None -> Fk = [])).
      { destruct (assoc k o) as [tk|].
        - destruct Hk as (rk & Fk & Hrk & Hlk & _). exists Fk. split; [|discriminate].
          intros rk' tk' Hrk' [= <-]. congruence.
        - exists []. split; auto. intros rk tk _. discriminate. }
      destruct HFk as (Fk & Hpin & Habs).
      assert (G1 : nth_error (Heap.put h l c') l = Some c') by (now apply put_same).
      assert (G2 : Heap.layout (Heap.put h l c') (Heap.embed x) x = Some [])
        by (now apply layout_embed).
      assert (G3 : forall y, In y (@nil Heap.loc) -> In y Fk \/ ~ In y (l :: Ff))
        by (intros y []).
      assert (G4 : forall y, In y Ff -> ~ In y Fk ->
                             nth_error (Heap.put h l c') y = nth_error h y).
      { intros y Hy _. apply put_other. intros ->. contradiction. }
      destruct (layout_cell_set h (Heap.put h l c') l c o Ff k (Heap.embed x) x [] Fk
                  Hc Ha Hf Hnd Hpin Habs G1 G2 (NoDup_nil _) G3 G4)
        as (Ff' & Hl' & Hnd' & Hin').
      assert (Hnoref : forall l', Heap.read_prop h (Heap.RRef l) k <> Heap.RRef l').
      { intros l' Hr.
        destruct (read_sim h (Heap.RRef l) (VObj o) (l :: Ff) k Hl) as (Fr & Hlr & _).
        rewrite get_cons in Hold0 by reflexivity. cbn [getValueFromPath] in Hold0.
        destruct (layout_scalar _ _ _ _ Hold0 Hlr) as (_ & He & _).
        rewrite Hr in He. destruct (read_prop (VObj o) k); discriminate. }
      exists (Heap.put h l c'), (l :: Ff'). rewrite put_length.
      split; [reflexivity|]. split; [exact Hl'|]. split; [exact Hnd'|].
      split; [|split; [|split; [|split; [lia|]]]].
      * intros y [<-|Hy]; [left; now left|].
        destruct (Hin' y Hy) as [[]|Hy']. left. now right.
      * intros y [<-|Hy]; [assumption|].
        destruct (Hin' y Hy) as [[]|Hy']. apply Hb. now right.
      * intros y Hy Hn. apply put_other. intros ->. apply Hn. now left.
      * apply (write_keeps_refs h (Heap.RRef l) k (Heap.embed x)); auto.
        cbn [Heap.write_prop]. now rewrite Hc, Ha.
    + (* an intermediate key *)
      rewrite heap_set_cons2.
      destruct (read_sim h (Heap.RRef l) (VObj o) (l :: Ff) k Hl) as (Fk & Hlk & Hik & Hnk).
      rewrite (truthy_sim _ _ _ _ Hlk).
      destruct (truthy (read_prop (VObj o) k)) eqn:Et; cbn [negb bind].
      * (* a stored mapping: descend *)
        rewrite set_truthy_step in Hs by assumption.
        apply bind_Ok_inv in Hs. destruct Hs as (child & Hchild & Hs).
        injection Hs as <-.
        assert (Hcur : assoc k o = Some (read_prop (VObj o) k)).
        { cbn [read_prop] in *. destruct (assoc k o); [reflexivity|discriminate]. }
        pose proof (layout_fields_field h k _ _ _ Hf) as Hk. rewrite Hcur in Hk.
        destruct Hk as (rk & Fk0 & Hrk & Hlk0 & Hik0 & Hnk0).
        assert (Hread : Heap.read_prop h (Heap.RRef l) k = rk).
        { cbn [Heap.read_prop]. now rewrite Hc, Hrk. }
        rewrite Hread in *. rewrite Hlk0 in Hlk. injection Hlk as <-.
        assert (I1 : NoDup Fk0) by (apply Hnk0; now inversion Hnd).
        assert (I2 : forall y, In y Fk0 -> y < List.length h).
        { intros y Hy. apply Hb. right. now apply Hik0. }
        assert (I3 : is_object (getValueFromPath (read_prop (VObj o) k) (k2 :: rest)) = false).
        { rewrite get_cons in Hold0 by reflexivity. exact Hold0. }
        destruct (IH h rk _ Fk0 x child Hlk0 I1 I2 Hx Hxa I3 Hchild)
          as (h' & Fk' & Hset & Hl' & Hnd' & Hnew & Hb' & Hfr & Hlen & Hrefs).
        assert (Hc' : nth_error h' l
                      = Some {| Heap.is_array := false;
                                Heap.fields := Heap.field_set k rk (Heap.fields c) |}).
        { rewrite (field_set_id _ _ _ Hrk), Hfr.
          - rewrite Hc. destruct c. cbn in Ha. now subst.
          - exact Hlt.
          - intros Hin. apply Hlnot. now apply Hik0. }
        assert (G1 : forall rk' tk', Heap.field k (Heap.fields c) = Some rk' ->
                       assoc k o = Some tk' -> Heap.layout h rk' tk' = Some Fk0)
          by (intros rk' tk' Hrk' Htk'; congruence).
        assert (G2 : assoc k o = None -> Fk0 = []) by (intros Habs; congruence).
        assert (G3 : forall y, In y Fk' -> In y Fk0 \/ ~ In y (l :: Ff)).
        { intros y Hy. destruct (Hnew y Hy) as [Hk|Hk]; [now left|right].
          intros Hin. apply Hb in Hin. lia. }
        assert (G4 : forall y, In y Ff -> ~ In y Fk0 -> nth_error h' y = nth_error h y).
        { intros y Hy Hn. apply Hfr; auto. apply Hb. now right. }
        destruct (layout_cell_set h h' l c o Ff k rk child Fk' Fk0
                    Hc Ha Hf Hnd G1 G2 Hc' Hl' Hnd' G3 G4)
          as (Ff' & Hlr & Hndr & Hinr).
        exists h', (l :: Ff').
        split; [exact Hset|]. split; [exact Hlr|]. split; [exact Hndr|].
        split; [|split; [|split; [|split; [exact Hlen|exact Hrefs]]]].
        -- intros y [<-|Hy]; [left; now left|].
           destruct (Hinr y Hy) as [Hy'|Hy'].
           ++ destruct (Hnew y Hy') as [Hk|Hk]; [left|now right].
              right. now apply Hik0.
           ++ left. now right.
        -- intros y [<-|Hy]; [lia|].
           destruct (Hinr y Hy) as [Hy'|Hy']; [now apply Hb'|].
           assert (y < List.length h) by (apply Hb; now right). lia.
        -- intros y Hy Hn. apply Hfr; [exact Hy|]. intros Hin. apply Hn. right.
           now apply Hik0.
      * (* nothing usable stored: a fresh mapping *)
        rewrite set_falsy_step in Hs by assumption. injection Hs as <-.
        cbn [Heap.alloc Heap.write_prop].
        rewrite (alloc_old h _ l Hlt), Hc, Ha. cbn [bind].
        set (lnew := List.length h).
        set (h0 := h ++ [{| Heap.is_array := false; Heap.fields := [] |}]).
        set (c1 := {| Heap.is_array := false;
                      Heap.fields := Heap.field_set k (Heap.RRef lnew) (Heap.fields c) |}).
        set (h1 := Heap.put h0 l c1).
        assert (Hlen0 : List.length h0 = S (List.length h)).
        { unfold h0. rewrite length_app. simpl. lia. }
        assert (Hlen1 : List.length h1 = S (List.length h)).
        { unfold h1. now rewrite put_length. }
        assert (Hne : l <> lnew) by (unfold lnew; lia).
        assert (Hc1 : nth_error h1 l = Some c1).
        { unfold h1. apply put_same. lia. }
        assert (Hread : Heap.read_prop h1 (Heap.RRef l) k = Heap.RRef lnew).
        { cbn [Heap.read_prop]. rewrite Hc1. unfold c1. cbn [Heap.fields].
          now rewrite field_set_same. }
        rewrite Hread.
        assert (Hnew1 : Heap.layout h1 (Heap.RRef lnew) (VObj []) = Some [lnew]).
        { rewrite layout_obj. unfold h1. rewrite put_other by congruence.
          unfold h0, lnew. rewrite alloc_new. reflexivity. }
        assert (I1 : NoDup [lnew]) by (constructor; [intros []|constructor]).
        assert (I2 : forall y, In y [lnew] -> y < List.length h1).
        { intros y [<-|[]]. unfold lnew. lia. }
        assert (I3 : is_object (getValueFromPath (VObj []) (k2 :: rest)) = false).
        { rewrite get_cons by reflexivity. cbn [read_prop assoc opt_value].
          now rewrite get_undef. }
        destruct (IH h1 (Heap.RRef lnew) (VObj []) [lnew] x (chain (k2 :: rest) x)
                    Hnew1 I1 I2 Hx Hxa I3 (set_chain k2 rest x))
          as (h' & Fc & Hset & Hl' & Hnd' & Hnew & Hb' & Hfr & Hlen & Hrefs).
        assert (Hrefs1 : refs_kept h h1).
        { apply (refs_kept_trans h h0 h1); [apply refs_kept_alloc|].
          apply (write_keeps_refs h0 (Heap.RRef l) k (Heap.RRef lnew)).
          - cbn [Heap.write_prop]. unfold h0. now rewrite (alloc_old h _ l Hlt), Hc, Ha.
          - intros l' Hr. cbn [Heap.read_prop] in Hr. unfold h0 in Hr.
            rewrite (alloc_old h _ l Hlt) in Hr.
            assert (Hr' : Heap.read_prop h (Heap.RRef l) k = Heap.RRef l').
            { cbn [Heap.read_prop]. exact Hr. }
            rewrite Hr' in Hlk.
            assert (Hno : is_object (read_prop (VObj o) k) = false).
            { destruct (read_prop (VObj o) k); auto; discriminate. }
            destruct (layout_scalar _ _ _ _ Hno Hlk) as (_ & He & _).
            destruct (read_prop (VObj o) k); discriminate. }
        assert (Hold : forall y, y < List.length h -> y <> l ->
                                 nth_error h' y = nth_error h y).
        { intros y Hy Hyl. rewrite Hfr.
          - unfold h1. rewrite put_other by congruence. unfold h0. now apply alloc_old.
          - lia.
          - intros [<-|[]]. unfold lnew in Hy. lia. }
        assert (Hc' : nth_error h' l = Some c1).
        { rewrite Hfr; auto; [lia|]. intros [Heq|[]]. congruence. }
        assert (G1 : forall rk tk, Heap.field k (Heap.fields c) = Some rk ->
                       assoc k o = Some tk -> Heap.layout h rk tk = Some []).
        { intros rk tk Hrk Htk.
          pose proof (layout_fields_field h k _ _ _ Hf) as Hk. rewrite Htk in Hk.
          destruct Hk as (rk' & Fk' & Hrk' & Hlk' & _).
          assert (rk' = rk) by congruence. subst rk'.
          assert (Hfalsy : truthy tk = false).
          { cbn [read_prop] in Et. rewrite Htk in Et. exact Et. }
          assert (Hno : is_object tk = false) by (destruct tk; auto; discriminate).
          destruct (layout_scalar _ _ _ _ Hno Hlk') as (-> & _). exact Hlk'. }
        assert (G3 : forall y, In y Fc -> In y (@nil Heap.loc) \/ ~ In y (l :: Ff)).
        { intros y Hy. right. destruct (Hnew y Hy) as [[<-|[]]|Hge].
          - intros [<-|Hin]; [congruence|].
            apply (fun H => Hb lnew (or_intror H)) in Hin. unfold lnew in Hin. lia.
          - intros [<-|Hin]; [lia|]. apply (fun H => Hb y (or_intror H)) in Hin. lia. }
        assert (G4 : forall y, In y Ff -> ~ In y (@nil Heap.loc) ->
                               nth_error h' y = nth_error h y).
        { intros y Hy _. apply Hold.
          - apply Hb. now right.
          - intros ->. contradiction. }
        destruct (layout_cell_set h h' l c o Ff k (Heap.RRef lnew)
                                  (chain (k2 :: rest) x) Fc []
                    Hc Ha Hf Hnd G1 (fun _ => eq_refl) Hc' Hl' Hnd' G3 G4)
          as (Ff' & Hlr & Hndr & Hinr).
        exists h', (l :: Ff').
        split; [exact Hset|]. split; [exact Hlr|]. split; [exact Hndr|].
        split; [|split; [|split; [|split; [lia|]]]].
        4: exact (refs_kept_trans h h1 h' Hrefs1 Hrefs).
        -- intros y [<-|Hy]; [left; now left|].
           destruct (Hinr y Hy) as [Hy'|Hy'].
           ++ right. destruct (Hnew y Hy') as [[<-|[]]|Hge]; unfold lnew; lia.
           ++ left. now right.
        -- intros y [<-|Hy]; [lia|].
           destruct (Hinr y Hy) as [Hy'|Hy']; [now apply Hb'|].
           assert (y < List.length h) by (apply Hb; now right). lia.
        -- intros y Hy Hn. apply Hold; auto. intros ->. apply Hn. now left.
Qed.

(* ------------------------------------------------------------------ *)
(** *** The walk on the heap follows the walk on the trees *)

Lemma kind_sim h r t F :
  Heap.layout h r t = Some F ->
  Heap.is_undefined r = is_undefined t
  /\ Heap.typeof_object r = typeof_object t
  /\ Heap.isArray h r = false /\ isArray t = false
  /\ Heap.keys h r = keys t.
Proof.
  destruct t as [| | | | | |o]; intros H.
  1-5: scalar_layout H; repeat split; reflexivity.
  - discriminate.
  - destruct (layout_obj_inv _ _ _ _ H) as (l & c & Ff & -> & Hc & Ha & Hf & ->).
    cbn. rewrite Hc, Ha. repeat split; auto.
    apply (layout_fields_keys _ _ _ _ Hf).
Qed.

Lemma NoDup_app_intro {A} (a b : list A) :
  NoDup a -> NoDup b -> (forall x, In x a -> In x b -> False) -> NoDup (a ++ b).
Proof.
  induction a as [|y a IH]; simpl; intros Ha Hb Hd; auto.
  inversion Ha; subst. constructor.
  - intros Hin. apply in_app_or in Hin. destruct Hin; [tauto|]. eapply Hd; eauto.
  - apply IH; auto. intros x Hx. apply Hd. now right.
Qed.

Lemma lookup_update_diverge p : forall t q new,
  diverge p q = true -> lookup (update t p new) q = lookup t q.
Proof.
  induction p as [|k p IH]; intros t q new Hd; [discriminate|].
  destruct q as [|k' q]; [discriminate|].
  cbn [update]. destruct t as [| | | | | |o]; auto.
  destruct (assoc k o) as [c|] eqn:Ek; auto.
  cbn [lookup]. destruct (String.eqb k k') eqn:E.
  - apply String.eqb_eq in E. subst k'. rewrite diverge_cons_same in Hd.
    rewrite assoc_set_same, Ek. now apply IH.
  - rewrite assoc_set_other; auto. intros ->. now rewrite String.eqb_refl in E.
Qed.

Lemma sim_step_refl h F : sim_step h F h F.
Proof. repeat split; auto. apply refs_kept_refl. Qed.

Lemma sim_step_trans h F h1 F1 h2 F2 :
  (forall l, In l F -> l < List.length h) ->
  sim_step h F h1 F1 -> sim_step h1 F1 h2 F2 -> sim_step h F h2 F2.
Proof.
  intros Hb (Ha1 & Hb1 & Hc1 & Hr1) (Ha2 & Hb2 & Hc2 & Hr2).
  split; [|split; [|split]].
  - intros l Hl. destruct (Ha2 l Hl) as [H|H]; [|right; lia].
    destruct (Ha1 l H); auto.
  - intros l Hl Hn. rewrite Hb2; auto; [lia|].
    intros Hin. destruct (Ha1 l Hin); [contradiction|lia].
  - lia.
  - eapply refs_kept_trans; eauto.
Qed.

(** Writing a default into the persisted structure keeps the overrides
    scalar. *)
Lemma scalar_overrides_set D pt path thing pt' :
  scalar_overrides D pt -> lookup D path = Some thing -> walk_leaf thing = true ->
  path <> [] -> setValueFromPath pt path thing = Ok pt' ->
  scalar_overrides D pt'.
Proof.
  intros Hso Hl Hw Hne Hs q dv Hq Hdv.
  destruct (path_trichotomy path q) as [Hd|[[r ->]|(k & r & ->)]].
  - rewrite (set_get_diverge _ _ _ _ _ Hs Hd). eauto.
  - rewrite lookup_app, Hl in Hq.
    assert (Ho : is_object thing = false) by (destruct thing; auto; discriminate).
    destruct (lookup_leaf_nil _ _ _ Ho Hq) as [-> ->].
    rewrite app_nil_r, (set_get_same _ _ _ _ Hne Hs). exact Ho.
  - destruct (lookup_prefix _ _ _ _ _ Hl) as [o Ho]. rewrite Ho in Hq.
    injection Hq as <-. discriminate.
Qed.

(** The step of the walk at a leaf. *)
Lemma leaf_sim D h d pr c pt path thing c' pt' F :
  sim_state h d pr c pt F ->
  lookup D path = Some thing -> lookup c path = Some thing ->
  walk_leaf thing = true -> path <> [] ->
  scalar_overrides D pt ->
  (if is_undefined (getValueFromPath pt path)
   then props' <- setValueFromPath pt path thing ;; Ok (c, props')
   else config' <- setValueFromPath c path (getValueFromPath pt path) ;; Ok (config', pt))
  = Ok (c', pt') ->
  exists h' F',
    (if Heap.is_undefined (Heap.getValueFromPath h pr path)
     then Heap.setValueFromPath h pr path (Heap.getValueFromPath h d path)
     else Heap.setValueFromPath h d path (Heap.getValueFromPath h pr path)) = Ok h'
    /\ sim_state h' d pr c' pt' F' /\ sim_step h F h' F'
    /\ scalar_overrides D pt'.
Proof.
  intros (Fc & Fp & -> & Hlc & Hlp & Hnd & Hb) HD Hc Hw Hne Hso Hstep.
  destruct (get_sim h path d c Fc Hlc) as (Ft & Hlt & _).
  rewrite (lookup_get _ _ _ Hc) in Hlt.
  assert (Hto : is_object thing = false) by (destruct thing; auto; discriminate).
  destruct (layout_scalar _ _ _ _ Hto Hlt) as (_ & Hthing & Hta).
  destruct (get_sim h path pr pt Fp Hlp) as (Fv & Hlv & _).
  destruct (kind_sim _ _ _ _ Hlv) as (Hu & _ & _ & Hva & _).
  rewrite Hu.
  assert (HndC : NoDup Fc) by (now apply NoDup_app_l in Hnd).
  assert (HndP : NoDup Fp) by (now apply NoDup_app_r in Hnd).
  destruct (is_undefined (getValueFromPath pt path)) eqn:Eu.
  - (* the default goes to the persisted structure *)
    apply bind_Ok_inv in Hstep. destruct Hstep as (p' & Hset & Heq).
    injection Heq as <- <-. rewrite Hthing.
    assert (HbP : forall l, In l Fp -> l < List.length h).
    { intros l Hl. apply Hb. apply in_or_app. now right. }
    assert (Hund : is_object (getValueFromPath pt path) = false).
    { destruct (getValueFromPath pt path); auto; discriminate. }
    destruct (set_sim path h pr pt Fp thing p' Hlp HndP HbP Hto Hta Hund Hset)
      as (h' & Fp' & Hs' & Hlp' & Hndp' & Hnew & Hb' & Hfr & Hlen & Hrefs).
    exists h', (Fc ++ Fp'). split; [exact Hs'|]. split; [|split].
    + exists Fc, Fp'. split; [reflexivity|]. split; [|split; [exact Hlp'|split]].
      * apply (layout_frame h h' c d Fc Hlc). intros l Hl. apply Hfr.
        -- apply Hb. apply in_or_app. now left.
        -- intros Hin. eapply NoDup_app_disjoint; eauto.
      * apply NoDup_app_intro; auto. intros x Hx Hx'.
        destruct (Hnew x Hx') as [Hin|Hge].
        -- eapply NoDup_app_disjoint; eauto.
        -- assert (x < List.length h) by (apply Hb; apply in_or_app; now left). lia.
      * intros l Hl. apply in_app_or in Hl. destruct Hl as [Hl|Hl]; [|now apply Hb'].
        assert (l < List.length h) by (apply Hb; apply in_or_app; now left). lia.
    + split; [|split; [|split; [exact Hlen|exact Hrefs]]].
      * intros l Hl. apply in_app_or in Hl. destruct Hl as [Hl|Hl].
        -- left. apply in_or_app. now left.
        -- destruct (Hnew l Hl); [left|now right]. apply in_or_app. now right.
      * intros l Hl Hn. apply Hfr; auto. intros Hin. apply Hn. apply in_or_app. now right.
    + eapply scalar_overrides_set; eauto.
  - (* the persisted value goes to the configuration *)
    apply bind_Ok_inv in Hstep. destruct Hstep as (c1 & Hset & Heq).
    injection Heq as <- <-.
    pose proof (Hso path thing HD Hw) as Hvo.
    destruct (layout_scalar _ _ _ _ Hvo Hlv) as (_ & Hv & _). rewrite Hv.
    assert (HbC : forall l, In l Fc -> l < List.length h).
    { intros l Hl. apply Hb. apply in_or_app. now left. }
    assert (Hold : is_object (getValueFromPath c path) = false).
    { now rewrite (lookup_get _ _ _ Hc). }
    destruct (set_sim path h d c Fc _ c1 Hlc HndC HbC Hvo Hva Hold Hset)
      as (h' & Fc' & Hs' & Hlc' & Hndc' & Hnew & Hb' & Hfr & Hlen & Hrefs).
    exists h', (Fc' ++ Fp). split; [exact Hs'|]. split; [|split].
    + exists Fc', Fp. split; [reflexivity|]. split; [exact Hlc'|split; [|split]].
      * apply (layout_frame h h' pt pr Fp Hlp). intros l Hl. apply Hfr.
        -- apply Hb. apply in_or_app. now right.
        -- intros Hin. eapply NoDup_app_disjoint; eauto.
      * apply NoDup_app_intro; auto. intros x Hx Hx'.
        destruct (Hnew x Hx) as [Hin|Hge].
        -- eapply NoDup_app_disjoint; eauto.
        -- assert (x < List.length h) by (apply Hb; apply in_or_app; now right). lia.
      * intros l Hl. apply in_app_or in Hl. destruct Hl as [Hl|Hl]; [now apply Hb'|].
        assert (l < List.length h) by (apply Hb; apply in_or_app; now right). lia.
    + split; [|split; [|split; [exact Hlen|exact Hrefs]]].
      * intros l Hl. apply in_app_or in Hl. destruct Hl as [Hl|Hl].
        -- destruct (Hnew l Hl); [left|now right]. apply in_or_app. now left.
        -- left. apply in_or_app. now right.
      * intros l Hl Hn. apply Hfr; auto. intros Hin. apply Hn. apply in_or_app. now left.
    + exact Hso.
Qed.

Lemma sim_state_bound h d pr c pt F :
  sim_state h d pr c pt F -> forall l, In l F -> l < List.length h.
Proof. intros (Fc & Fp & -> & _ & _ & _ & Hb). exact Hb. Qed.

Section LoadSim.

Variables (D : value) (fuel : nat) (d pr : Heap.ref_value).

Hypothesis IHfuel :
  forall h c pt path thing c' pt' F,
    sim_state h d pr c pt F ->
    lookup D path = Some thing -> lookup c path = Some thing ->
    wf thing = true -> depth thing < fuel ->
    (path = [] -> typeof_object thing = true) ->
    scalar_overrides D pt ->
    loadConfig fuel (c, pt) path = Ok (c', pt') ->
    exists h' F',
      Heap.loadConfig fuel d pr h path = Ok h'
      /\ sim_state h' d pr c' pt' F' /\ sim_step h F h' F'
      /\ scalar_overrides D pt'.

Variable path : list string.

(** The [for ... in] loop on the heap, key by key. *)
Lemma loop_sim ks : forall h c pt F c' pt',
  sim_state h d pr c pt F -> NoDup ks ->
  (forall k, In k ks ->
     exists child, lookup D (path ++ [k]) = Some child
                   /\ lookup c (path ++ [k]) = Some child
                   /\ wf child = true /\ depth child < fuel) ->
  scalar_overrides D pt ->
  for_in ks (fun key st' => loadConfig fuel st' (path ++ [key])) (c, pt) = Ok (c', pt') ->
  exists h' F',
    for_in ks (fun key h' => Heap.loadConfig fuel d pr h' (path ++ [key])) h = Ok h'
    /\ sim_state h' d pr c' pt' F' /\ sim_step h F h' F'
    /\ scalar_overrides D pt'.
Proof.
  induction ks as [|k ks IH]; intros h c pt F c' pt' Hsim Hnd Hkeys Hso Hrun.
  - injection Hrun as <- <-. exists h, F.
    split; [reflexivity|]. split; [exact Hsim|]. split; [apply sim_step_refl|exact Hso].
  - cbn [for_in] in *. apply bind_Ok_inv in Hrun.
    destruct Hrun as ([c1 pt1] & Hk & Hrest).
    destruct (Hkeys k (or_introl eq_refl)) as (child & HD & Hc & Hwf & Hd).
    assert (Hne : path ++ [k] = [] -> typeof_object child = true).
    { intros Habs. now apply app_eq_nil in Habs. }
    destruct (IHfuel h c pt (path ++ [k]) child c1 pt1 F Hsim HD Hc Hwf Hd Hne Hso Hk)
      as (h1 & F1 & Hh1 & Hsim1 & Hstep1 & Hso1).
    rewrite Hh1. cbn [bind].
    inversion Hnd as [|? ? Hnotin Hnd']; subst.
    assert (Hc1 : c1 = update c (path ++ [k])
                         (overlay child (getValueFromPath pt (path ++ [k])))).
    { rewrite (loadConfig_refines fuel c pt (path ++ [k]) child Hc Hwf Hd Hne) in Hk.
      destruct (backfill child (path ++ [k]) pt); try discriminate.
      cbn [bind] in Hk. now injection Hk as <- _. }
    assert (Hkeys' : forall k', In k' ks ->
               exists child', lookup D (path ++ [k']) = Some child'
                              /\ lookup c1 (path ++ [k']) = Some child'
                              /\ wf child' = true /\ depth child' < fuel).
    { intros k' Hin. destruct (Hkeys k' (or_intror Hin)) as (child' & HD' & Hc' & Hw' & Hd').
      exists child'. split; [exact HD'|]. split; [|split; assumption].
      rewrite Hc1, lookup_update_diverge; [exact Hc'|].
      apply diverge_siblings. intros ->. contradiction. }
    destruct (IH h1 c1 pt1 F1 c' pt' Hsim1 Hnd' Hkeys' Hso1 Hrest)
      as (h2 & F2 & Hh2 & Hsim2 & Hstep2 & Hso2).
    exists h2, F2. split; [exact Hh2|]. split; [exact Hsim2|]. split; [|exact Hso2].
    apply (sim_step_trans h F h1 F1 h2 F2); auto.
    apply (sim_state_bound _ _ _ _ _ _ Hsim).
Qed.

End LoadSim.

(** The walk of the class on the heap and the walk on the trees proceed
    alike: when the trees sit apart in the heap and only scalars are
    taken over from the persisted structure, a walk that succeeds on the
    trees succeeds on the heap and leaves the resulting trees in place,
    at the same two references. *)
Lemma load_sim D d pr fuel :
  forall h c pt path thing c' pt' F,
    sim_state h d pr c pt F ->
    lookup D path = Some thing -> lookup c path = Some thing ->
    wf thing = true -> depth thing < fuel ->
    (path = [] -> typeof_object thing = true) ->
    scalar_overrides D pt ->
    loadConfig fuel (c, pt) path = Ok (c', pt') ->
    exists h' F',
      Heap.loadConfig fuel d pr h path = Ok h'
      /\ sim_state h' d pr c' pt' F' /\ sim_step h F h' F'
      /\ scalar_overrides D pt'.
Proof.
  induction fuel as [|fuel IH]; intros h c pt path thing c' pt' F
                                       Hsim HD Hc Hwf Hd Hroot Hso Hrun; [lia|].
  cbn [loadConfig Heap.loadConfig] in *.
  destruct Hsim as (Fc & Fp & HF & Hlc & Hlp & Hnd & Hb).
  destruct (get_sim h path d c Fc Hlc) as (Ft & Hlt & _).
  destruct (kind_sim _ _ _ _ Hlt) as (_ & Hty & Harr & Harr' & Hkeys).
  rewrite Harr, Hty, Hkeys. rewrite Harr' in Hrun.
  rewrite (lookup_get _ _ _ Hc) in *.
  assert (Hsim : sim_state h d pr c pt F) by (exists Fc, Fp; auto).
  destruct (typeof_object thing) eqn:Et.
  - destruct thing as [| | | | | |o]; try discriminate.
    + cbn [keys for_in] in *. injection Hrun as <- <-.
      exists h, F.
      split; [reflexivity|]. split; [exact Hsim|]. split; [apply sim_step_refl|exact Hso].
    + cbn [keys] in *. destruct (wf_obj _ Hwf) as [Hndk Hwfc].
      apply (loop_sim D fuel d pr IH path (map fst o) h c pt F c' pt'); auto.
      intros k Hin. apply in_map_iff in Hin. destruct Hin as ([k0 child] & <- & Hin).
      cbn [fst]. exists child.
      assert (Ha : assoc k0 o = Some child) by (now apply NoDup_assoc).
      rewrite !lookup_app, HD, Hc. cbn [lookup]. rewrite Ha.
      repeat split; auto.
      * now apply (Hwfc (k0, child)).
      * pose proof (depth_child (k0, child) o Hin). cbn [snd] in *. lia.
  - assert (Hw : walk_leaf thing = true) by (unfold walk_leaf; now rewrite Et).
    assert (Hne : path <> []).
    { intros Hp. specialize (Hroot Hp). congruence. }
    exact (leaf_sim D h d pr c pt path thing c' pt' F Hsim HD Hc Hw Hne Hso Hrun).
Qed.

Lemma overrides_are_scalar_spec D P :
  overrides_are_scalar D P = true -> scalar_overrides D P.
Proof.
  intros H q. revert D P H. induction q as [|k q IH]; intros D P H dv Hq Hw.
  - simpl in Hq. injection Hq as <-. simpl.
    destruct D; try discriminate; simpl in H; now apply negb_true_iff in H.
  - simpl in Hq. destruct D as [| | | | | |o]; try discriminate.
    destruct (assoc k o) as [c|] eqn:Ek; [|discriminate].
    cbn [overrides_are_scalar] in H. rewrite forallb_forall in H.
    specialize (H (k, c) (assoc_In _ _ _ Ek)). cbn [fst snd] in H.
    change (k :: q) with ([k] ++ q). rewrite (get_app P [k] q). eapply IH; eauto.
Qed.


(* ================================================================== *)
(** ** Whose object the reconciliation writes into *)

Lemma field_in_keys k fs v : Heap.field k fs = Some v -> In k (map fst fs).
Proof.
  induction fs as [|[k' v'] r IH]; simpl; [discriminate|].
  destruct (String.eqb k k') eqn:E; auto.
  apply String.eqb_eq in E. auto.
Qed.

(** The cell of the caller's object, read after a walk that went through
    a shallow copy of it: the references it stores now lead to the merged
    nested mappings, its own scalars are the defaults. *)
Lemma shared_fields h h' P : forall o fs fs' Ff Ff',
  Heap.layout_fields h fs o = Some Ff ->
  Heap.layout_fields h' fs'
    (map (fun kv => (fst kv, overlay (snd kv) (getValueFromPath P [fst kv]))) o)
  = Some Ff' ->
  (forall k l, Heap.field k fs = Some (Heap.RRef l) ->
               Heap.field k fs' = Some (Heap.RRef l)) ->
  NoDup (map fst o) ->
  (forall k t, In (k, t) o -> is_object t = false ->
               is_object (overlay t (getValueFromPath P [k])) = false) ->
  Heap.layout_fields h' fs
    (map (fun kv => (fst kv,
                     if is_object (snd kv)
                     then overlay (snd kv) (getValueFromPath P [fst kv])
                     else snd kv)) o)
  = Some Ff'.
Proof.
  induction o as [|[k t] o IH]; intros [|[k1 r] fs] [|[k2 r'] fs'] Ff Ff' Hf Hf' Hrefs Hnd Hsc;
    cbn [map fst snd Heap.layout_fields] in *; try discriminate; auto.
  destruct (String.eqb k k1) eqn:E1; [|discriminate].
  destruct (String.eqb k k2) eqn:E2; [|discriminate].
  apply String.eqb_eq in E1, E2. subst k1 k2.
  destruct (Heap.layout h r t) as [a|] eqn:Ea; [|discriminate].
  destruct (Heap.layout_fields h fs o) as [b|] eqn:Eb; [|discriminate].
  destruct (Heap.layout h' r' _) as [a'|] eqn:Ea'; [|discriminate].
  destruct (Heap.layout_fields h' fs' _) as [b'|] eqn:Eb'; [|discriminate].
  injection Hf' as <-. inversion Hnd as [|? ? Hnotin Hnd']; subst.
  assert (Hkeys : map fst fs = map fst o) by (eapply layout_fields_keys; eauto).
  rewrite (IH fs fs' b b' Eb Eb'); auto.
  - destruct (is_object t) eqn:Eo.
    + destruct t as [| | | | | |ot]; try discriminate.
      destruct (layout_obj_inv _ _ _ _ Ea) as (lk & ck & Fk & -> & _).
      pose proof (Hrefs k lk) as Hk. cbn [Heap.field] in Hk.
      rewrite String.eqb_refl in Hk. specialize (Hk eq_refl). injection Hk as ->.
      now rewrite Ea'.
    + destruct (layout_scalar _ _ _ _ Eo Ea) as (_ & -> & Hta).
      rewrite (layout_embed h' t Eo Hta).
      pose proof (Hsc k t (or_introl eq_refl) Eo) as Hov.
      destruct (layout_scalar _ _ _ _ Hov Ea') as (-> & _). reflexivity.
  - intros k' l Hk'. pose proof (Hrefs k' l) as Hr. cbn [Heap.field] in Hr.
    destruct (String.eqb k' k) eqn:E.
    + apply String.eqb_eq in E. subst k'. exfalso. apply Hnotin.
      rewrite <- Hkeys. eapply field_in_keys; eauto.
    + auto.
  - intros k' t' Hin. apply Hsc. now right.
Qed.

Lemma overlay_scalar_override D P o k t :
  D = VObj o -> NoDup (map fst o) -> scalar_overrides D P ->
  In (k, t) o -> is_object t = false ->
  is_object (overlay t (getValueFromPath P [k])) = false.
Proof.
  intros -> Hnd Hso Hin Ho.
  destruct (walk_leaf t) eqn:Ew.
  - rewrite overlay_leaf by assumption.
    destruct (is_undefined (getValueFromPath P [k])); [exact Ho|].
    apply (Hso [k] t); auto. cbn [lookup]. now rewrite (NoDup_assoc _ _ _ Hnd Hin).
  - destruct t; try discriminate; reflexivity.
Qed.

(** C10. The reconciliation writes into the caller's default object.
    With the defaults [D] at [d], all their keys ordinary, and the parsed
    document [P] at [pr], apart from each other in the heap, and only
    scalars to take over from [P]: in [src/config.ts] the instance works
    on [d] itself, and after the walk the caller's object holds the whole
    merged configuration;
    in the synchronous variant the instance works on a copy of the top
    level only, and after the walk the caller's object holds its own top
    level and, in the nested mappings it shares with the copy, the merged
    values. *)
Theorem reconciliation_writes_into_caller_object v h d pr D P M P' Fd Fp
  (Hd : Heap.holds h d D Fd) (Hp : Heap.holds h pr P Fp)
  (Hapart : forall l, In l Fd -> In l Fp -> False)
  (Hwf : wf D = true) (Hobj : is_object D = true)
  (Hkeys : ordinary_keys D = true)
  (Hso : overrides_are_scalar D P = true)
  (Hrun : reconcile D P = Ok (M, P')) :
  exists h1 config h' Fc F,
    Heap.constructor v h d = (h1, config)
    /\ (v = Async -> config = d) /\ (v = Sync -> config <> d)
    /\ Heap.loadConfig (S (depth D)) config pr h1 [] = Ok h'
    /\ Heap.holds h' config M Fc
    /\ Heap.holds h' d (caller_view v D P) F.
Proof.
  apply overrides_are_scalar_spec in Hso.
  destruct Hd as (Hld & Hndd & Hbd). destruct Hp as (Hlp & Hndp & Hbp).
  pose proof (is_object_typeof _ Hobj) as Hty.
  destruct (reconcile_Ok_inv _ _ _ _ Hwf Hty Hrun) as [HM _].
  unfold reconcile in Hrun.
  destruct v.
  - (* the instance works on the caller's object *)
    assert (Hsim : sim_state h d pr D P (Fd ++ Fp)).
    { exists Fd, Fp. repeat split; auto.
      - apply NoDup_app_intro; auto.
      - intros l Hl. apply in_app_or in Hl. destruct Hl; auto. }
    destruct (load_sim D d pr (S (depth D)) h D P [] D M P' (Fd ++ Fp) Hsim
                eq_refl eq_refl Hwf (Nat.lt_succ_diag_r _) (fun _ => Hty) Hso Hrun)
      as (h' & F' & Hh' & (Fc' & Fp' & -> & Hlc' & Hlp' & Hnd' & Hb') & _ & _).
    assert (Hholds : Heap.holds h' d M Fc').
    { repeat split; auto.
      - now apply NoDup_app_l in Hnd'.
      - intros l Hl. apply Hb'. apply in_or_app. now left. }
    exists h, d, h', Fc', Fc'.
    split; [reflexivity|]. split; [reflexivity|]. split; [discriminate|].
    split; [exact Hh'|]. split; [exact Hholds|].
    cbn [caller_view]. now rewrite <- HM.
  - (* the instance works on a shallow copy *)
    destruct D as [| | | | | |o]; try discriminate.
    destruct (layout_obj_inv _ _ _ _ Hld) as (ld & cd & Ff & -> & Hcd & Had & Hfd & ->).
    pose proof (nth_error_lt _ _ _ Hcd) as Hldlt.
    set (c0 := {| Heap.is_array := false; Heap.fields := Heap.fields cd |}).
    set (h1 := h ++ [c0]).
    set (l0 := List.length h).
    assert (Hcons : Heap.constructor Sync h (Heap.RRef ld) = (h1, Heap.RRef l0)).
    { cbn. now rewrite Hcd. }
    assert (Hlen1 : List.length h1 = S (List.length h)).
    { unfold h1. rewrite length_app. simpl. lia. }
    assert (Hold : forall l, l < List.length h -> nth_error h1 l = nth_error h l).
    { intros l Hl. unfold h1. now apply alloc_old. }
    assert (HFf : forall l, In l Ff -> l < List.length h).
    { intros l Hl. apply Hbd. now right. }
    assert (Hl0 : Heap.layout h1 (Heap.RRef l0) (VObj o) = Some (l0 :: Ff)).
    { rewrite layout_obj. unfold h1, l0. rewrite alloc_new. cbn [Heap.is_array c0 Heap.fields].
      rewrite (layout_fields_frame h (h ++ [c0]) o (Heap.fields cd) Ff Hfd);
        [reflexivity|].
      intros l Hl. apply alloc_old. auto. }
    assert (Hlp1 : Heap.layout h1 pr P = Some Fp).
    { apply (layout_frame h h1 P pr Fp Hlp). intros l Hl. apply Hold. auto. }
    assert (HndFf : NoDup Ff) by (now inversion Hndd).
    assert (Hldnot : ~ In ld Ff) by (now inversion Hndd).
    assert (Hsim : sim_state h1 (Heap.RRef l0) pr (VObj o) P ((l0 :: Ff) ++ Fp)).
    { exists (l0 :: Ff), Fp. split; [reflexivity|]. split; [exact Hl0|].
      split; [exact Hlp1|]. split.
      - cbn [app]. constructor.
        + intros Hin. apply in_app_or in Hin. unfold l0 in Hin.
          destruct Hin as [Hin|Hin]; [apply HFf in Hin|apply Hbp in Hin]; lia.
        + apply NoDup_app_intro; auto. intros x Hx Hx'. apply (Hapart x); auto. now right.
      - intros l Hl. cbn [app] in Hl. destruct Hl as [<-|Hl]; [unfold l0; lia|].
        apply in_app_or in Hl. destruct Hl as [Hl|Hl]; [apply HFf in Hl|apply Hbp in Hl]; lia. }
    destruct (load_sim (VObj o) (Heap.RRef l0) pr (S (depth (VObj o))) h1 (VObj o) P []
                (VObj o) M P' ((l0 :: Ff) ++ Fp) Hsim
                eq_refl eq_refl Hwf (Nat.lt_succ_diag_r _) (fun _ => Hty) Hso Hrun)
      as (h' & F' & Hh' & (Fc' & Fp' & -> & Hlc' & Hlp' & Hnd' & Hb')
          & (Hnew & Hfr & Hlen & Hrefs) & _).
    assert (HndFc' : NoDup Fc') by (now apply NoDup_app_l in Hnd').
    assert (Hholds : Heap.holds h' (Heap.RRef l0) M Fc').
    { repeat split; auto. intros l Hl. apply Hb'. apply in_or_app. now left. }
    assert (Hldout : ~ In ld ((l0 :: Ff) ++ Fp)).
    { cbn [app]. intros [Heq|Hin]; [unfold l0 in Heq; lia|].
      apply in_app_or in Hin. destruct Hin as [Hin|Hin]; [contradiction|].
      apply (Hapart ld); auto. now left. }
    assert (Hcd' : nth_error h' ld = Some cd).
    { rewrite Hfr; auto; [now rewrite Hold|lia]. }
    rewrite HM in Hlc'. cbn [overlay] in Hlc'.
    destruct (layout_obj_inv _ _ _ _ Hlc') as (l0' & c' & Ff' & Heq & Hc' & Ha' & Hf' & ->).
    injection Heq as <-.
    assert (Hshare : forall k l, Heap.field k (Heap.fields cd) = Some (Heap.RRef l) ->
                                 Heap.field k (Heap.fields c') = Some (Heap.RRef l)).
    { intros k l Hk.
      destruct (Hrefs l0 c0 k l) as (c'' & Hc'' & Hk''); auto.
      - unfold h1, l0. apply alloc_new.
      - congruence. }
    destruct (wf_obj _ Hwf) as [Hndk _].
    pose proof (shared_fields h h' P o (Heap.fields cd) (Heap.fields c') Ff Ff'
                  Hfd Hf' Hshare Hndk
                  (fun k t => overlay_scalar_override (VObj o) P o k t eq_refl Hndk Hso))
      as Hcaller.
    exists h1, (Heap.RRef l0), h', (l0 :: Ff'), (ld :: Ff').
    split; [exact Hcons|]. split; [discriminate|]. split.
    { intros _ Heq. injection Heq as Heq. unfold l0 in Heq. lia. }
    split; [exact Hh'|]. split; [exact Hholds|].
    split; [|split].
    + cbn [caller_view]. rewrite layout_obj, Hcd', Had. now rewrite Hcaller.
    + constructor; [|now inversion HndFc'].
      intros Hin. destruct (Hnew ld) as [H|H].
      * apply in_or_app. left. now right.
      * contradiction.
      * lia.
    + intros l [<-|Hl]; [lia|].
      apply Hb'. apply in_or_app. left. now right.
Qed.

Lemma reconciliation_writes_into_caller_object_witness :
  let D := VObj [("port", VNum 1234); ("logging", VObj [("level", VNum 0)])] in
  let P := VObj [("port", VNum 9999); ("logging", VObj [("level", VNum 10)])] in
  let h0 := fst (Heap.store [] D) in
  let d := snd (Heap.store [] D) in
  let h := fst (Heap.store h0 P) in
  let pr := snd (Heap.store h0 P) in
  (exists h' F,
      Heap.loadConfig 3 d pr h [] = Ok h'
      /\ Heap.holds h' d
           (VObj [("port", VNum 9999); ("logging", VObj [("level", VNum 10)])]) F)
  /\ (exists h1 config h' F,
         Heap.constructor Sync h d = (h1, config)
         /\ Heap.loadConfig 3 config pr h1 [] = Ok h'
         /\ Heap.holds h' d
              (VObj [("port", VNum 1234); ("logging", VObj [("level", VNum 10)])]) F).
Proof.
  intros D P h0 d h pr.
  assert (Hd : Heap.holds h d D [1; 0]).
  { split; [reflexivity|]. split.
    - repeat constructor; simpl; intuition discriminate.
    - simpl. intros l [<-|[<-|[]]]; lia. }
  assert (Hp : Heap.holds h pr P [3; 2]).
  { split; [reflexivity|]. split.
    - repeat constructor; simpl; intuition discriminate.
    - simpl. intros l [<-|[<-|[]]]; lia. }
  assert (Hapart : forall l, In l [1; 0] -> In l [3; 2] -> False).
  { simpl. intros l [<-|[<-|[]]] [H|[H|[]]]; discriminate. }
  split.
  - destruct (reconciliation_writes_into_caller_object
                Async h d pr D P P P [1; 0] [3; 2] Hd Hp Hapart
                eq_refl eq_refl eq_refl eq_refl eq_refl)
      as (h1 & config & h' & Fc & F & Hcons & _ & _ & Hrun & _ & Hcaller).
    injection Hcons as <- <-. exists h', F. split; [exact Hrun|exact Hcaller].
  - destruct (reconciliation_writes_into_caller_object
                Sync h d pr D P P P [1; 0] [3; 2] Hd Hp Hapart
                eq_refl eq_refl eq_refl eq_refl eq_refl)
      as (h1 & config & h' & Fc & F & Hcons & _ & _ & Hrun & _ & Hcaller).
    exists h1, config, h', F. split; [exact Hcons|]. split; [exact Hrun|exact Hcaller].
Defined.

(* ================================================================== *)
(** * Further properties of the path accessor *)

(** A write below a primitive root fails: [thing[next] = ...] on a
    primitive throws in strict mode. *)
Lemma set_primitive_throws p : forall x v,
  primitive x = true -> p <> [] -> setValueFromPath x p v = Throw TypeError.
Proof.
  induction p as [|k p IH]; intros x v Hx Hne; [congruence|].
  assert (Hw : forall w, write_prop x k w = Throw TypeError).
  { intros w. destruct x; try reflexivity; discriminate. }
  destruct p as [|k2 r].
  - rewrite set_one. apply Hw.
  - rewrite set_cons2.
    destruct (negb (truthy (read_prop x k))) eqn:Ef.
    + now rewrite Hw.
    + cbn [bind].
      assert (Hc : primitive (read_prop x k) = true).
      { destruct x; try discriminate; try reflexivity.
        cbn [read_prop].
        destruct (index_of_key k).
        - destruct (String.get n s); reflexivity.
        - destruct (String.eqb k "length"); reflexivity. }
      rewrite (IH _ v Hc) by discriminate. reflexivity.
Qed.

(** A write whose path runs through a truthy primitive fails. *)
Lemma set_through_primitive q : forall thing k r v,
  primitive (getValueFromPath thing q) = true ->
  (q = [] \/ truthy (getValueFromPath thing q) = true) ->
  setValueFromPath thing (q ++ k :: r) v = Throw TypeError.
Proof.
  induction q as [|k0 q IH]; intros thing k r v Hp Ht.
  - cbn [app]. apply set_primitive_throws; [exact Hp | discriminate].
  - destruct Ht as [Ht|Ht]; [discriminate|].
    assert (Htt : truthy thing = true).
    { destruct (truthy thing) eqn:E; auto.
      rewrite (get_falsy _ _ _ E) in Ht. discriminate. }
    rewrite get_cons in Hp, Ht by assumption.
    assert (Hc : truthy (read_prop thing k0) = true).
    { destruct q as [|k1 q]; [exact Ht|].
      destruct (truthy (read_prop thing k0)) eqn:E; auto.
      rewrite (get_falsy _ _ _ E) in Ht. discriminate. }
    change ((k0 :: q) ++ k :: r) with (k0 :: (q ++ k :: r)).
    destruct (q ++ k :: r) as [|k2 r2] eqn:Eq.
    { destruct q; discriminate. }
    rewrite set_cons2, Hc. cbn [negb bind].
    rewrite <- Eq, (IH _ k r v Hp (or_intror Ht)). reflexivity.
Qed.







(** X4. A write whose path runs through [undefined], [null], a boolean
    or a number throws a [TypeError]: always when the structure itself is
    one of these, and below the root when the accessor finds a truthy one
    (a non-zero number, [true]) on the way; the keys up to and including
    the one applied to the primitive name no inherited member.  Falsy
    values below the root are replaced by a fresh mapping instead. *)
Theorem setValueFromPath_through_primitive thing q k r v
  (Hprim : primitive (getValueFromPath thing q) = true)
  (Hnostr : forall s, getValueFromPath thing q <> VStr s)
  (Hroot : q = [] \/ truthy (getValueFromPath thing q) = true)
  (Hkeys : own_path (q ++ [k]) = true) :
  setValueFromPath thing (q ++ k :: r) v = Throw TypeError.
Proof. exact (set_through_primitive q thing k r v Hprim Hroot). Qed.

Lemma setValueFromPath_through_primitive_witness :
  setValueFromPath (VObj [("logging", VBool true)]) (["logging"] ++ "level" :: []) (VNum 3)
  = Throw TypeError
  /\ setValueFromPath VNull ([] ++ "port" :: []) (VNum 1) = Throw TypeError.
Proof.
  split.
  - apply (setValueFromPath_through_primitive
             (VObj [("logging", VBool true)]) ["logging"] "level" [] (VNum 3));
      [reflexivity | discriminate | right; reflexivity | reflexivity].
  - apply (setValueFromPath_through_primitive VNull [] "port" [] (VNum 1));
      [reflexivity | discriminate | left; reflexivity | reflexivity].
Defined.

(** X5. Reading a path in two stages gives what reading it at once gives:
    the value at [p ++ q] is the value at [q] of the value at [p]. *)
Theorem getValueFromPath_in_stages thing p q :
  getValueFromPath thing (p ++ q) = getValueFromPath (getValueFromPath thing p) q.
Proof. exact (get_app thing p q). Qed.

Lemma get_below_primitive x k r :
  primitive x = true -> (forall s, x <> VStr s) ->
  getValueFromPath x (k :: r) = VUndef.
Proof.
  intros Hx Hs.
  destruct x; try discriminate; cbn [getValueFromPath].
  - reflexivity.
  - reflexivity.
  - destruct (negb (truthy (VBool b))); [reflexivity|]. apply get_undef.
  - destruct (negb (truthy (VNum n))); [reflexivity|]. apply get_undef.
  - now elim (Hs s).
Qed.

(** X6. Below a primitive the accessor finds nothing.  Below
    [undefined], [null], a boolean or a number it returns [undefined] for
    every non-empty path whose first key names no inherited member, and
    so it does, for every non-empty path, below the empty string, whose
    [length] it does not reach. *)
Theorem getValueFromPath_below_primitive :
  (forall x k r, primitive x = true -> (forall s, x <> VStr s) ->
                 inherited k = false ->
                 getValueFromPath x (k :: r) = VUndef)
  /\ (forall k r, getValueFromPath (VStr "") (k :: r) = VUndef).
Proof.
  split.
  - intros x k r Hx Hs _. exact (get_below_primitive x k r Hx Hs).
  - intros k r. reflexivity.
Qed.

Lemma getValueFromPath_below_primitive_witness :
  getValueFromPath (VObj [("port", VNum 80)]) ["port"; "x"] = VUndef
  /\ getValueFromPath (VStr "") ["length"] = VUndef.
Proof.
  destruct getValueFromPath_below_primitive as (H1 & H2).
  split.
  - change (getValueFromPath (VNum 80) ("x" :: []) = VUndef).
    apply H1; [reflexivity | discriminate | reflexivity].
  - apply H2.
Defined.

(* ================================================================== *)
(** * Further properties of the reconciler *)

Lemma get_extends_undef t p r :
  getValueFromPath t p = VUndef -> getValueFromPath t (p ++ r) = VUndef.
Proof. intros H. rewrite get_app, H. apply get_undef. Qed.

(** What a write of a missing value leaves alone. *)
Lemma set_spares t p v t' q :
  setValueFromPath t p v = Ok t' -> getValueFromPath t p = VUndef ->
  spared (getValueFromPath t q) q p ->
  getValueFromPath t' q = getValueFromPath t q.
Proof.
  intros Hset Hmiss [Hd | (Hx & Hs)].
  - exact (set_get_diverge _ _ _ _ _ Hset Hd).
  - destruct (path_trichotomy p q) as [Hd | [(r & ->) | (k & r & ->)]].
    + exact (set_get_diverge _ _ _ _ _ Hset Hd).
    + elim Hx. now apply get_extends_undef.
    + destruct Hs as [(Hp & Ht) | Hn].
      * rewrite (set_through_primitive q t k r v Hp (or_intror Ht)) in Hset.
        discriminate.
      * elim Hn. exists k, r. reflexivity.
Qed.

(** What the walk over a subtree of the defaults leaves alone in the
    persisted structure. *)
Lemma backfill_spares thing : forall path pr pr' q,
  wf thing = true ->
  backfill thing path pr = Ok pr' ->
  (forall rest dv, lookup thing rest = Some dv -> walk_leaf dv = true ->
                   spared (getValueFromPath pr q) q (path ++ rest)) ->
  getValueFromPath pr' q = getValueFromPath pr q.
Proof.
  assert (Hleaf : forall t path pr pr' q,
             walk_leaf t = true ->
             (if is_undefined (getValueFromPath pr path)
              then setValueFromPath pr path t else Ok pr) = Ok pr' ->
             (forall rest dv, lookup t rest = Some dv -> walk_leaf dv = true ->
                              spared (getValueFromPath pr q) q (path ++ rest)) ->
             getValueFromPath pr' q = getValueFromPath pr q).
  { intros t path pr pr' q Hw H Hs.
    destruct (is_undefined (getValueFromPath pr path)) eqn:Eu.
    - apply (set_spares _ _ _ _ _ H).
      + destruct (getValueFromPath pr path); try discriminate. reflexivity.
      + specialize (Hs [] t eq_refl Hw). now rewrite app_nil_r in Hs.
    - now injection H as <-. }
  induction thing as [| | b | n | s | l _ | o IH] using value_nested_ind;
    intros path pr pr' q Hwf H Hs.
  - exact (Hleaf VUndef _ _ _ _ eq_refl H Hs).
  - now injection H as <-.
  - exact (Hleaf (VBool b) _ _ _ _ eq_refl H Hs).
  - exact (Hleaf (VNum n) _ _ _ _ eq_refl H Hs).
  - exact (Hleaf (VStr s) _ _ _ _ eq_refl H Hs).
  - discriminate.
  - rewrite backfill_obj in H.
    destruct (wf_obj _ Hwf) as [Hnd Hwfc]. clear Hwf.
    rewrite Forall_forall in IH.
    remember (getValueFromPath pr q) as x eqn:Ex.
    assert (Haux : forall todo, incl todo o -> forall pr1 pr2,
               getValueFromPath pr1 q = x ->
               backfill_fields todo path pr1 = Ok pr2 ->
               getValueFromPath pr2 q = x).
    { induction todo as [|[k c] todo IHt]; intros Hincl pr1 pr2 Hx H1; simpl in H1.
      - now injection H1 as <-.
      - apply bind_Ok_inv in H1. destruct H1 as (pr3 & H3 & H4).
        assert (Hin : In (k, c) o) by (apply Hincl; now left).
        apply (IHt (fun a Ha => Hincl a (or_intror Ha)) pr3 pr2); [|exact H4].
        rewrite <- Hx. cbn [fst snd] in H3.
        apply (IH (k, c) Hin _ _ _ _ (Hwfc _ Hin) H3).
        intros rest dv Hl Hw. rewrite Hx.
        replace ((path ++ [k]) ++ rest) with (path ++ k :: rest)
          by (rewrite <- app_assoc; reflexivity).
        apply (Hs (k :: rest) dv); [|exact Hw].
        cbn [lookup]. now rewrite (NoDup_assoc _ _ _ Hnd Hin). }
    exact (Haux o (incl_refl o) pr pr' (eq_sym Ex) H).
Qed.

Lemma not_undef_is_undefined x : x <> VUndef -> is_undefined x = false.
Proof. destruct x; auto. congruence. Qed.



(** X8. A missing default is backfilled.  With defaults whose keys are
    all ordinary: where they hold a boolean, a number or a string and the
    accessor finds nothing at that path of the persisted document, a
    successful reconciliation keeps the default in the merged
    configuration and writes it into the persisted document at that
    path. *)
Theorem missing_leaf_backfilled D P M P' p dv
  (Hwf : wf D = true) (Hobj : is_object D = true)
  (Hkeys : ordinary_keys D = true)
  (Hrun : reconcile D P = Ok (M, P'))
  (Hleaf : lookup D p = Some dv) (Hkind : walk_leaf dv = true)
  (Hmissing : getValueFromPath P p = VUndef) :
  lookup M p = Some dv /\ getValueFromPath P' p = dv.
Proof.
  pose proof (reconcile_leaf D P M P' p dv Hwf Hobj Hrun Hleaf Hkind) as H.
  now rewrite Hmissing in H.
Qed.

Lemma missing_leaf_backfilled_witness :
  let D := VObj [("port", VNum 1234); ("log", VObj [("level", VNum 0)])] in
  let P := VObj [("port", VNum 9999)] in
  exists M P',
    reconcile D P = Ok (M, P')
    /\ lookup M ["log"; "level"] = Some (VNum 0)
    /\ getValueFromPath P' ["log"; "level"] = VNum 0.
Proof.
  intros D P.
  exists (VObj [("port", VNum 9999); ("log", VObj [("level", VNum 0)])]),
         (VObj [("port", VNum 9999); ("log", VObj [("level", VNum 0)])]).
  split; [reflexivity|].
  apply (missing_leaf_backfilled D P _ _ ["log"; "level"] (VNum 0));
    reflexivity.
Defined.

Lemma scalar_primitive x : scalar x = true -> primitive x = true /\ x <> VUndef.
Proof. destruct x; try discriminate; split; auto; discriminate. Qed.

Lemma reconcile_keeps_scalar D P M P' q :
  wf D = true -> is_object D = true ->
  reconcile D P = Ok (M, P') ->
  scalar (getValueFromPath P q) = true ->
  (truthy (getValueFromPath P q) = true \/ forall o, lookup D q <> Some (VObj o)) ->
  getValueFromPath P' q = getValueFromPath P q.
Proof.
  intros Hwf Hobj Hrun Hx Hsafe.
  destruct (reconcile_Ok_inv _ _ _ _ Hwf (is_object_typeof _ Hobj) Hrun) as [_ Hb].
  destruct (scalar_primitive _ Hx) as [Hp Hu].
  apply (backfill_spares D [] P P' q Hwf Hb).
  intros rest dv Hl Hw. right. split; [exact Hu|].
  destruct Hsafe as [Ht | Hno]; [left; auto|].
  right. intros (k & r & E). cbn [app] in E. subst rest.
  destruct (lookup_prefix _ _ _ _ _ Hl) as [o Ho].
  exact (Hno o Ho).
Qed.



(** X10. A falsy value stored where the defaults hold a section is
    overwritten.  With defaults whose keys are all ordinary: when the
    accessor finds a falsy value ([null], [false], [0], the empty string,
    or nothing) at [q] of the persisted document and the defaults hold a
    leaf other than [undefined] below [q], a successful reconciliation
    leaves a truthy value at [q] holding that default. *)
Theorem falsy_section_replaced D P M P' q k r dv
  (Hwf : wf D = true) (Hobj : is_object D = true)
  (Hkeys : ordinary_keys D = true)
  (Hrun : reconcile D P = Ok (M, P'))
  (Hleaf : lookup D (q ++ k :: r) = Some dv) (Hkind : walk_leaf dv = true)
  (Hdef : dv <> VUndef)
  (Hfalsy : truthy (getValueFromPath P q) = false) :
  truthy (getValueFromPath P' q) = true
  /\ getValueFromPath P' (q ++ k :: r) = dv
  /\ lookup M (q ++ k :: r) = Some dv.
Proof.
  assert (Hmiss : getValueFromPath P (q ++ k :: r) = VUndef).
  { rewrite get_app. now apply get_falsy. }
  pose proof (reconcile_leaf D P M P' _ dv Hwf Hobj Hrun Hleaf Hkind) as H.
  rewrite Hmiss in H. cbn [is_undefined] in H. destruct H as [HM HP].
  split; [|split; assumption].
  destruct (truthy (getValueFromPath P' q)) eqn:E; auto.
  rewrite get_app, (get_falsy _ _ _ E) in HP. congruence.
Qed.

Lemma falsy_section_replaced_witness :
  let D := VObj [("log", VObj [("level", VNum 3)])] in
  let P := VObj [("log", VBool false)] in
  exists M P',
    reconcile D P = Ok (M, P')
    /\ getValueFromPath P ["log"] = VBool false
    /\ getValueFromPath P' (["log"] ++ "level" :: []) = VNum 3.
Proof.
  intros D P.
  assert (Hrun : reconcile D P = Ok (D, D)) by reflexivity.
  exists D, D. split; [exact Hrun|]. split; [reflexivity|].
  apply (falsy_section_replaced D P D D ["log"] "level" [] (VNum 3)
           eq_refl eq_refl eq_refl Hrun eq_refl eq_refl).
  - discriminate.
  - reflexivity.
Defined.

(** X11. A complete document is left as it is.  When the defaults hold no
    array and the accessor finds a value in the persisted document at
    every leaf of the defaults, reconciliation succeeds and the persisted
    structure it hands to the serializer is the one it was given, other
    keys and key order included. *)
Theorem complete_document_unchanged D P
  (Hwf : wf D = true) (Hobj : is_object D = true) (Haf : array_free D = true)
  (Hall : forall p dv, lookup D p = Some dv -> walk_leaf dv = true ->
                       getValueFromPath P p <> VUndef) :
  exists M, reconcile D P = Ok (M, P).
Proof.
  exists (overlay D P).
  rewrite (reconcile_refines _ _ Hwf (is_object_typeof _ Hobj)).
  rewrite (backfill_settled D [] P Hwf Haf); [reflexivity|].
  intros rest dv Hl Hw. apply not_undef_is_undefined. exact (Hall rest dv Hl Hw).
Qed.

Lemma complete_document_unchanged_witness :
  let D := VObj [("port", VNum 1234); ("log", VObj [("level", VNum 0)])] in
  let P := VObj [("extra", VArr [VNum 1]); ("log", VObj [("level", VNum 7)]);
                 ("port", VNull)] in
  exists M, reconcile D P = Ok (M, P).
Proof.
  intros D P.
  apply (complete_document_unchanged D P eq_refl eq_refl eq_refl).
  intros p dv Hl Hw.
  destruct p as [|k p]; [injection Hl as <-; discriminate|].
  cbn [lookup D assoc] in Hl.
  destruct (String.eqb k "port") eqn:E1.
  - apply String.eqb_eq in E1. subst k.
    destruct p; [discriminate | discriminate].
  - destruct (String.eqb k "log") eqn:E2; [|discriminate].
    apply String.eqb_eq in E2. subst k.
    destruct p as [|k2 p]; [injection Hl as <-; discriminate|].
    cbn [lookup assoc] in Hl.
    destruct (String.eqb k2 "level") eqn:E3; [|discriminate].
    apply String.eqb_eq in E3. subst k2.
    destruct p; discriminate.
Defined.



(** X13. [null] and the empty mapping in the defaults are inert.  Where
    the defaults hold [null] or [{}], a successful reconciliation leaves
    that value in the merged configuration whatever the persisted document
    holds there; and when the keys of the defaults are all ordinary, what
    the accessor finds at that path of the persisted document is what it
    found before: nothing is written there. *)
Theorem null_and_empty_defaults_inert D P M P' p dv
  (Hwf : wf D = true) (Hobj : is_object D = true)
  (Hrun : reconcile D P = Ok (M, P'))
  (Hat : lookup D p = Some dv)
  (Hkind : dv = VNull \/ dv = VObj []) :
  lookup M p = Some dv
  /\ (ordinary_keys D = true ->
      getValueFromPath P' p = getValueFromPath P p).
Proof.
  destruct (reconcile_Ok_inv _ _ _ _ Hwf (is_object_typeof _ Hobj) Hrun) as [-> Hb].
  split.
  - rewrite (overlay_lookup D P p dv Hat). destruct Hkind; subst dv; reflexivity.
  - intros _. apply (backfill_spares D [] P P' p Hwf Hb).
    intros rest lv Hl Hw. left. cbn [app].
    destruct (path_trichotomy rest p) as [Hd | [(r & ->) | (k & r & ->)]]; auto.
    + rewrite lookup_app, Hl in Hat.
      assert (Ho : is_object lv = false) by (destruct lv; auto; discriminate).
      destruct (lookup_leaf_nil _ _ _ Ho Hat) as [_ ->].
      destruct Hkind; subst lv; discriminate.
    + rewrite lookup_app, Hat in Hl.
      destruct Hkind; subst dv; discriminate.
Qed.

Lemma null_and_empty_defaults_inert_witness :
  let D := VObj [("proxy", VNull); ("plugins", VObj [])] in
  let P := VObj [("proxy", VStr "http://p"); ("plugins", VObj [("a", VNum 1)])] in
  exists M P',
    reconcile D P = Ok (M, P')
    /\ lookup M ["proxy"] = Some VNull
    /\ getValueFromPath P' ["plugins"] = getValueFromPath P ["plugins"].
Proof.
  intros D P.
  assert (Hrun : reconcile D P = Ok (D, P)) by reflexivity.
  exists D, P. split; [exact Hrun|]. split.
  - exact (proj1 (null_and_empty_defaults_inert D P D P ["proxy"] VNull
                    eq_refl eq_refl Hrun eq_refl (or_introl eq_refl))).
  - exact (proj2 (null_and_empty_defaults_inert D P D P ["plugins"] (VObj [])
                    eq_refl eq_refl Hrun eq_refl (or_intror eq_refl)) eq_refl).
Defined.

(** A write of a missing value removes no key path. *)
Lemma set_keeps_paths p : forall t v t' q,
  setValueFromPath t p v = Ok t' -> getValueFromPath t p = VUndef ->
  has_path t q -> has_path t' q.
Proof.
  unfold has_path.
  induction p as [|k p IH]; intros t v t' q Hset Hmiss Hq.
  - cbn in Hset. now injection Hset as <-.
  - destruct q as [|kq q]; [discriminate|].
    cbn [lookup] in Hq. destruct t as [| | | | | |o]; try congruence.
    destruct (assoc kq o) as [c|] eqn:Ec; [|congruence].
    assert (Hother : forall new, kq <> k ->
              lookup (VObj (assoc_set k new o)) (kq :: q) <> None).
    { intros new Hne. cbn [lookup]. rewrite (assoc_set_other k kq new o Hne), Ec.
      exact Hq. }
    assert (Hscalar : kq = k -> truthy c = false -> q = []).
    { intros _ Hf. destruct q as [|k3 q]; auto.
      destruct c; try discriminate; cbn [lookup] in Hq; congruence. }
    destruct (String.eqb kq k) eqn:E;
      [apply String.eqb_eq in E | apply String.eqb_neq in E].
    + subst kq.
      assert (Hread : read_prop (VObj o) k = c).
      { cbn [read_prop]. now rewrite Ec. }
      destruct p as [|k2 r].
      * rewrite set_one in Hset. cbn [write_prop] in Hset. injection Hset as <-.
        cbn [getValueFromPath truthy negb] in Hmiss. rewrite Hread in Hmiss. subst c.
        rewrite (Hscalar eq_refl eq_refl).
        cbn [lookup]. rewrite assoc_set_same. discriminate.
      * destruct (truthy c) eqn:Et.
        -- rewrite set_truthy_step in Hset by now rewrite Hread.
           rewrite Hread in Hset.
           apply bind_Ok_inv in Hset. destruct Hset as (child & Hc & Hset).
           injection Hset as <-.
           cbn [lookup]. rewrite assoc_set_same.
           apply (IH c v child q Hc); [|exact Hq].
           rewrite get_cons in Hmiss by reflexivity. now rewrite Hread in Hmiss.
        -- rewrite set_falsy_step in Hset by now rewrite Hread.
           injection Hset as <-.
           rewrite (Hscalar eq_refl eq_refl).
           cbn [lookup]. rewrite assoc_set_same. discriminate.
    + destruct p as [|k2 r].
      * rewrite set_one in Hset. cbn [write_prop] in Hset. injection Hset as <-.
        now apply Hother.
      * destruct (truthy (read_prop (VObj o) k)) eqn:Et.
        -- rewrite set_truthy_step in Hset by exact Et.
           apply bind_Ok_inv in Hset. destruct Hset as (child & Hc & Hset).
           injection Hset as <-. now apply Hother.
        -- rewrite set_falsy_step in Hset by exact Et.
           injection Hset as <-. now apply Hother.
Qed.

Lemma backfill_keeps_paths thing : forall path pr pr' q,
  backfill thing path pr = Ok pr' -> has_path pr q -> has_path pr' q.
Proof.
  assert (Hleaf : forall t path pr pr' q,
             (if is_undefined (getValueFromPath pr path)
              then setValueFromPath pr path t else Ok pr) = Ok pr' ->
             has_path pr q -> has_path pr' q).
  { intros t path pr pr' q H Hq.
    destruct (is_undefined (getValueFromPath pr path)) eqn:Eu.
    - apply (set_keeps_paths _ _ _ _ _ H); [|exact Hq].
      destruct (getValueFromPath pr path); try discriminate. reflexivity.
    - now injection H as <-. }
  induction thing as [| | b | n | s | l _ | o IH] using value_nested_ind;
    intros path pr pr' q H Hq.
  - exact (Hleaf VUndef _ _ _ _ H Hq).
  - now injection H as <-.
  - exact (Hleaf (VBool b) _ _ _ _ H Hq).
  - exact (Hleaf (VNum n) _ _ _ _ H Hq).
  - exact (Hleaf (VStr s) _ _ _ _ H Hq).
  - discriminate.
  - rewrite backfill_obj in H. revert pr H Hq.
    induction IH as [|kv r Hkv _ IHr]; intros pr H Hq; simpl in H.
    + now injection H as <-.
    + apply bind_Ok_inv in H. destruct H as (pr1 & H1 & H2).
      apply (IHr _ H2). exact (Hkv _ _ _ _ H1 Hq).
Qed.

(** X14. Reconciliation removes no key from the persisted document: every
    key path of the document it was given is a key path of the document
    it hands to the serializer. *)
Theorem persisted_keys_never_removed D P M P' q
  (Hwf : wf D = true) (Hobj : is_object D = true)
  (Hrun : reconcile D P = Ok (M, P'))
  (Hq : has_path P q) :
  has_path P' q.
Proof.
  destruct (reconcile_Ok_inv _ _ _ _ Hwf (is_object_typeof _ Hobj) Hrun) as [_ Hb].
  exact (backfill_keeps_paths D [] P P' q Hb Hq).
Qed.

Lemma persisted_keys_never_removed_witness :
  let D := VObj [("log", VObj [("level", VNum 3)])] in
  let P := VObj [("log", VNum 0); ("user", VObj [("name", VStr "x")])] in
  exists M P',
    reconcile D P = Ok (M, P')
    /\ has_path P' ["user"; "name"] /\ has_path P' ["log"].
Proof.
  intros D P.
  assert (Hrun : reconcile D P
                 = Ok (D, VObj [("log", VObj [("level", VNum 3)]);
                                ("user", VObj [("name", VStr "x")])]))
    by reflexivity.
  eexists. eexists. split; [exact Hrun|]. split.
  - apply (persisted_keys_never_removed D P _ _ ["user"; "name"] eq_refl eq_refl Hrun).
    discriminate.
  - apply (persisted_keys_never_removed D P _ _ ["log"] eq_refl eq_refl Hrun).
    discriminate.
Defined.

(* ------------------------------------------------------------------ *)
(** ** How the reconciliation fails *)

Lemma write_prop_throw thing k v e : write_prop thing k v = Throw e -> e = TypeError.
Proof.
  destruct thing; cbn [write_prop]; try congruence.
  destruct (index_of_key k); [destruct (Nat.ltb _ _)|]; discriminate.
Qed.

(** The only exception a write raises is the [TypeError]. *)
Lemma set_throw p : forall thing v e,
  setValueFromPath thing p v = Throw e -> e = TypeError.
Proof.
  induction p as [|k p IH]; intros thing v e H; [discriminate|].
  destruct p as [|k2 r].
  - rewrite set_one in H. exact (write_prop_throw _ _ _ _ H).
  - rewrite set_cons2 in H.
    destruct (if negb (truthy (read_prop thing k)) then _ else _) as [t1|e1| |] eqn:E1;
      try discriminate.
    + cbn [bind] in H.
      destruct (setValueFromPath (read_prop t1 k) (k2 :: r) v) as [c|e2| |] eqn:Ec;
        try discriminate; cbn [bind] in H.
      * exact (write_prop_throw _ _ _ _ H).
      * injection H as <-. exact (IH _ _ _ Ec).
    + cbn [bind] in H. injection H as <-.
      destruct (negb (truthy (read_prop thing k))); [|discriminate].
      exact (write_prop_throw _ _ _ _ E1).
Qed.

Lemma backfill_throw thing : forall path pr e,
  backfill thing path pr = Throw e -> e = TypeError \/ e = ArraysNotSupported.
Proof.
  assert (Hleaf : forall (t : value) path pr e,
             (if is_undefined (getValueFromPath pr path)
              then setValueFromPath pr path t else Ok pr) = Throw e ->
             e = TypeError \/ e = ArraysNotSupported).
  { intros t path pr e H.
    destruct (is_undefined (getValueFromPath pr path)); [|discriminate].
    left. exact (set_throw _ _ _ _ H). }
  induction thing as [| | b | n | s | l _ | o IH] using value_nested_ind;
    intros path pr e H.
  - exact (Hleaf VUndef _ _ _ H).
  - discriminate.
  - exact (Hleaf (VBool b) _ _ _ H).
  - exact (Hleaf (VNum n) _ _ _ H).
  - exact (Hleaf (VStr s) _ _ _ H).
  - injection H as <-. now right.
  - rewrite backfill_obj in H. revert pr H.
    induction IH as [|kv r Hkv _ IHr]; intros pr H; simpl in H; [discriminate|].
    destruct (backfill (snd kv) (path ++ [fst kv]) pr) as [pr1|e1| |] eqn:E1;
      try discriminate; cbn [bind] in H.
    + exact (IHr _ H).
    + injection H as <-. exact (Hkv _ _ _ E1).
Qed.

Lemma array_free_assoc k o c :
  forallb (fun kv => array_free (snd kv)) o = true -> assoc k o = Some c ->
  array_free c = true.
Proof.
  induction o as [|[k0 c0] o IH]; simpl; [discriminate|].
  intros H. apply andb_true_iff in H. destruct H as [H0 H1].
  destruct (String.eqb k k0); [intros [= <-]; exact H0 | now apply IH].
Qed.

Lemma array_free_assoc_set k v o :
  forallb (fun kv => array_free (snd kv)) o = true -> array_free v = true ->
  forallb (fun kv => array_free (snd kv)) (assoc_set k v o) = true.
Proof.
  intros Ho Hv. induction o as [|[k0 c0] o IH]; simpl in *.
  - now rewrite Hv.
  - apply andb_true_iff in Ho. destruct Ho as [H0 H1].
    destruct (String.eqb k k0); simpl.
    + now rewrite Hv, H1.
    + now rewrite H0, IH.
Qed.

Lemma array_free_read t k : array_free t = true -> array_free (read_prop t k) = true.
Proof.
  destruct t; cbn [read_prop]; auto; try discriminate.
  - intros _. destruct (index_of_key k).
    + destruct (String.get n s); reflexivity.
    + destruct (String.eqb k "length"); reflexivity.
  - cbn [array_free]. intros H.
    destruct (assoc k props) as [c|] eqn:E; [|reflexivity].
    exact (array_free_assoc _ _ _ H E).
Qed.

Lemma array_free_write t k v :
  array_free t = true -> array_free v = true ->
  write_prop t k v <> Untracked
  /\ forall t', write_prop t k v = Ok t' -> array_free t' = true.
Proof.
  intros Ht Hv. destruct t; cbn [write_prop]; try (split; [discriminate|discriminate]).
  split; [discriminate|]. intros t' [= <-]. cbn [array_free] in *.
  now apply array_free_assoc_set.
Qed.

(** On a structure without arrays every step of a write is followed. *)
Lemma set_tracked p : forall t v,
  array_free t = true -> array_free v = true ->
  setValueFromPath t p v <> Untracked
  /\ forall t', setValueFromPath t p v = Ok t' -> array_free t' = true.
Proof.
  induction p as [|k p IH]; intros t v Ht Hv.
  - cbn. split; [discriminate|]. now intros t' [= <-].
  - destruct p as [|k2 r].
    + rewrite set_one. now apply array_free_write.
    + rewrite set_cons2.
      assert (H1 : (exists t1, (if negb (truthy (read_prop t k))
                                then write_prop t k (VObj []) else Ok t) = Ok t1
                               /\ array_free t1 = true)
               \/ exists e, (if negb (truthy (read_prop t k))
                             then write_prop t k (VObj []) else Ok t) = Throw e).
      { destruct (negb (truthy (read_prop t k))).
        - destruct (array_free_write t k (VObj []) Ht eq_refl) as [Hn Hok].
          destruct (write_prop t k (VObj [])) as [t1|e| |] eqn:E.
          + left. exists t1. split; auto.
          + right. now exists e.
          + destruct t; discriminate.
          + congruence.
        - left. exists t. auto. }
      destruct H1 as [(t1 & -> & Ht1) | (e & ->)]; [|split; discriminate].
      cbn [bind].
      destruct (IH (read_prop t1 k) v (array_free_read _ k Ht1) Hv) as [Hn Hok].
      destruct (setValueFromPath (read_prop t1 k) (k2 :: r) v) as [c|e| |] eqn:Ec;
        cbn [bind].
      * apply (array_free_write t1 k c Ht1). now apply Hok.
      * split; discriminate.
      * split; discriminate.
      * congruence.
Qed.

Lemma backfill_tracked thing : forall path pr,
  array_free pr = true ->
  backfill thing path pr <> Untracked
  /\ forall pr', backfill thing path pr = Ok pr' -> array_free pr' = true.
Proof.
  assert (Hleaf : forall (t : value) path pr,
             array_free t = true -> array_free pr = true ->
             (if is_undefined (getValueFromPath pr path)
              then setValueFromPath pr path t else Ok pr) <> Untracked
             /\ forall pr',
                 (if is_undefined (getValueFromPath pr path)
                  then setValueFromPath pr path t else Ok pr) = Ok pr' ->
                 array_free pr' = true).
  { intros t path pr Ht Hpr.
    destruct (is_undefined (getValueFromPath pr path)).
    - now apply set_tracked.
    - split; [discriminate|]. now intros pr' [= <-]. }
  induction thing as [| | b | n | s | l _ | o IH] using value_nested_ind;
    intros path pr Hpr.
  - exact (Hleaf VUndef _ _ eq_refl Hpr).
  - split; [discriminate|]. now intros pr' [= <-].
  - exact (Hleaf (VBool b) _ _ eq_refl Hpr).
  - exact (Hleaf (VNum n) _ _ eq_refl Hpr).
  - exact (Hleaf (VStr s) _ _ eq_refl Hpr).
  - split; discriminate.
  - rewrite backfill_obj. revert pr Hpr.
    induction IH as [|kv r Hkv _ IHr]; intros pr Hpr; simpl.
    + split; [discriminate|]. now intros pr' [= <-].
    + destruct (Hkv (path ++ [fst kv]) pr Hpr) as [Hn Hok].
      destruct (backfill (snd kv) (path ++ [fst kv]) pr) as [pr1|e| |] eqn:E1;
        cbn [bind].
      * apply IHr. now apply Hok.
      * split; discriminate.
      * split; discriminate.
      * congruence.
Qed.

(** The outcome of a reconciliation that does not succeed, on defaults
    and a persisted document without arrays, is the [TypeError]. *)
Lemma reconcile_failure D P :
  wf D = true -> is_object D = true ->
  array_free D = true -> array_free P = true ->
  (forall M P', reconcile D P <> Ok (M, P')) ->
  reconcile D P = Throw TypeError.
Proof.
  intros Hwf Hobj HD HP Hno.
  pose proof (reconcile_refines D P Hwf (is_object_typeof _ Hobj)) as Hr.
  destruct (backfill_tracked D [] P HP) as [Hn _].
  pose proof (backfill_not_OutOfFuel D [] P) as Hf.
  pose proof (backfill_array_free D [] P HD) as Ha.
  destruct (backfill D [] P) as [P'|e| |] eqn:Eb; cbn [bind] in Hr.
  - elim (Hno _ _ Hr).
  - destruct (backfill_throw _ _ _ _ Eb) as [-> | ->]; congruence.
  - congruence.
  - congruence.
Qed.

(** X15. A persisted document of the wrong shape makes reconciliation
    fail.  With defaults whose keys are all ordinary: when they hold a
    leaf other than [undefined] below [q], and the accessor finds a
    non-zero number or [true] at [q] of the persisted document (and so
    nothing at the leaf's path), reconciliation does not succeed; when
    neither structure holds an array it throws a [TypeError]. *)
Theorem shape_conflict_throws D P q k r dv
  (Hwf : wf D = true) (Hobj : is_object D = true)
  (Hkeys : ordinary_keys D = true)
  (Hleaf : lookup D (q ++ k :: r) = Some dv) (Hkind : walk_leaf dv = true)
  (Hdef : dv <> VUndef)
  (Hscalar : scalar (getValueFromPath P q) = true)
  (Hnostr : forall s, getValueFromPath P q <> VStr s)
  (Htruthy : truthy (getValueFromPath P q) = true)
  (Hmiss : getValueFromPath P (q ++ k :: r) = VUndef) :
  (forall M P', reconcile D P <> Ok (M, P'))
  /\ (array_free D = true -> array_free P = true ->
      reconcile D P = Throw TypeError).
Proof.
  assert (Hno : forall M P', reconcile D P <> Ok (M, P')).
  { intros M P' Hrun.
    pose proof (reconcile_leaf D P M P' _ dv Hwf Hobj Hrun Hleaf Hkind) as [_ H].
    rewrite Hmiss in H. cbn [is_undefined] in H.
    pose proof (reconcile_keeps_scalar D P M P' q Hwf Hobj Hrun Hscalar
                  (or_introl Htruthy)) as Hk.
    rewrite get_app, Hk, <- get_app, Hmiss in H. congruence. }
  split; [exact Hno|].
  intros HD HP. now apply reconcile_failure.
Qed.

Lemma shape_conflict_throws_witness :
  reconcile (VObj [("port", VNum 1); ("log", VObj [("level", VNum 3)])])
            (VObj [("log", VBool true)])
  = Throw TypeError.
Proof.
  apply (shape_conflict_throws
           (VObj [("port", VNum 1); ("log", VObj [("level", VNum 3)])])
           (VObj [("log", VBool true)]) ["log"] "level" [] (VNum 3)
           eq_refl eq_refl eq_refl eq_refl eq_refl);
    try reflexivity; discriminate.
Defined.

(* ------------------------------------------------------------------ *)
(** ** The first run: an empty persisted document *)

Lemma prune_obj o : prune (VObj o) = VObj (prune_fields o).
Proof.
  reflexivity.
Qed.

Lemma assoc_set_new k v o : assoc k o = None -> assoc_set k v o = o ++ [(k, v)].
Proof.
  induction o as [|[k0 c0] o IH]; simpl; auto.
  destruct (String.eqb k k0); [discriminate|]. intros H. now rewrite IH.
Qed.

Lemma assoc_app_new k v o : assoc k o = None -> assoc k (o ++ [(k, v)]) = Some v.
Proof.
  induction o as [|[k0 c0] o IH]; simpl.
  - now rewrite String.eqb_refl.
  - destruct (String.eqb k k0); [discriminate|]. exact IH.
Qed.

Lemma assoc_app_other k k' v o :
  k' <> k -> assoc k' (o ++ [(k, v)]) = assoc k' o.
Proof.
  intros Hne. induction o as [|[k0 c0] o IH]; simpl.
  - destruct (String.eqb k' k) eqn:E; auto. apply String.eqb_eq in E. contradiction.
  - destruct (String.eqb k' k0); auto.
Qed.

Lemma chain_snoc rest k v : chain (rest ++ [k]) v = chain rest (VObj [(k, v)]).
Proof. induction rest as [|k0 rest IH]; simpl; auto. now rewrite IH. Qed.

Lemma lookup_chain rest v : lookup (chain rest v) rest = Some v.
Proof.
  induction rest as [|k rest IH]; simpl; auto. now rewrite String.eqb_refl.
Qed.

Lemma update_chain rest v w : update (chain rest v) rest w = chain rest w.
Proof.
  induction rest as [|k rest IH]; simpl; auto.
  now rewrite String.eqb_refl, IH.
Qed.

Lemma lookup_object_truthy t p o : lookup t p = Some (VObj o) -> truthy t = true.
Proof.
  destruct p as [|k p]; simpl.
  - now intros [= ->].
  - destruct t; try discriminate. reflexivity.
Qed.

(** Where the mapping at [path] lacks the key [k], the accessor finds
    nothing below that key, and a write below it adds the key with the
    nest of mappings that leads to the written value. *)
Lemma branch_missing path : forall root po k rest,
  lookup root path = Some (VObj po) -> assoc k po = None ->
  getValueFromPath root (path ++ k :: rest) = VUndef.
Proof.
  intros root po k rest Hl Hk.
  rewrite get_app, (lookup_get _ _ _ Hl), get_cons by reflexivity.
  cbn [read_prop]. rewrite Hk. apply get_undef.
Qed.

Lemma set_new_branch path : forall root po k rest v,
  lookup root path = Some (VObj po) -> assoc k po = None ->
  setValueFromPath root (path ++ k :: rest) v
  = Ok (update root path (VObj (po ++ [(k, chain rest v)]))).
Proof.
  induction path as [|k0 path IH]; intros root po k rest v Hl Hk.
  - cbn [lookup] in Hl. injection Hl as ->. cbn [app update].
    rewrite <- (assoc_set_new _ _ _ Hk).
    destruct rest as [|k2 r].
    + reflexivity.
    + apply set_falsy_step. cbn [read_prop]. now rewrite Hk.
  - cbn [lookup] in Hl. destruct root as [| | | | | |o0]; try discriminate.
    destruct (assoc k0 o0) as [c|] eqn:Ec; [|discriminate].
    change ((k0 :: path) ++ k :: rest) with (k0 :: (path ++ k :: rest)).
    destruct (path ++ k :: rest) as [|k2 r2] eqn:Eq.
    { destruct path; discriminate. }
    rewrite set_truthy_step.
    + cbn [read_prop]. rewrite Ec. cbn [opt_value].
      rewrite <- Eq, (IH c po k rest v Hl Hk). cbn [bind update]. now rewrite Ec.
    + cbn [read_prop]. rewrite Ec. exact (lookup_object_truthy _ _ _ Hl).
Qed.

Lemma update_grown root path po k rest old new :
  lookup root path = Some (VObj po) -> assoc k po = None ->
  update (update root path (VObj (po ++ [(k, chain rest old)]))) (path ++ k :: rest) new
  = update root path (VObj (po ++ [(k, chain rest new)])).
Proof.
  intros Hl Hk.
  rewrite (update_app _ path (VObj (po ++ [(k, chain rest old)])))
    by exact (lookup_update_root _ _ _ _ Hl).
  rewrite (update_twice _ _ _ _ _ Hl). f_equal.
  cbn [update]. rewrite (assoc_app_new _ _ _ Hk), update_chain.
  f_equal.
  assert (Hn : ~ In k (map fst po)) by now apply assoc_None_notin.
  rewrite (assoc_set_app_notin _ _ _ _ Hn). cbn [assoc_set].
  now rewrite String.eqb_refl.
Qed.

Lemma lookup_grown root path po k rest v :
  lookup root path = Some (VObj po) -> assoc k po = None ->
  lookup (update root path (VObj (po ++ [(k, chain rest v)]))) (path ++ k :: rest)
  = Some v.
Proof.
  intros Hl Hk. rewrite (lookup_update _ _ _ _ _ Hl).
  cbn [lookup]. rewrite (assoc_app_new _ _ _ Hk). apply lookup_chain.
Qed.

(** The walk over the fields [todo] of a mapping that the persisted
    structure already has at [pth], where it holds [done]. *)
Lemma fill_existing todo : forall root pth done,
  Forall (fun kv => grows (snd kv)) todo ->
  (forall kv, In kv todo -> wf (snd kv) = true /\ array_free (snd kv) = true) ->
  NoDup (map fst todo) ->
  lookup root pth = Some (VObj done) ->
  (forall kv, In kv todo -> assoc (fst kv) done = None) ->
  backfill_fields todo pth root
  = Ok (update root pth (VObj (done ++ prune_fields todo))).
Proof.
  induction todo as [|[k t] todo IH]; intros root pth done Hg Hok Hnd Hl Hnew.
  - cbn [backfill_fields prune_fields]. rewrite app_nil_r.
    now rewrite (update_same _ _ _ Hl).
  - cbn [backfill_fields prune_fields fst snd].
    inversion Hg as [|? ? Hgt Hg']; subst.
    cbn [map fst] in Hnd. inversion Hnd as [|? ? Hnotin Hnd']; subst.
    destruct (Hok (k, t) (or_introl eq_refl)) as [Hwf Haf]. cbn [snd] in *.
    pose proof (Hnew (k, t) (or_introl eq_refl)) as Hk. cbn [fst] in Hk.
    rewrite <- (app_nil_l [k]) at 1.
    change (pth ++ [] ++ [k]) with (pth ++ k :: []).
    rewrite (Hgt Hwf Haf root pth done k [] Hl Hk).
    destruct (has_leaf t); cbn [bind chain].
    + rewrite (IH _ pth (done ++ [(k, prune t)]) Hg'
                 (fun kv Hin => Hok kv (or_intror Hin)) Hnd'
                 (lookup_update_root _ _ _ _ Hl)).
      * rewrite (update_twice _ _ _ _ _ Hl). now rewrite <- app_assoc.
      * intros kv Hin. rewrite assoc_app_other.
        -- apply Hnew. now right.
        -- intros E. apply Hnotin. rewrite <- E. now apply in_map.
    + apply (IH root pth done Hg' (fun kv Hin => Hok kv (or_intror Hin)) Hnd' Hl).
      intros kv Hin. apply Hnew. now right.
Qed.

(** The walk over the fields [todo] of a mapping that the persisted
    structure does not have yet: the first leaf reached creates it. *)
Lemma fill_missing todo : forall root path po k rest,
  Forall (fun kv => grows (snd kv)) todo ->
  (forall kv, In kv todo -> wf (snd kv) = true /\ array_free (snd kv) = true) ->
  NoDup (map fst todo) ->
  lookup root path = Some (VObj po) -> assoc k po = None ->
  backfill_fields todo (path ++ k :: rest) root
  = if existsb (fun kv => has_leaf (snd kv)) todo
    then Ok (update root path (VObj (po ++ [(k, chain rest (VObj (prune_fields todo)))])))
    else Ok root.
Proof.
  induction todo as [|[k1 t1] todo IH]; intros root path po k rest Hg Hok Hnd Hl Hk.
  - reflexivity.
  - cbn [backfill_fields prune_fields existsb fst snd].
    inversion Hg as [|? ? Hgt Hg']; subst.
    cbn [map fst] in Hnd. inversion Hnd as [|? ? Hnotin Hnd']; subst.
    destruct (Hok (k1, t1) (or_introl eq_refl)) as [Hwf Haf]. cbn [snd] in *.
    replace ((path ++ k :: rest) ++ [k1]) with (path ++ k :: (rest ++ [k1]))
      by (rewrite <- app_assoc; reflexivity).
    rewrite (Hgt Hwf Haf root path po k (rest ++ [k1]) Hl Hk).
    destruct (has_leaf t1); cbn [bind orb].
    + rewrite chain_snoc.
      rewrite (fill_existing todo _ (path ++ k :: rest) [(k1, prune t1)] Hg'
                 (fun kv Hin => Hok kv (or_intror Hin)) Hnd'
                 (lookup_grown _ _ _ _ _ _ Hl Hk)).
      * now rewrite (update_grown _ _ _ _ _ _ _ Hl Hk).
      * intros kv Hin. cbn [assoc].
        destruct (String.eqb (fst kv) k1) eqn:E; auto.
        apply String.eqb_eq in E. elim Hnotin. rewrite <- E. now apply in_map.
    + apply (IH root path po k rest Hg' (fun kv Hin => Hok kv (or_intror Hin)) Hnd' Hl Hk).
Qed.

Lemma obj_children_ok o :
  wf (VObj o) = true -> array_free (VObj o) = true ->
  NoDup (map fst o)
  /\ forall kv, In kv o -> wf (snd kv) = true /\ array_free (snd kv) = true.
Proof.
  intros Hwf Haf. destruct (wf_obj _ Hwf) as [Hnd Hc]. split; auto.
  intros kv Hin. split; auto.
  cbn [array_free] in Haf. rewrite forallb_forall in Haf. now apply Haf.
Qed.

Lemma backfill_grows thing : grows thing.
Proof.
  assert (Hleaf : forall t, walk_leaf t = true -> has_leaf t = true -> prune t = t ->
            forall root path po k rest,
              lookup root path = Some (VObj po) -> assoc k po = None ->
              (if is_undefined (getValueFromPath root (path ++ k :: rest))
               then setValueFromPath root (path ++ k :: rest) t else Ok root)
              = Ok (update root path (VObj (po ++ [(k, chain rest t)])))).
  { intros t _ _ _ root path po k rest Hl Hk.
    rewrite (branch_missing _ _ _ _ rest Hl Hk). cbn [is_undefined].
    exact (set_new_branch _ _ _ _ _ _ Hl Hk). }
  induction thing as [| | b | n | s | l _ | o IH] using value_nested_ind;
    intros Hwf Haf root path po k rest Hl Hk.
  - exact (Hleaf VUndef eq_refl eq_refl eq_refl _ _ _ _ _ Hl Hk).
  - reflexivity.
  - exact (Hleaf (VBool b) eq_refl eq_refl eq_refl _ _ _ _ _ Hl Hk).
  - exact (Hleaf (VNum n) eq_refl eq_refl eq_refl _ _ _ _ _ Hl Hk).
  - exact (Hleaf (VStr s) eq_refl eq_refl eq_refl _ _ _ _ _ Hl Hk).
  - discriminate.
  - destruct (obj_children_ok _ Hwf Haf) as [Hnd Hc].
    rewrite backfill_obj, prune_obj. cbn [has_leaf].
    exact (fill_missing o root path po k rest IH Hc Hnd Hl Hk).
Qed.

(** Against an empty document the walk produces the pruned defaults. *)
Lemma backfill_empty D :
  wf D = true -> is_object D = true -> array_free D = true ->
  backfill D [] (VObj []) = Ok (prune D).
Proof.
  intros Hwf Hobj Haf. destruct D as [| | | | | |o]; try discriminate.
  destruct (obj_children_ok _ Hwf Haf) as [Hnd Hc].
  rewrite backfill_obj, prune_obj.
  rewrite (fill_existing o (VObj []) [] []); auto.
  - rewrite Forall_forall. intros kv _. apply backfill_grows.
Qed.

Lemma overlay_nothing d : forall pv,
  (forall k r, getValueFromPath pv (k :: r) = VUndef) ->
  is_object d = true \/ pv = VUndef ->
  overlay d pv = d.
Proof.
  induction d as [| | b | n | s | l _ | o IH] using value_nested_ind;
    intros pv Hpv Hor;
    try reflexivity;
    try (destruct Hor as [Hor | ->]; [discriminate | reflexivity]).
  cbn [overlay]. f_equal. clear Hor.
  induction IH as [|[k c] r Hc _ IHr]; cbn [map]; auto.
  f_equal; auto. cbn [fst snd] in *. f_equal.
  rewrite (Hpv k []). apply Hc; [intros k' r'; apply get_undef | now right].
Qed.

Lemma plain_prune v : plain v = true -> has_leaf v = true /\ prune v = v.
Proof.
  induction v as [| | b | n | s | l _ | o IH] using value_nested_ind;
    try discriminate; try (split; reflexivity).
  intros Hp. cbn [plain] in Hp. rewrite prune_obj. cbn [has_leaf].
  destruct o as [|kv0 o0]; [discriminate|].
  assert (Hall : forall kv, In kv (kv0 :: o0) ->
                            has_leaf (snd kv) = true /\ prune (snd kv) = snd kv).
  { rewrite Forall_forall in IH. rewrite forallb_forall in Hp.
    intros kv Hin. apply (IH kv Hin). now apply Hp. }
  split.
  - apply existsb_exists. exists kv0. split; [now left|].
    apply (Hall kv0). now left.
  - f_equal. clear Hp IH. induction (kv0 :: o0) as [|[k c] r IHr]; simpl; auto.
    destruct (Hall (k, c) (or_introl eq_refl)) as [H1 H2]. cbn [snd] in *.
    rewrite H1, H2. f_equal. apply IHr. intros kv Hin. apply Hall. now right.
Qed.

Lemma plain_fields_prune o : plain_fields o = true -> prune (VObj o) = VObj o.
Proof.
  intros Hp. rewrite prune_obj. f_equal. unfold plain_fields in Hp.
  induction o as [|[k c] r IH]; simpl in *; auto.
  apply andb_true_iff in Hp. destruct Hp as [Hc Hr].
  destruct (plain_prune c Hc) as [H1 H2]. rewrite H1, H2. f_equal. now apply IH.
Qed.

(** X16. The first run.  With a missing or empty file (read as the empty
    document) and defaults that hold no array and whose keys are all
    ordinary, [init] keeps the defaults
    as the merged configuration and writes, as its last write, the
    defaults without their [null] leaves and without the mappings in
    which the walk reaches no leaf; when every leaf is a boolean, a number
    or a string and no nested mapping is empty, that is the defaults
    themselves, key order included. *)
Theorem first_run_writes_defaults J v D w
  (Hwf : wf D = true) (Hobj : is_object D = true) (Haf : array_free D = true)
  (Hkeys : ordinary_keys D = true)
  (Hfile : disk w = None \/ disk w = Some "")
  (Hparse : JSON_parse J "{}" = Some (VObj [])) :
  init J v (constructor v D) w
  = (writeFileSync (JSON_stringify J (prune D)) (ensure_file w),
     Ok {| initialized := true; config := D |})
  /\ (forall o, D = VObj o -> plain_fields o = true -> prune D = D).
Proof.
  split.
  - assert (Htext : read_text w = "{}").
    { unfold read_text. destruct Hfile as [-> | ->]; reflexivity. }
    rewrite init_fresh, Htext, Hparse, (adopt_object v D Hobj).
    replace (adopt v (VObj [])) with (VObj []) by (destruct v; reflexivity).
    rewrite (reconcile_refines _ _ Hwf (is_object_typeof _ Hobj)).
    rewrite (backfill_empty D Hwf Hobj Haf). cbn [bind].
    rewrite (overlay_nothing D (VObj [])); [reflexivity | | now left].
    intros k r. cbn [getValueFromPath truthy negb read_prop assoc opt_value].
    apply get_undef.
  - intros o -> Hp. now apply plain_fields_prune.
Qed.

Lemma first_run_writes_defaults_witness :
  let J := table_codec [VObj []] in
  let D := VObj [("port", VNum 1234); ("proxy", VNull);
                 ("logging", VObj [("level", VNum 0); ("pattern", VStr "p")])] in
  let F := VObj [("port", VNum 1234);
                 ("logging", VObj [("level", VNum 0); ("pattern", VStr "p")])] in
  init J Async (constructor Async D) {| disk := None; written := [] |}
  = ({| disk := Some (print_json F); written := [""; print_json F] |},
     Ok {| initialized := true; config := D |}).
Proof.
  intros J D F.
  destruct (first_run_writes_defaults J Async D {| disk := None; written := [] |}
              eq_refl eq_refl eq_refl eq_refl (or_introl eq_refl) eq_refl) as [H _].
  exact H.
Defined.

(* ------------------------------------------------------------------ *)
(** ** [init] and [getConfig] on any instance *)

Lemma init_uninitialized J v self w :
  initialized self = false ->
  init J v self w
  = match JSON_parse J (read_text w) with
    | None => (ensure_file w, Throw SyntaxError)
    | Some parsed =>
        match reconcile (config self) (adopt v parsed) with
        | Ok (config', props') =>
            (writeFileSync (JSON_stringify J props') (ensure_file w),
             Ok {| initialized := true; config := config' |})
        | Throw e => (ensure_file w, Throw e)
        | OutOfFuel => (ensure_file w, OutOfFuel)
        | Untracked => (ensure_file w, Untracked)
        end
    end.
Proof.
  intros Hi. unfold init, ensure_file, read_text, existsSync, readFileSync.
  rewrite Hi.
  destruct w as [[s|] log]; cbn [disk negb writeFileSync]; reflexivity.
Qed.

Lemma init_Ok_initialized J v self w w1 self1 :
  init J v self w = (w1, Ok self1) -> initialized self1 = true.
Proof.
  destruct (initialized self) eqn:Hi.
  - unfold init. rewrite Hi. now intros [= _ <-].
  - rewrite (init_uninitialized J v self w Hi).
    destruct (JSON_parse J (read_text w)) as [parsed|]; [|discriminate].
    destruct (reconcile (config self) (adopt v parsed)) as [[c p]| | |];
      try discriminate.
    now intros [= _ <-].
Qed.

(** X17. [init] reconciles once.  On the instance a successful [init]
    leaves, every later [init] returns at once: it neither reads nor
    writes the file, whatever the file holds by then, and it keeps the
    merged configuration; [getConfig] then leaves the storage alone as
    well and returns the same result every time. *)
Theorem init_runs_once J v self w w1 self1
  (Hinit : init J v self w = (w1, Ok self1)) :
  forall w',
    init J v self1 w' = (w', Ok self1)
    /\ fst (getConfig J v self1 w') = w'
    /\ snd (getConfig J v self1 w') = snd (getConfig J v self1 w1).
Proof.
  pose proof (init_Ok_initialized _ _ _ _ _ _ Hinit) as Hi.
  assert (Hnop : forall w', init J v self1 w' = (w', Ok self1)).
  { intros w'. unfold init. now rewrite Hi. }
  intros w'. split; [apply Hnop|].
  unfold getConfig. rewrite (Hnop w'), (Hnop w1).
  destruct v; [split; reflexivity|].
  destruct (JSON_parse J (JSON_stringify J (config self1))); split; reflexivity.
Qed.

Lemma init_runs_once_witness :
  let P := VObj [("port", VNum 9999)] in
  let J := table_codec [P] in
  let D := VObj [("port", VNum 1234)] in
  let self1 := {| initialized := true; config := P |} in
  let edited := {| disk := Some "{}"; written := [] |} in
  init J Sync self1 edited = (edited, Ok self1)
  /\ fst (getConfig J Sync self1 edited) = edited.
Proof.
  intros P J D self1 edited.
  destruct (init_runs_once J Sync (constructor Sync D)
              {| disk := Some (print_json P); written := [] |}
              {| disk := Some (print_json P); written := [print_json P] |}
              self1 eq_refl edited) as (H1 & H2 & _).
  split; assumption.
Defined.

(** X18. A failing [init] does not write the document.  Whatever makes
    [init] fail (a file that does not parse, a default that is an array, a
    persisted document of the wrong shape), the storage it leaves is the
    storage it found, except that a missing file has been created empty;
    the only write, if any, is that of the empty text. *)
Theorem init_failure_leaves_file J v self w w' r
  (Hinit : init J v self w = (w', r))
  (Hfail : forall self', r <> Ok self') :
  w' = ensure_file w
  /\ (forall s, disk w = Some s -> w' = w)
  /\ (disk w = None -> disk w' = Some "" /\ written w' = written w ++ [""]).
Proof.
  assert (H : w' = ensure_file w).
  { destruct (initialized self) eqn:Hi.
    - unfold init in Hinit. rewrite Hi in Hinit. injection Hinit as <- <-.
      now elim (Hfail self).
    - rewrite (init_uninitialized J v self w Hi) in Hinit.
      destruct (JSON_parse J (read_text w)) as [parsed|];
        [|now injection Hinit as <- _].
      destruct (reconcile (config self) (adopt v parsed)) as [[c p]|e| |];
        try (now injection Hinit as <- _).
      injection Hinit as _ <-. now elim (Hfail {| initialized := true; config := c |}). }
  subst w'. split; [reflexivity|]. apply ensure_file_spec.
Qed.

Lemma init_failure_leaves_file_witness :
  let J := table_codec [VObj [("log", VStr "off")]] in
  let D := VObj [("log", VObj [("level", VNum 3)])] in
  let w := {| disk := Some (print_json (VObj [("log", VStr "off")])); written := [] |} in
  exists w', init J Async (constructor Async D) w = (w', Throw TypeError) /\ w' = w.
Proof.
  intros J D w.
  exists (fst (init J Async (constructor Async D) w)).
  assert (Hinit : init J Async (constructor Async D) w
                  = (fst (init J Async (constructor Async D) w), Throw TypeError))
    by reflexivity.
  split; [exact Hinit|].
  destruct (init_failure_leaves_file J Async (constructor Async D) w _
              (Throw TypeError) Hinit) as (_ & H & _).
  - discriminate.
  - exact (H _ eq_refl).
Defined.

(** X19. Defaults that hold an array never initialize.  Whatever the file
    holds, [init] on such defaults returns no instance and does not write
    the document. *)
Theorem array_defaults_never_initialize J v D w
  (Hwf : wf D = true) (Hobj : is_object D = true)
  (Harr : array_free D = false) :
  exists r,
    init J v (constructor v D) w = (ensure_file w, r)
    /\ forall self', r <> Ok self'.
Proof.
  rewrite init_fresh, (adopt_object v D Hobj).
  destruct (JSON_parse J (read_text w)) as [parsed|].
  - destruct (reconcile D (adopt v parsed)) as [[c p]|e| |] eqn:Er.
    + destruct (reconcile_Ok_inv _ _ _ _ Hwf (is_object_typeof _ Hobj) Er) as [_ Hb].
      rewrite (backfill_Ok_array_free _ _ _ _ Hb) in Harr. discriminate.
    + eexists. split; [reflexivity | discriminate].
    + eexists. split; [reflexivity | discriminate].
    + eexists. split; [reflexivity | discriminate].
  - eexists. split; [reflexivity | discriminate].
Qed.

Lemma array_defaults_never_initialize_witness :
  let D := VObj [("port", VNum 1); ("tags", VArr [VStr "a"])] in
  let P := VObj [("port", VStr "x"); ("tags", VNum 5)] in
  let w := {| disk := Some (print_json P); written := [] |} in
  exists r,
    init (table_codec [P]) Async (constructor Async D) w = (ensure_file w, r)
    /\ forall self', r <> Ok self'.
Proof.
  intros D P w.
  exact (array_defaults_never_initialize (table_codec [P]) Async D w
           eq_refl eq_refl eq_refl).
Defined.

(** X20. An empty file is read as a missing one.  From a file that exists
    and is empty, [init] reaches the same outcome and leaves the same
    file content as from a missing file; the only difference is the
    write that creates the missing file. *)
Theorem empty_file_as_missing J v self log :
  let a := init J v self {| disk := Some ""; written := log |} in
  let b := init J v self {| disk := None; written := log |} in
  snd a = snd b
  /\ (initialized self = false ->
      disk (fst a) = disk (fst b)
      /\ exists rest, written (fst a) = log ++ rest
                      /\ written (fst b) = log ++ "" :: rest).
Proof.
  cbn zeta.
  destruct (initialized self) eqn:Hi.
  - unfold init. rewrite Hi. split; [reflexivity | discriminate].
  - rewrite !(init_uninitialized J v self _ Hi).
    unfold read_text, ensure_file, existsSync. cbn [disk negb String.eqb].
    destruct (JSON_parse J "{}") as [parsed|].
    + destruct (reconcile (config self) (adopt v parsed)) as [[c p]|e| |];
        (split; [reflexivity|]); intros _; (split; [reflexivity|]);
        cbn [writeFileSync written fst].
      * exists [JSON_stringify J p]. split; [reflexivity|].
        now rewrite <- app_assoc.
      * exists []. now rewrite app_nil_r.
      * exists []. now rewrite app_nil_r.
      * exists []. now rewrite app_nil_r.
    + split; [reflexivity|]. intros _. split; [reflexivity|].
      cbn [writeFileSync written fst]. exists []. now rewrite app_nil_r.
Qed.

Lemma empty_file_as_missing_witness :
  let J := table_codec [VObj []] in
  let self := constructor Sync (VObj [("port", VNum 1)]) in
  snd (init J Sync self {| disk := Some ""; written := [] |})
  = snd (init J Sync self {| disk := None; written := [] |})
  /\ disk (fst (init J Sync self {| disk := Some ""; written := [] |}))
     = disk (fst (init J Sync self {| disk := None; written := [] |})).
Proof.
  intros J self.
  destruct (empty_file_as_missing J Sync self []) as [H1 H2].
  split; [exact H1|]. exact (proj1 (H2 eq_refl)).
Defined.

(* ------------------------------------------------------------------ *)
(** ** A persisted document that is not a mapping *)

(** On a persisted value that is a primitive other than a string, the
    walk fails at the first leaf it reaches. *)
Lemma backfill_on_primitive x thing : forall path,
  primitive x = true -> (forall s, x <> VStr s) ->
  array_free thing = true ->
  (path <> [] \/ is_object thing = true) ->
  backfill thing path x = if has_leaf thing then Throw TypeError else Ok x.
Proof.
  intros path Hx Hs.
  assert (Hleaf : forall (t : value) path,
             path <> [] ->
             (if is_undefined (getValueFromPath x path)
              then setValueFromPath x path t else Ok x) = Throw TypeError).
  { intros t [|k r] Hne; [congruence|].
    rewrite (get_below_primitive x k r Hx Hs). cbn [is_undefined].
    apply set_primitive_throws; [exact Hx | discriminate]. }
  revert path.
  induction thing as [| | b | n | s | l _ | o IH] using value_nested_ind;
    intros path Haf Hor;
    try (destruct Hor as [Hne | Hor]; [exact (Hleaf _ _ Hne) | discriminate]).
  - reflexivity.
  - discriminate.
  - rewrite backfill_obj. cbn [has_leaf]. clear Hor.
    cbn [array_free] in Haf.
    induction IH as [|[k c] r Hc _ IHr]; cbn [backfill_fields existsb]; auto.
    cbn [forallb] in Haf. apply andb_true_iff in Haf. destruct Haf as [Hac Har].
    cbn [fst snd] in *.
    rewrite (Hc (path ++ [k]) Hac).
    + destruct (has_leaf c); cbn [bind orb]; auto.
    + left. destruct path; discriminate.
Qed.

(** X21. A file that holds a bare [null], boolean or number, with
    defaults that hold no array and whose keys are all ordinary.  The
    synchronous variant copies the parsed value into a fresh mapping, so
    its [init] proceeds as on an empty document: it keeps the defaults
    and writes them (pruned as on a first run).  [init] of
    [src/config.ts] hands the parsed value to the walk as it is: it
    throws a [TypeError] without writing the document as soon as the
    defaults have a leaf, and otherwise succeeds and writes the parsed
    value back. *)
Theorem scalar_document J D w x
  (Hwf : wf D = true) (Hobj : is_object D = true) (Haf : array_free D = true)
  (Hkeys : ordinary_keys D = true)
  (Hparse : JSON_parse J (read_text w) = Some x)
  (Hx : primitive x = true) (Hs : forall s, x <> VStr s) :
  init J Sync (constructor Sync D) w
  = (writeFileSync (JSON_stringify J (prune D)) (ensure_file w),
     Ok {| initialized := true; config := D |})
  /\ init J Async (constructor Async D) w
     = if has_leaf D
       then (ensure_file w, Throw TypeError)
       else (writeFileSync (JSON_stringify J x) (ensure_file w),
             Ok {| initialized := true; config := D |}).
Proof.
  pose proof (is_object_typeof _ Hobj) as Hty.
  rewrite !init_fresh, Hparse.
  split.
  - rewrite (adopt_object Sync D Hobj).
    replace (adopt Sync x) with (VObj [])
      by (destruct x; try discriminate; try reflexivity; now elim (Hs s)).
    rewrite (reconcile_refines _ _ Hwf Hty), (backfill_empty D Hwf Hobj Haf).
    cbn [bind]. rewrite (overlay_nothing D (VObj [])); [reflexivity | | now left].
    intros k r. cbn [getValueFromPath truthy negb read_prop assoc opt_value].
    apply get_undef.
  - cbn [adopt].
    rewrite (reconcile_refines _ _ Hwf Hty).
    rewrite (backfill_on_primitive x D [] Hx Hs Haf (or_intror Hobj)).
    destruct (has_leaf D); [reflexivity|]. cbn [bind].
    rewrite (overlay_nothing D x); [reflexivity | | now left].
    intros k r. exact (get_below_primitive x k r Hx Hs).
Qed.

Lemma scalar_document_witness :
  let J := table_codec [VNull] in
  let D := VObj [("port", VNum 1234)] in
  let w := {| disk := Some "null"; written := [] |} in
  init J Sync (constructor Sync D) w
  = ({| disk := Some (print_json D); written := [print_json D] |},
     Ok {| initialized := true; config := D |})
  /\ init J Async (constructor Async D) w = (w, Throw TypeError).
Proof.
  intros J D w.
  exact (scalar_document J D w VNull eq_refl eq_refl eq_refl eq_refl eq_refl eq_refl
           (fun s (E : VNull = VStr s) =>
              eq_ind VNull (fun v => match v with VNull => True | _ => False end)
                     I (VStr s) E)).
Defined.

(* ------------------------------------------------------------------ *)
(** ** Keys and their order *)

(** X22. The merged configuration has the sections of the defaults with
    the keys of the defaults.  Wherever the defaults hold a mapping, the
    merged configuration holds a mapping with the same keys in the same
    order: keys that only the persisted document has never enter it. *)
Theorem sections_keep_their_keys D P M P' p o
  (Hwf : wf D = true) (Hobj : is_object D = true)
  (Hrun : reconcile D P = Ok (M, P'))
  (Hsec : lookup D p = Some (VObj o)) :
  exists o', lookup M p = Some (VObj o') /\ map fst o' = map fst o.
Proof.
  destruct (reconcile_Ok_inv _ _ _ _ Hwf (is_object_typeof _ Hobj) Hrun) as [-> _].
  rewrite (overlay_lookup D P p _ Hsec). cbn [overlay].
  eexists. split; [reflexivity|].
  rewrite map_map. apply map_ext. reflexivity.
Qed.

Lemma sections_keep_their_keys_witness :
  let D := VObj [("b", VNum 1); ("a", VObj [("y", VNum 2); ("x", VNum 3)])] in
  let P := VObj [("zzz", VNum 0); ("a", VObj [("x", VNum 30); ("w", VNum 9)])] in
  exists M P' o',
    reconcile D P = Ok (M, P')
    /\ lookup M ["a"] = Some (VObj o') /\ map fst o' = ["y"; "x"].
Proof.
  intros D P.
  assert (Hrun : exists M P', reconcile D P = Ok (M, P'))
    by (eexists; eexists; reflexivity).
  destruct Hrun as (M & P' & Hrun).
  destruct (sections_keep_their_keys D P M P' ["a"] _ eq_refl eq_refl Hrun eq_refl)
    as (o' & H1 & H2).
  exists M, P', o'. split; [exact Hrun|]. split; assumption.
Defined.

Lemma set_keys o p v t' :
  setValueFromPath (VObj o) p v = Ok t' ->
  exists extra, keys t' = keys (VObj o) ++ extra.
Proof.
  assert (Hset : forall k c, exists extra,
             map fst (assoc_set k c o) = map fst o ++ extra).
  { intros k c. destruct (assoc k o) as [old|] eqn:E.
    - exists []. now rewrite app_nil_r, (assoc_set_keys _ _ _ _ E).
    - exists [k]. rewrite (assoc_set_new _ _ _ E), map_app. reflexivity. }
  destruct p as [|k [|k2 r]].
  - intros [= <-]. exists []. now rewrite app_nil_r.
  - rewrite set_one. cbn [write_prop]. intros [= <-]. apply Hset.
  - destruct (truthy (read_prop (VObj o) k)) eqn:Et.
    + rewrite (set_truthy_step _ _ _ _ _ Et). intros H.
      apply bind_Ok_inv in H. destruct H as (child & _ & [= <-]). apply Hset.
    + rewrite (set_falsy_step _ _ _ _ _ Et). intros [= <-]. apply Hset.
Qed.

Lemma backfill_keys thing : forall path pr pr',
  is_object pr = true -> backfill thing path pr = Ok pr' ->
  is_object pr' = true /\ exists extra, keys pr' = keys pr ++ extra.
Proof.
  assert (Hleaf : forall (t : value) path pr pr',
             is_object pr = true ->
             (if is_undefined (getValueFromPath pr path)
              then setValueFromPath pr path t else Ok pr) = Ok pr' ->
             is_object pr' = true /\ exists extra, keys pr' = keys pr ++ extra).
  { intros t path pr pr' Ho H.
    destruct (is_undefined (getValueFromPath pr path)).
    - split; [exact (set_keeps_object _ _ _ _ Ho H)|].
      destruct pr; try discriminate. exact (set_keys _ _ _ _ H).
    - injection H as <-. split; auto. exists []. now rewrite app_nil_r. }
  induction thing as [| | b | n | s | l _ | o IH] using value_nested_ind;
    intros path pr pr' Ho H.
  - exact (Hleaf VUndef _ _ _ Ho H).
  - injection H as <-. split; auto. exists []. now rewrite app_nil_r.
  - exact (Hleaf (VBool b) _ _ _ Ho H).
  - exact (Hleaf (VNum n) _ _ _ Ho H).
  - exact (Hleaf (VStr s) _ _ _ Ho H).
  - discriminate.
  - rewrite backfill_obj in H. revert pr Ho H.
    induction IH as [|kv r Hkv _ IHr]; intros pr Ho H; simpl in H.
    + injection H as <-. split; auto. exists []. now rewrite app_nil_r.
    + apply bind_Ok_inv in H. destruct H as (pr1 & H1 & H2).
      destruct (Hkv _ _ _ Ho H1) as (Ho1 & e1 & E1).
      destruct (IHr _ Ho1 H2) as (Ho2 & e2 & E2).
      split; auto. exists (e1 ++ e2). now rewrite E2, E1, app_assoc.
Qed.

(** X23. The rewritten document keeps the order of the document read.
    When no top-level key of the defaults is an index (a key that an
    object enumerates before the others), the top-level keys of the
    persisted mapping after a successful reconciliation are those it had,
    in the order it had them, followed by the keys the walk added. *)
Theorem persisted_key_order_kept D P M P'
  (Hwf : wf D = true) (Hobj : is_object D = true)
  (Hnames : forallb named_key (keys D) = true)
  (HP : is_object P = true)
  (Hrun : reconcile D P = Ok (M, P')) :
  exists added, keys P' = keys P ++ added.
Proof.
  destruct (reconcile_Ok_inv _ _ _ _ Hwf (is_object_typeof _ Hobj) Hrun) as [_ Hb].
  exact (proj2 (backfill_keys D [] P P' HP Hb)).
Qed.

Lemma persisted_key_order_kept_witness :
  let D := VObj [("a", VNum 1); ("b", VNum 2); ("c", VNum 3)] in
  let P := VObj [("z", VNum 0); ("b", VNum 20)] in
  exists M P' added,
    reconcile D P = Ok (M, P') /\ keys P' = ["z"; "b"] ++ added.
Proof.
  intros D P.
  assert (Hrun : exists M P', reconcile D P = Ok (M, P'))
    by (eexists; eexists; reflexivity).
  destruct Hrun as (M & P' & Hrun).
  destruct (persisted_key_order_kept D P M P' eq_refl eq_refl eq_refl eq_refl Hrun)
    as (added & H).
  exists M, P', added. split; [exact Hrun | exact H].
Defined.

(* ================================================================== *)
(** * The copy [getConfig] returns *)

Lemma load_tree_ref fuel h l :
  load_tree (S fuel) h (Heap.RRef l)
  = match nth_error h l with
    | None => None
    | Some c =>
        match load_fields fuel h (Heap.fields c) with
        | Some o => Some (if Heap.is_array c then VArr (map snd o) else VObj o)
        | None => None
        end
    end.
Proof.
  cbn [load_tree]. destruct (nth_error h l) as [c|]; auto.
  match goal with
  | |- match ?f _ with _ => _ end = _ =>
      assert (Heq : forall fs, f fs = load_fields fuel h fs)
  end.
  { induction fs as [|kr fs IH]; cbn; auto.
    destruct (load_tree fuel h (snd kr)); auto. now rewrite IH. }
  now rewrite Heq.
Qed.

Lemma store_obj h o :
  Heap.store h (VObj o)
  = let (h1, fs) := store_fields h o in
    let (h2, l) := Heap.alloc h1 {| Heap.is_array := false; Heap.fields := fs |} in
    (h2, Heap.RRef l).
Proof. reflexivity. Qed.

(** Reading back a tree the heap holds. *)
Lemma load_holds t : forall fuel h r F,
  Heap.layout h r t = Some F -> depth t <= fuel -> load_tree fuel h r = Some t.
Proof.
  induction t as [| | b | n | s | l _ | o IH] using value_nested_ind;
    intros fuel h r F Hl Hd;
    try (scalar_layout Hl; destruct fuel; reflexivity).
  - pose proof (fun E => layout_scalar _ _ _ _ E Hl) as Hs.
    destruct (Hs eq_refl) as (_ & _ & Harr). discriminate.
  - destruct (layout_obj_inv _ _ _ _ Hl) as (l & c & Ff & -> & Hc & Ha & Hf & _).
    destruct fuel as [|fuel]; [cbn [depth] in Hd; lia|].
    rewrite load_tree_ref, Hc, Ha.
    assert (Hfs : load_fields fuel h (Heap.fields c) = Some o); [|now rewrite Hfs].
    assert (Hdc : forall kv, In kv o -> depth (snd kv) <= fuel).
    { intros kv Hin. pose proof (depth_child kv o Hin). lia. }
    clear Hl Hc Ha Hd. revert Ff Hf. generalize (Heap.fields c) as fs.
    induction IH as [|[k t] o Ht _ IHo]; intros fs Ff Hf.
    + destruct fs; [reflexivity | discriminate].
    + destruct fs as [|[k' r'] fs]; [discriminate|].
      cbn [Heap.layout_fields] in Hf.
      destruct (String.eqb k k') eqn:Ek; [|discriminate].
      apply String.eqb_eq in Ek. subst k'.
      destruct (Heap.layout h r' t) as [F1|] eqn:E1; [|discriminate].
      destruct (Heap.layout_fields h fs o) as [F2|] eqn:E2; [|discriminate].
      cbn [load_fields fst snd]. cbn [snd] in Ht.
      rewrite (Ht fuel h r' F1 E1 (Hdc (k, t) (or_introl eq_refl))).
      rewrite (IHo (fun kv Hin => Hdc kv (or_intror Hin)) fs F2 E2). reflexivity.
Qed.

Lemma nth_error_ext (h ext : Heap.heap) l :
  l < List.length h -> nth_error (h ++ ext) l = nth_error h l.
Proof. intros H. now apply nth_error_app1. Qed.

(** Storing a tree without arrays allocates fresh cells that hold it and
    leaves the cells there were as they are. *)
Lemma store_holds t : forall h h1 r,
  array_free t = true -> Heap.store h t = (h1, r) ->
  exists F ext,
    h1 = h ++ ext
    /\ Heap.layout h1 r t = Some F /\ NoDup F
    /\ forall l, In l F -> List.length h <= l < List.length h1.
Proof.
  assert (Hscalar : forall x h h1 r,
             is_object x = false -> isArray x = false ->
             (h, Heap.embed x) = (h1, r) ->
             exists F ext,
               h1 = h ++ ext
               /\ Heap.layout h1 r x = Some F /\ NoDup F
               /\ forall l, In l F -> List.length h <= l < List.length h1).
  { intros x h h1 r Ho Ha [= <- <-]. exists [], [].
    rewrite app_nil_r. split; [reflexivity|].
    split; [now apply layout_embed|]. split; [constructor|]. intros l []. }
  induction t as [| | b | n | s | l _ | o IH] using value_nested_ind;
    intros h h1 r Haf Hs;
    try (cbn [Heap.store] in Hs;
         apply (fun A B => Hscalar _ _ _ _ A B Hs); reflexivity).
  - discriminate.
  - rewrite store_obj in Hs.
    destruct (store_fields h o) as [h2 fs] eqn:Efs.
    cbn [Heap.alloc] in Hs. injection Hs as <- <-.
    assert (Hfields : exists Ff ext,
               h2 = h ++ ext
               /\ Heap.layout_fields h2 fs o = Some Ff /\ NoDup Ff
               /\ forall l, In l Ff -> List.length h <= l < List.length h2).
    { cbn [array_free] in Haf. clear Hscalar.
      revert h h2 fs Efs Haf.
      induction IH as [|[k t] o Ht _ IHo]; intros h h2 fs Efs Haf.
      - cbn [store_fields] in Efs. injection Efs as <- <-.
        exists [], []. rewrite app_nil_r.
        split; [reflexivity|]. split; [reflexivity|]. split; [constructor|].
        intros l [].
      - cbn [store_fields fst snd] in Efs. cbn [snd] in Ht.
        cbn [forallb snd] in Haf. apply andb_true_iff in Haf.
        destruct Haf as [Hat Hao].
        destruct (Heap.store h t) as [ha r] eqn:Et.
        destruct (store_fields ha o) as [hb fs'] eqn:Eo.
        injection Efs as <- <-.
        destruct (Ht h ha r Hat Et) as (F1 & e1 & -> & L1 & N1 & R1).
        destruct (IHo (h ++ e1) hb fs' Eo Hao) as (F2 & e2 & -> & L2 & N2 & R2).
        exists (F1 ++ F2), (e1 ++ e2).
        split; [now rewrite app_assoc|].
        split.
        + cbn [Heap.layout_fields]. rewrite String.eqb_refl.
          rewrite (layout_frame (h ++ e1) ((h ++ e1) ++ e2) t r F1 L1), L2; auto.
          intros l Hin. apply nth_error_ext. apply (R1 l Hin).
        + split.
          * apply NoDup_app_intro; auto.
            intros x H1 H2. specialize (R1 x H1). specialize (R2 x H2). lia.
          * intros l Hin. apply in_app_or in Hin.
            rewrite !length_app in *.
            destruct Hin as [Hin|Hin];
              [specialize (R1 l Hin) | specialize (R2 l Hin)];
              rewrite ?length_app in *; lia. }
    destruct Hfields as (Ff & ext & -> & Lf & Nf & Rf).
    exists (List.length (h ++ ext) :: Ff),
           (ext ++ [{| Heap.is_array := false; Heap.fields := fs |}]).
    split; [now rewrite app_assoc|].
    split.
    + rewrite layout_obj, alloc_new. cbn [Heap.is_array Heap.fields].
      rewrite (layout_fields_frame (h ++ ext) _ o fs Ff Lf); auto.
      intros l Hin. apply nth_error_ext. apply (Rf l Hin).
    + split.
      * constructor; auto. intros Hin. specialize (Rf _ Hin). lia.
      * intros l [<-|Hin]; [|specialize (Rf l Hin)];
          rewrite ?length_app in *; cbn [List.length]; lia.
Qed.

(** A copy built by storing the tree [t'] next to a tree the heap holds:
    the copy has cells of its own, and no write into a cell of the copy
    changes the tree held before. *)
Lemma copy_apart h r t F t' h1 snap fuel :
  Heap.holds h r t F -> depth t <= fuel ->
  array_free t' = true -> Heap.store h t' = (h1, snap) ->
  exists F1,
    Heap.holds h1 snap t' F1
    /\ (forall l, In l F1 -> ~ In l F)
    /\ Heap.holds h1 r t F
    /\ forall l c, In l F1 ->
         Heap.holds (Heap.put h1 l c) r t F
         /\ load_tree fuel (Heap.put h1 l c) r = Some t.
Proof.
  intros (Hl & Hn & Hb) Hd Haf Hs.
  destruct (store_holds t' h h1 snap Haf Hs) as (F1 & ext & -> & L1 & N1 & R1).
  assert (Hkeep : Heap.layout (h ++ ext) r t = Some F).
  { apply (layout_frame h); auto. intros l Hin. apply nth_error_ext. now apply Hb. }
  assert (Hbound : forall l, In l F -> l < List.length (h ++ ext)).
  { intros l Hin. specialize (Hb l Hin). rewrite length_app. lia. }
  exists F1. split; [|split; [|split]].
  - split; [exact L1|]. split; [exact N1|]. intros l Hin. apply (R1 l Hin).
  - intros l H1 H2. specialize (R1 l H1). specialize (Hb l H2). lia.
  - split; [exact Hkeep|]. split; auto.
  - intros l c Hin.
    assert (Hput : Heap.layout (Heap.put (h ++ ext) l c) r t = Some F).
    { apply (layout_frame (h ++ ext)); auto.
      intros l' Hin'. apply put_other. intros ->.
      specialize (R1 _ Hin). specialize (Hb _ Hin'). lia. }
    split.
    + split; [exact Hput|]. split; auto.
      intros l' Hin'. rewrite put_length. now apply Hbound.
    + exact (load_holds t fuel _ r F Hput Hd).
Qed.

(** A tree the heap holds has no array. *)
Lemma layout_array_free t : forall h r F,
  Heap.layout h r t = Some F -> array_free t = true.
Proof.
  induction t as [| | b | n | s | l _ | o IH] using value_nested_ind;
    intros h r F Hl; try reflexivity.
  - pose proof (fun E => layout_scalar _ _ _ _ E Hl) as Hs.
    destruct (Hs eq_refl) as (_ & _ & Harr). discriminate.
  - destruct (layout_obj_inv _ _ _ _ Hl) as (l & c & Ff & _ & _ & _ & Hf & _).
    cbn [array_free]. clear Hl. revert Ff Hf. generalize (Heap.fields c) as fs.
    induction IH as [|[k t] o Ht _ IHo]; intros fs Ff Hf; [reflexivity|].
    destruct fs as [|[k' r'] fs]; [discriminate|].
    cbn [Heap.layout_fields] in Hf.
    destruct (String.eqb k k'); [|discriminate].
    destruct (Heap.layout h r' t) as [F1|] eqn:E1; [|discriminate].
    destruct (Heap.layout_fields h fs o) as [F2|] eqn:E2; [|discriminate].
    cbn [forallb snd]. cbn [snd] in Ht.
    now rewrite (Ht _ _ _ E1), (IHo fs F2 E2).
Qed.

(** X24. The copy [getConfig] returns in [src/config.ts] is independent of
    the instance.  When the heap holds the configuration [M] (a tree
    without arrays) at [this.config], [structuredClone] yields a
    reference to fresh cells that hold [M]; no cell is shared with the
    configuration, and whatever the caller then writes into a cell of the
    copy, the instance still holds [M], which the next [getConfig] clones
    again. *)
Theorem structuredClone_is_independent h config M F fuel
  (Hc : Heap.holds h config M F) (Hfuel : depth M <= fuel) :
  exists h1 snap F1,
    structuredClone fuel h config = Some (h1, snap)
    /\ Heap.holds h1 snap M F1
    /\ (forall l, In l F1 -> ~ In l F)
    /\ Heap.holds h1 config M F
    /\ forall l c, In l F1 ->
         Heap.holds (Heap.put h1 l c) config M F
         /\ exists h2 snap2 F2,
              structuredClone fuel (Heap.put h1 l c) config = Some (h2, snap2)
              /\ Heap.holds h2 snap2 M F2.
Proof.
  assert (Haf : array_free M = true).
  { destruct Hc as (Hl & _). exact (layout_array_free _ _ _ _ Hl). }
  destruct (Heap.store h M) as [h1 snap] eqn:Es.
  destruct (copy_apart h config M F M h1 snap fuel Hc Hfuel Haf Es)
    as (F1 & H1 & Hd & Hk & Hw).
  exists h1, snap, F1.
  split.
  { unfold structuredClone. destruct Hc as (Hl & _).
    now rewrite (load_holds M fuel h config F Hl Hfuel), Es. }
  split; [exact H1|]. split; [exact Hd|]. split; [exact Hk|].
  intros l c Hin. destruct (Hw l c Hin) as [Hh Hload].
  split; [exact Hh|].
  destruct (Heap.store (Heap.put h1 l c) M) as [h2 snap2] eqn:Es2.
  destruct (copy_apart _ config M F M h2 snap2 fuel Hh Hfuel Haf Es2)
    as (F2 & H2 & _).
  exists h2, snap2, F2. split; [|exact H2].
  unfold structuredClone. now rewrite Hload, Es2.
Qed.

Lemma structuredClone_is_independent_witness :
  let M := VObj [("port", VNum 9999); ("logging", VObj [("level", VNum 10)])] in
  let h := fst (Heap.store [] M) in
  let config := snd (Heap.store [] M) in
  exists h1 snap F1,
    structuredClone 2 h config = Some (h1, snap)
    /\ Heap.holds h1 snap M F1
    /\ Heap.holds h1 config M [1; 0]
    /\ forall l c, In l F1 -> Heap.holds (Heap.put h1 l c) config M [1; 0].
Proof.
  intros M h config.
  assert (Hc : Heap.holds h config M [1; 0]).
  { split; [reflexivity|]. split.
    - repeat constructor; simpl; intuition discriminate.
    - simpl. intros l [<-|[<-|[]]]; lia. }
  destruct (structuredClone_is_independent h config M [1; 0] 2 Hc)
    as (h1 & snap & F1 & Hs & Hsnap & _ & Hk & Hw).
  { cbn. lia. }
  exists h1, snap, F1. split; [exact Hs|]. split; [exact Hsnap|].
  split; [exact Hk|]. intros l c Hin. exact (proj1 (Hw l c Hin)).
Defined.

(** X25. The copy [getConfig] returns in the synchronous variant is
    independent of the instance.  When the heap holds the configuration
    [M] at [this.config] and [JSON.parse] reads the text of [M] as a tree
    [M'] without arrays, the copy is a reference to fresh cells that hold
    [M']; no cell is shared with the configuration, and whatever the
    caller then writes into a cell of the copy, the instance still holds
    [M] and the next [getConfig] returns a copy of [M'] again. *)
Theorem json_clone_is_independent J h config M M' F fuel
  (Hc : Heap.holds h config M F) (Hfuel : depth M <= fuel)
  (Hparse : JSON_parse J (JSON_stringify J M) = Some M')
  (Haf : array_free M' = true) :
  exists h1 snap F1,
    json_clone J fuel h config = Some (h1, snap)
    /\ Heap.holds h1 snap M' F1
    /\ (forall l, In l F1 -> ~ In l F)
    /\ Heap.holds h1 config M F
    /\ forall l c, In l F1 ->
         Heap.holds (Heap.put h1 l c) config M F
         /\ exists h2 snap2 F2,
              json_clone J fuel (Heap.put h1 l c) config = Some (h2, snap2)
              /\ Heap.holds h2 snap2 M' F2.
Proof.
  destruct (Heap.store h M') as [h1 snap] eqn:Es.
  destruct (copy_apart h config M F M' h1 snap fuel Hc Hfuel Haf Es)
    as (F1 & H1 & Hd & Hk & Hw).
  exists h1, snap, F1.
  split.
  { unfold json_clone. destruct Hc as (Hl & _).
    now rewrite (load_holds M fuel h config F Hl Hfuel), Hparse, Es. }
  split; [exact H1|]. split; [exact Hd|]. split; [exact Hk|].
  intros l c Hin. destruct (Hw l c Hin) as [Hh Hload].
  split; [exact Hh|].
  destruct (Heap.store (Heap.put h1 l c) M') as [h2 snap2] eqn:Es2.
  destruct (copy_apart _ config M F M' h2 snap2 fuel Hh Hfuel Haf Es2)
    as (F2 & H2 & _).
  exists h2, snap2, F2. split; [|exact H2].
  unfold json_clone. now rewrite Hload, Hparse, Es2.
Qed.

Lemma json_clone_is_independent_witness :
  let M := VObj [("port", VNum 9999)] in
  let J := table_codec [M] in
  let h := fst (Heap.store [] M) in
  let config := snd (Heap.store [] M) in
  exists h1 snap F1,
    json_clone J 1 h config = Some (h1, snap)
    /\ Heap.holds h1 snap M F1
    /\ Heap.holds h1 config M [0].
Proof.
  intros M J h config.
  assert (Hc : Heap.holds h config M [0]).
  { split; [reflexivity|]. split.
    - repeat constructor; simpl; intuition discriminate.
    - simpl. intros l [<-|[]]; lia. }
  destruct (json_clone_is_independent J h config M M [0] 1 Hc)
    as (h1 & snap & F1 & Hs & Hsnap & _ & Hk & _).
  { cbn. lia. }
  { reflexivity. }
  { reflexivity. }
  exists h1, snap, F1. split; [exact Hs|]. split; [exact Hsnap | exact Hk].
Defined.

(* ================================================================== *)
(** * Changing the defaults between runs *)

(** X26. Old defaults present as user overrides.  After a first
    reconciliation against the defaults [D1], whose keys are all
    ordinary, a reconciliation of the resulting document against changed
    defaults [D2] gives, at every path where both defaults hold a leaf
    (and [D1] not [undefined]), the value the first run settled on: the
    new default does not take effect.  When the first document had
    nothing at the path, that value is the old default. *)
Theorem old_defaults_override_new D1 D2 P0 M1 P1 M2 P2 p dv1 dv2
  (Hwf1 : wf D1 = true) (Hobj1 : is_object D1 = true)
  (Hwf2 : wf D2 = true) (Hobj2 : is_object D2 = true)
  (Hkeys : ordinary_keys D1 = true)
  (Hrun1 : reconcile D1 P0 = Ok (M1, P1))
  (Hrun2 : reconcile D2 P1 = Ok (M2, P2))
  (Hleaf1 : lookup D1 p = Some dv1) (Hkind1 : walk_leaf dv1 = true)
  (Hdef1 : dv1 <> VUndef)
  (Hleaf2 : lookup D2 p = Some dv2) (Hkind2 : walk_leaf dv2 = true) :
  lookup M2 p = lookup M1 p
  /\ (getValueFromPath P0 p = VUndef -> lookup M2 p = Some dv1).
Proof.
  destruct (reconcile_leaf D1 P0 M1 P1 p dv1 Hwf1 Hobj1 Hrun1 Hleaf1 Hkind1)
    as [HM1 HP1].
  destruct (reconcile_leaf D2 P1 M2 P2 p dv2 Hwf2 Hobj2 Hrun2 Hleaf2 Hkind2)
    as [HM2 _].
  assert (Hfound : is_undefined (getValueFromPath P1 p) = false).
  { rewrite HP1. destruct (is_undefined (getValueFromPath P0 p)) eqn:E; auto.
    now apply not_undef_is_undefined. }
  rewrite Hfound in HM2. rewrite HM2, HM1, HP1.
  split; [reflexivity|]. intros ->. reflexivity.
Qed.

Lemma old_defaults_override_new_witness :
  let D1 := VObj [("port", VNum 1234)] in
  let D2 := VObj [("port", VNum 8080); ("debug", VBool true)] in
  exists M1 P1 M2 P2,
    reconcile D1 (VObj []) = Ok (M1, P1)
    /\ reconcile D2 P1 = Ok (M2, P2)
    /\ lookup M2 ["port"] = Some (VNum 1234).
Proof.
  intros D1 D2.
  assert (H1 : reconcile D1 (VObj []) = Ok (D1, D1)) by reflexivity.
  assert (H2 : exists M2 P2, reconcile D2 D1 = Ok (M2, P2))
    by (eexists; eexists; reflexivity).
  destruct H2 as (M2 & P2 & H2).
  exists D1, D1, M2, P2. split; [exact H1|]. split; [exact H2|].
  assert (Hdef : VNum 1234 <> VUndef) by discriminate.
  exact (proj2 (old_defaults_override_new D1 D2 (VObj []) D1 D1 M2 P2 ["port"]
                  (VNum 1234) (VNum 8080) eq_refl eq_refl eq_refl eq_refl eq_refl
                  H1 H2 eq_refl eq_refl Hdef eq_refl eq_refl)
               eq_refl).
Defined.

(* ================================================================== *)
(** * The instance and the file after [init] *)



(** X28. When the keys of the defaults are all ordinary and the
    persisted document has none of the leaves of the defaults, the merged
    configuration is the defaults themselves, whatever else the document
    holds. *)
Theorem defaults_used_when_nothing_persisted D P M P'
  (Hwf : wf D = true) (Hobj : is_object D = true)
  (Hkeys : ordinary_keys D = true)
  (Hnone : forall p dv, lookup D p = Some dv -> walk_leaf dv = true ->
                        getValueFromPath P p = VUndef)
  (Hrun : reconcile D P = Ok (M, P')) :
  M = D.
Proof.
  destruct (reconcile_Ok_inv _ _ _ _ Hwf (is_object_typeof _ Hobj) Hrun) as [-> _].
  rewrite <- (overlay_nothing D VUndef) at 2.
  - apply overlay_ext; [exact Hwf|].
    intros p dv Hl Hw. now rewrite (Hnone p dv Hl Hw), get_undef.
  - intros k r. apply get_undef.
  - now left.
Qed.

Lemma defaults_used_when_nothing_persisted_witness :
  let D := VObj [("port", VNum 1234)] in
  let P := VObj [("theme", VStr "dark")] in
  exists M P', reconcile D P = Ok (M, P') /\ M = D.
Proof.
  intros D P.
  assert (Hrun : exists M P', reconcile D P = Ok (M, P'))
    by (eexists; eexists; reflexivity).
  destruct Hrun as (M & P' & Hrun).
  exists M, P'. split; [exact Hrun|].
  apply (defaults_used_when_nothing_persisted D P M P' eq_refl eq_refl eq_refl);
    [|exact Hrun].
  intros p dv Hl Hw.
  destruct p as [|k p]; [injection Hl as <-; discriminate|].
  cbn [lookup D assoc] in Hl.
  destruct (String.eqb k "port") eqn:E; [|discriminate].
  apply String.eqb_eq in E. subst k.
  destruct p; [reflexivity | discriminate].
Defined.

(* ================================================================== *)
(** * Termination of the walk *)

(** X29. The walk terminates.  The recursion of [loadConfig] descends the
    defaults, so a recursion depth of one more than their nesting depth
    is never exhausted, and any larger bound gives the same outcome. *)
Theorem loadConfig_terminates D P fuel
  (Hwf : wf D = true) (Hobj : is_object D = true)
  (Hfuel : depth D < fuel) :
  loadConfig fuel (D, P) [] = reconcile D P
  /\ loadConfig fuel (D, P) [] <> OutOfFuel.
Proof.
  pose proof (is_object_typeof _ Hobj) as Hty.
  assert (E : loadConfig fuel (D, P) [] = reconcile D P).
  { rewrite (reconcile_refines D P Hwf Hty).
    now rewrite (loadConfig_refines fuel D P [] D eq_refl Hwf Hfuel (fun _ => Hty)). }
  split; [exact E|]. rewrite E.
  exact (proj1 (reconcile_total D P Hwf Hobj)).
Qed.

Lemma loadConfig_terminates_witness :
  let D := VObj [("a", VObj [("b", VObj [("c", VNum 1)])])] in
  loadConfig 10 (D, VObj []) [] = reconcile D (VObj []).
Proof.
  intros D.
  apply (loadConfig_terminates D (VObj []) 10 eq_refl eq_refl).
  cbn. lia.
Defined.

